(** * Page-break pass of the html2pdf pagebreak plugin (src/plugin/pagebreaks.js)

    A shallow embedding of [addUIDRecursive] and of the [toContainer_pagebreak]
    continuation, followed by the properties established about them.

    Conventions of the embedding.
    - The DOM clone is a rose tree of elements.  A JavaScript object reference
      is a natural number, the identity of the element; text nodes carry no
      identity and are left out, so [children], [querySelectorAll] and the
      sibling order are those of elements.
    - Pixel quantities are whole CSS pixels, in [Z].  JavaScript [a % b] is the
      truncated remainder [Z.rem] (sign of the dividend), [Math.floor (a / b)]
      is [Z.div] (floor division) and the ratio test [nPages <= 1] is carried
      out in [Q].  These agree with the source for a non-zero page height.
    - A browser reports rectangles in fractions of a pixel.  The arithmetic of
      lines 172-190 is therefore given a second time on rationals ([RectQ],
      [avoid_passQ], [fillHeightQ]); on whole pixels the two agree, and what
      depends on fractions is stated on the rational one.
    - [getComputedStyle], [getBoundingClientRect] and [querySelectorAll] on a
      selector list belong to the host; they are variables of the section and
      read the current document.
    - A call that throws in the source returns [None] here. *)

From Stdlib Require Import List String Ascii Bool Arith ZArith QArith Qround Qabs.
From Stdlib Require Import Lia Lqa DecimalString.
Import ListNotations.

Local Close Scope Q_scope.
Local Open Scope string_scope.
Local Open Scope list_scope.
Local Open Scope nat_scope.

(** ** JavaScript primitives *)

(** [a % b] on numbers. *)
Definition js_rem (a b : Z) : Z := Z.rem a b.

(** [Math.floor (a / b)]. *)
Definition js_floor_div (a b : Z) : Z := Z.div a b.

(** [a || b] on strings: the empty (or missing) string is falsy. *)
Definition js_or (a b : string) : string :=
  match a with
  | EmptyString => b
  | _ => a
  end.

(** [arr.indexOf (x) !== -1] for an array of strings. *)
Definition includes_str (arr : list string) (x : string) : bool :=
  existsb (String.eqb x) arr.

(** [arr.indexOf (el) !== -1] for an array of element references. *)
Definition includes_el (arr : list nat) (el : nat) : bool :=
  existsb (Nat.eqb el) arr.

(** Template-literal rendering of an array index. *)
Definition index_str (index : nat) : string :=
  NilZero.string_of_uint (Nat.to_uint index).

(** Option as the exception monad. *)
Definition bind {A B : Type} (m : option A) (k : A -> option B) : option B :=
  match m with
  | Some a => k a
  | None => None
  end.

Notation "x <- m ;; k" := (bind m (fun x => k))
  (at level 61, m at next level, right associativity).

(** First success of [f] along a list. *)
Fixpoint find_first {A B : Type} (f : A -> option B) (l : list A) : option B :=
  match l with
  | [] => None
  | a :: l' =>
      match f a with
      | Some b => Some b
      | None => find_first f l'
      end
  end.

(** ** The DOM *)

(** The inline style given to [createElement]: [{height: h + 'px', display}].
    It is the only inline style the pass writes, and the only one recorded. *)
Record InlineStyle : Type := mkInlineStyle
  { height : Z;
    display : string }.

#[warnings="-register-all"]
Inductive Element : Type :=
| El (ident : nat) (classList : list string) (uidAttr : option string)
     (inlineStyle : option InlineStyle) (children : list Element).

Definition ident (e : Element) : nat :=
  match e with El i _ _ _ _ => i end.

Definition classList (e : Element) : list string :=
  match e with El _ c _ _ _ => c end.

Definition uidAttr (e : Element) : option string :=
  match e with El _ _ u _ _ => u end.

Definition inlineStyle (e : Element) : option InlineStyle :=
  match e with El _ _ _ s _ => s end.

Definition children (e : Element) : list Element :=
  match e with El _ _ _ _ k => k end.

(** An element and its descendants, in document order. *)
Fixpoint subtree (e : Element) : list Element :=
  match e with
  | El _ _ _ _ kids => e :: flat_map subtree kids
  end.

(** [root.querySelectorAll ('*')]: the descendants of [root], a static list. *)
Definition querySelectorAll_star (root : Element) : list nat :=
  map ident (flat_map subtree (children root)).

(** [root.querySelectorAll ('.' + cls)]. *)
Definition querySelectorAll_class (cls : string) (root : Element) : list nat :=
  map ident
    (filter (fun e => includes_str (classList e) cls)
       (flat_map subtree (children root))).

(** Largest identity in use below [e]. *)
Fixpoint maxId (e : Element) : nat :=
  match e with
  | El i _ _ _ kids => fold_right (fun k m => Nat.max (maxId k) m) i kids
  end.

(** The element a reference denotes in the document [e]. *)
Fixpoint findEl (i : nat) (e : Element) : option Element :=
  match e with
  | El j _ _ _ kids =>
      if Nat.eqb j i then Some e else find_first (findEl i) kids
  end.

(** [el.getAttribute ('uid')]; [None] is JavaScript's null. *)
Definition getAttribute_uid (doc : Element) (el : nat) : option string :=
  match findEl el doc with
  | Some e => uidAttr e
  | None => None
  end.

(** Modelled from the spec: [createElement] of utils.js, which is not part of
    the sources at hand.  The spec's Spacer is "a synthetic block element with
    a single computed height": [createElement ('div', {style})] is a new div,
    so an identity that no element of the document has, without children,
    classes or [uid], carrying the inline style it was given. *)
Definition createElement (doc : Element) (st : InlineStyle) : Element :=
  El (S (maxId doc)) [] None (Some st) [].

(** Where [parentNode.insertBefore] puts the new node relative to [el]:
    [insertBefore (pad, el)] or [insertBefore (pad, el.nextSibling)]. *)
Inductive Position : Type := BeforeEl | AfterEl.

Definition place (pos : Position) (pad k : Element) : list Element :=
  match pos with
  | BeforeEl => [pad; k]
  | AfterEl => [k; pad]
  end.

Section Splice.
Variable hit : Element -> bool.
Variable put : Element -> list Element.
Variable down : Element -> option Element.

(** Rewrite a child list at the first place, in document order, where the
    target is a child ([hit]) or lies below a child ([down]). *)
Fixpoint splice (ks : list Element) : option (list Element) :=
  match ks with
  | [] => None
  | k :: ks' =>
      if hit k then Some (put k ++ ks')
      else match down k with
           | Some k' => Some (k' :: ks')
           | None => option_map (cons k) (splice ks')
           end
  end.
End Splice.

(** [el.parentNode.insertBefore (pad, ...)] seen from the document root; [None]
    when [el] has no parent below [e] (the source would dereference null). *)
Fixpoint insertAt (pos : Position) (pad : Element) (el : nat) (e : Element)
  : option Element :=
  match e with
  | El j c u s kids =>
      option_map (El j c u s)
        (splice (fun k => Nat.eqb (ident k) el) (place pos pad)
           (insertAt pos pad el) kids)
  end.

(** [a] is immediately followed by [b] in a child list. *)
Fixpoint adjacent_in (a b : nat) (ks : list Element) : bool :=
  match ks with
  | x :: ((y :: _) as tl) =>
      (Nat.eqb (ident x) a && Nat.eqb (ident y) b) || adjacent_in a b tl
  | _ => false
  end.

(** Somewhere in the document [a] is the sibling immediately before [b]. *)
Fixpoint adjacent (a b : nat) (e : Element) : bool :=
  match e with
  | El _ _ _ _ kids => adjacent_in a b kids || existsb (adjacent a b) kids
  end.

(** The spacers of a document: elements built by [createElement]. *)
Definition isSpacer (e : Element) : bool :=
  match inlineStyle e with
  | Some _ => true
  | None => false
  end.

(** ** Identifier tagger: [Worker.prototype.addUIDRecursive] *)

Section Tagger.
Variable rec : Element -> string -> Element.
Variable uid : string.

(** [childrenArr.forEach ((childElement, index) => ...)]. *)
Fixpoint forEach_child (index : nat) (cs : list Element) : list Element :=
  match cs with
  | [] => []
  | c :: cs' => rec c (uid ++ index_str index) :: forEach_child (S index) cs'
  end.
End Tagger.

Fixpoint addUIDRecursive (element : Element) (uid : string) : Element :=
  match element with
  | El i c _ s kids =>
      El i c (Some uid) s (forEach_child addUIDRecursive uid 0 kids)
  end.

(** The call [this.addUIDRecursive (root)]: the default [uid = 0], which
    [setAttribute] stores as the string "0". *)
Definition tag (root : Element) : Element := addUIDRecursive root "0".

(** ** Options and break rules *)

(** [this.opt.pagebreak] after [[].concat]: a single string is a singleton. *)
Record PagebreakOpt : Type := mkOpt
  { opt_mode : list string;
    opt_before : list string;
    opt_after : list string;
    opt_avoid : list string }.

(** [Worker.template.opt.pagebreak]. *)
Definition default_opt : PagebreakOpt :=
  {| opt_mode := ["css"; "legacy"];
     opt_before := [];
     opt_after := [];
     opt_avoid := [] |}.

Record Mode : Type := mkMode
  { avoidAll : bool;
    css : bool;
    legacy : bool }.

Definition mode_of (modeSrc : list string) : Mode :=
  {| avoidAll := includes_str modeSrc "avoid-all";
     css := includes_str modeSrc "css";
     legacy := includes_str modeSrc "legacy" |}.

(** The [select] object: the explicitly requested elements per key. *)
Record Select : Type := mkSelect
  { sel_before : list nat;
    sel_after : list nat;
    sel_avoid : list nat }.

(** The [rules] object of [pagebreak_loop]. *)
Record Rules : Type := mkRules
  { before : bool;
    after : bool;
    avoid : bool }.

(** The break properties read from a computed style; a property the host does
    not know is the empty string. *)
Module Css.
Record ComputedStyle : Type := mkStyle
  { breakBefore : string;
    pageBreakBefore : string;
    breakAfter : string;
    pageBreakAfter : string;
    breakInside : string;
    pageBreakInside : string }.
End Css.

Record Rect : Type := mkRect
  { top : Z;
    bottom : Z }.

Definition breakOpt : list string := ["always"; "page"; "left"; "right"].
Definition avoidOpt : list string := ["avoid"; "avoid-page"].

(** Lines 117-121: rules from the legacy and avoid-all modes. *)
Definition rules_init (mode : Mode) (legacyEls : list nat) (el : nat) : Rules :=
  {| before := false;
     after := legacy mode && includes_el legacyEls el;
     avoid := avoidAll mode |}.

(** Lines 124-136: rules added in css mode. *)
Definition rules_css (mode : Mode) (style : Css.ComputedStyle) (rules : Rules) : Rules :=
  if css mode then
    {| before := before rules
                 || includes_str breakOpt (js_or (Css.breakBefore style) (Css.pageBreakBefore style));
       after := after rules
                || includes_str breakOpt (js_or (Css.breakAfter style) (Css.pageBreakAfter style));
       avoid := avoid rules
                || includes_str avoidOpt (js_or (Css.breakInside style) (Css.pageBreakInside style)) |}
  else rules.

(** Lines 139-141: rules added for explicit requests. *)
Definition rules_select (select : Select) (el : nat) (rules : Rules) : Rules :=
  {| before := before rules || includes_el (sel_before select) el;
     after := after rules || includes_el (sel_after select) el;
     avoid := avoid rules || includes_el (sel_avoid select) el |}.

Definition resolve_rules (mode : Mode) (legacyEls : list nat) (select : Select)
    (style : Css.ComputedStyle) (el : nat) : Rules :=
  rules_select select el (rules_css mode style (rules_init mode legacyEls el)).

(** ** Avoid resolution (lines 172-181) *)

Definition startPage (clientRect : Rect) (pxPageHeight : Z) : Z :=
  js_floor_div (top clientRect) pxPageHeight.

Definition endPage (clientRect : Rect) (pxPageHeight : Z) : Z :=
  js_floor_div (bottom clientRect - 1) pxPageHeight.

Definition nPages (clientRect : Rect) (pxPageHeight : Z) : Q :=
  (inject_Z (Z.abs (bottom clientRect - top clientRect)) / inject_Z pxPageHeight)%Q.

Definition avoid_pass (pxPageHeight : Z) (clientRect : Rect) (rules : Rules) : Rules :=
  if avoid rules && negb (before rules) then
    if negb (Z.eqb (endPage clientRect pxPageHeight) (startPage clientRect pxPageHeight))
       && Qle_bool (nPages clientRect pxPageHeight) 1
    then {| before := true; after := after rules; avoid := avoid rules |}
    else rules
  else rules.

(** Height of the padding div for a rectangle edge at [edge]. *)
Definition fillHeight (pxPageHeight edge : Z) : Z :=
  (pxPageHeight - js_rem edge pxPageHeight)%Z.

(** ** The walk *)

(** An entry [[uid, fn, executed]] of the [breakAfter] array.  The closure
    [fn] captures [el]; [owner] is that reference. *)
Record Pending : Type := mkPending
  { pending_uid : option string;
    owner : nat;
    executed : bool }.

(** What the walk did, in the order it did it.  Nothing reads the log; it is
    kept to state properties of the order of events. *)
Inductive Event : Type :=
| Visited (el : nat) (rules : Rules)
| PadAfter (el : nat) (pad : nat) (h : Z)
| PadBefore (el : nat) (pad : nat) (h : Z).

Record Walk : Type := mkWalk
  { dom : Element;
    breakAfter : list Pending;
    log : list Event }.

(** A uid as [startsWith] sees its argument: null is rendered "null". *)
Definition uid_str (u : option string) : string :=
  match u with
  | Some s => s
  | None => "null"
  end.

(** Array positions paired with their entries. *)
Fixpoint indexed_from {A : Type} (i : nat) (l : list A) : list (nat * A) :=
  match l with
  | [] => []
  | a :: l' => (i, a) :: indexed_from (S i) l'
  end.

(** [arr[2] = true] on the entry at position [i]. *)
Fixpoint mark_executed (i : nat) (l : list Pending) : list Pending :=
  match l, i with
  | [], _ => []
  | p :: l', O => {| pending_uid := pending_uid p; owner := owner p; executed := true |} :: l'
  | p :: l', S i' => p :: mark_executed i' l'
  end.

(** [pendingBreakAfters (currentEl)]: the entries to run, as positions in
    [breakAfter] with the entry found there.  [cur] is
    [currentEl.getAttribute ('uid')]; calling [startsWith] on null throws, which
    the second filter does as soon as it has an entry to test. *)
Definition pendingBreakAfters (breakAfter : list Pending) (cur : option string)
  : option (list (nat * Pending)) :=
  match filter (fun ip => negb (executed (snd ip))) (indexed_from 0 breakAfter) with
  | [] => Some []
  | unexecuted =>
      match cur with
      | None => None
      | Some s =>
          Some (rev (filter
                       (fun ip => negb (String.prefix (uid_str (pending_uid (snd ip))) s))
                       unexecuted))
      end
  end.

(** What [pagebreak_loop] closes over. *)
Record Env : Type := mkEnv
  { pxPageHeight : Z;
    mode : Mode;
    select : Select;
    legacyEls : list nat }.

Section Host.
(** [window.getComputedStyle (el)] in the current document. *)
Variable getComputedStyle : Element -> nat -> Css.ComputedStyle.
(** [el.getBoundingClientRect ()] in the current document. *)
Variable getBoundingClientRect : Element -> nat -> Rect.
(** [root.querySelectorAll (selectors)]; [None] for a selector the host
    rejects. *)
Variable querySelectorAll : Element -> string -> option (list nat).

(** Lines 82-89 for one key. *)
Definition select_key (root : Element) (all : bool) (requested : list string)
  : option (list nat) :=
  let sel := if all then [] else requested in
  match sel with
  | [] => Some []
  | _ => querySelectorAll root (String.concat ", " sel)
  end.

Definition select_of (root : Element) (mode : Mode) (opt : PagebreakOpt)
  : option Select :=
  b <- select_key root false (opt_before opt) ;;
  a <- select_key root false (opt_after opt) ;;
  v <- select_key root (avoidAll mode) (opt_avoid opt) ;;
  Some {| sel_before := b; sel_after := a; sel_avoid := v |}.

(** The closure queued at lines 154-161, run on the document as it is when
    the closure is called. *)
Definition run_after (env : Env) (el : nat) (w : Walk) : option Walk :=
  let h := fillHeight (pxPageHeight env)
             (bottom (getBoundingClientRect (dom w) el)) in
  let pad := createElement (dom w) {| height := h; display := "block" |} in
  d <- insertAt AfterEl pad el (dom w) ;;
  Some {| dom := d;
          breakAfter := breakAfter w;
          log := log w ++ [PadAfter el (ident pad) h] |}.

(** Lines 144-147: [arr[1]()] then [arr[2] = true], entry by entry. *)
Fixpoint run_pending (env : Env) (batch : list (nat * Pending)) (w : Walk)
  : option Walk :=
  match batch with
  | [] => Some w
  | (i, p) :: batch' =>
      w1 <- run_after env (owner p) w ;;
      run_pending env batch'
        {| dom := dom w1;
           breakAfter := mark_executed i (breakAfter w1);
           log := log w1 |}
  end.

(** The rules of [el] as lines 117-141 compute them on document [doc]. *)
Definition rules_of (env : Env) (doc : Element) (el : nat) : Rules :=
  resolve_rules (mode env) (legacyEls env) (select env)
    (getComputedStyle doc el) el.

(** Lines 184-190. *)
Definition pad_before (env : Env) (el : nat) (clientRect : Rect) (w : Walk)
  : option Walk :=
  let h := fillHeight (pxPageHeight env) (top clientRect) in
  let pad := createElement (dom w) {| height := h; display := "block" |} in
  d <- insertAt BeforeEl pad el (dom w) ;;
  Some {| dom := d;
          breakAfter := breakAfter w;
          log := log w ++ [PadBefore el (ident pad) h] |}.

(** One call of [pagebreak_loop (el)]. *)
Definition pagebreak_loop (env : Env) (w : Walk) (el : nat) : option Walk :=
  let uid := getAttribute_uid (dom w) el in
  let rules := rules_of env (dom w) el in
  batch <- pendingBreakAfters (breakAfter w) uid ;;
  w1 <- run_pending env batch w ;;
  let queue :=
    if after rules
    then breakAfter w1 ++ [{| pending_uid := uid; owner := el; executed := false |}]
    else breakAfter w1 in
  let clientRect := getBoundingClientRect (dom w1) el in
  let rules := avoid_pass (pxPageHeight env) clientRect rules in
  let w2 := {| dom := dom w1;
               breakAfter := queue;
               log := log w1 ++ [Visited el rules] |} in
  if before rules then pad_before env el clientRect w2 else Some w2.

(** [Array.prototype.forEach.call (els, pagebreak_loop)]. *)
Fixpoint forEach_el (env : Env) (els : list nat) (w : Walk) : option Walk :=
  match els with
  | [] => Some w
  | el :: els' =>
      w1 <- pagebreak_loop env w el ;;
      forEach_el env els' w1
  end.

(** Lines 67-93: what the continuation computes before it tags the tree. *)
Definition setup (opt : PagebreakOpt) (root : Element) (pxPageHeight : Z)
  : option Env :=
  let mode := mode_of (opt_mode opt) in
  select <- select_of root mode opt ;;
  Some {| pxPageHeight := pxPageHeight;
          mode := mode;
          select := select;
          legacyEls := querySelectorAll_class "html2pdf__page-break" root |}.

(** The continuation [toContainer_pagebreak]: [root] is [this.prop.container]
    and [pxPageHeight] is [this.prop.pageSize.inner.px.height]. *)
Definition toContainer_pagebreak (opt : PagebreakOpt) (root : Element)
    (pxPageHeight : Z) : option Walk :=
  env <- setup opt root pxPageHeight ;;
  let root := tag root in
  let els := querySelectorAll_star root in
  forEach_el env els {| dom := root; breakAfter := []; log := [] |}.
End Host.

(** ** Vocabulary of the statements *)

(** The elements handed to [pagebreak_loop], in order. *)
Fixpoint visited (l : list Event) : list nat :=
  match l with
  | [] => []
  | Visited el _ :: l' => el :: visited l'
  | _ :: l' => visited l'
  end.

(** The spacers created, in order of creation. *)
Fixpoint pads (l : list Event) : list nat :=
  match l with
  | [] => []
  | Visited _ _ :: l' => pads l'
  | PadAfter _ pad _ :: l' => pad :: pads l'
  | PadBefore _ pad _ :: l' => pad :: pads l'
  end.

(** The elements a spacer was inserted next to, in order of insertion. *)
Fixpoint targets (l : list Event) : list nat :=
  match l with
  | [] => []
  | Visited _ _ :: l' => targets l'
  | PadAfter el _ _ :: l' => el :: targets l'
  | PadBefore el _ _ :: l' => el :: targets l'
  end.

(** The heights of the spacers, in order of insertion. *)
Fixpoint heights (l : list Event) : list Z :=
  match l with
  | [] => []
  | Visited _ _ :: l' => heights l'
  | PadAfter _ _ h :: l' => h :: heights l'
  | PadBefore _ _ h :: l' => h :: heights l'
  end.

(** The owners whose queued closure ran, in order of execution. *)
Fixpoint fired (l : list Event) : list nat :=
  match l with
  | [] => []
  | PadAfter el _ _ :: l' => el :: fired l'
  | _ :: l' => fired l'
  end.

(** The elements that got a spacer before them, in order of insertion. *)
Fixpoint pushed (l : list Event) : list nat :=
  match l with
  | [] => []
  | PadBefore el _ _ :: l' => el :: pushed l'
  | _ :: l' => pushed l'
  end.

(** An entry [pendingBreakAfters] selects when the current uid is [cur]. *)
Definition due (cur : string) (p : Pending) : bool :=
  negb (executed p) && negb (String.prefix (uid_str (pending_uid p)) cur).

(** An entry once its closure has run. *)
Definition mark (p : Pending) : Pending :=
  {| pending_uid := pending_uid p; owner := owner p; executed := true |}.

(** What a visit whose current uid is [cur] makes of a queue entry. *)
Definition settle (cur : string) (p : Pending) : Pending :=
  if due cur p then mark p else p.

(** No element of the document has more than ten element children, so
    every child index is a single decimal digit. *)
Definition narrow (e : Element) : Prop :=
  Forall (fun x => List.length (children x) <= 10) (subtree e).

(** The first character of a rendered index. *)
Definition digit (index : nat) : ascii :=
  match index_str index with
  | String c _ => c
  | EmptyString => "0"%char
  end.

(** What the data model asks of the uids of a list [l] of elements: no two
    are equal, a uid is a prefix of another only if the other element lies in
    the subtree of the first, and the uid of an element is a prefix of the
    uid of everything in its subtree, a strict one except for itself. *)
Definition well_pathed (l : list Element) : Prop :=
  NoDup (map uidAttr l) /\
  (forall x y ux uy,
      In x l -> In y l -> uidAttr x = Some ux -> uidAttr y = Some uy ->
      String.prefix ux uy = true -> In y (subtree x)) /\
  (forall x y,
      In x l -> In y (subtree x) ->
      exists ux v, uidAttr x = Some ux /\ uidAttr y = Some (ux ++ v)%string /\
                   (v = "" -> y = x)).

(** Flags of [r] are flags of [r']. *)
Definition rules_le (r r' : Rules) : Prop :=
  (before r = true -> before r' = true) /\
  (after r = true -> after r' = true) /\
  (avoid r = true -> avoid r' = true).

(** The shape a spacer has: a childless div with the inline style
    [{height: h + 'px', display: 'block'}] and no other attribute. *)
Definition spacer (i : nat) (h : Z) : Element :=
  El i [] None (Some {| height := h; display := "block" |}) [].

(** The document without the elements whose identity exceeds [bound]. *)
Fixpoint drop_above (bound : nat) (e : Element) : Element :=
  match e with
  | El i c u s kids =>
      El i c u s
        (flat_map
           (fun k => if Nat.leb (ident k) bound then [drop_above bound k] else [])
           kids)
  end.

(** The document with every [uid] attribute removed. *)
Fixpoint untag (e : Element) : Element :=
  match e with
  | El i c _ s kids => El i c None s (map untag kids)
  end.

(** Number of spacers in a document. *)
Definition count_spacers (doc : Element) : nat :=
  List.length (filter isSpacer (subtree doc)).

(** What an element is by itself: its identity, attributes and whether it is
    childless. *)
Definition Shallow : Type :=
  (nat * list string * option string * option InlineStyle * bool)%type.

Definition isLeaf (e : Element) : bool :=
  match children e with
  | [] => true
  | _ :: _ => false
  end.

Definition shallow (e : Element) : Shallow :=
  (ident e, classList e, uidAttr e, inlineStyle e, isLeaf e).

Definition shallow_id (s : Shallow) : nat :=
  match s with (i, _, _, _, _) => i end.

Definition shallow_uid (s : Shallow) : option string :=
  match s with (_, _, u, _, _) => u end.

(** The elements of a forest in document order, each by itself. *)
Definition outline (ks : list Element) : list Shallow :=
  map shallow (flat_map subtree ks).

(** Whether an outline entry is a spacer. *)
Definition shallow_isSpacer (s : Shallow) : bool :=
  match s with
  | (_, _, _, Some _, _) => true
  | (_, _, _, None, _) => false
  end.

(** The ordered pair of siblings an insertion creates: the new node and the
    element it was placed next to. *)
Definition side (pos : Position) (pad el : nat) : nat * nat :=
  match pos with
  | BeforeEl => (pad, el)
  | AfterEl => (el, pad)
  end.

(** The first entry of an outline with identity [i]. *)
Definition find_shallow (i : nat) (l : list Shallow) : option Shallow :=
  find (fun s => Nat.eqb (shallow_id s) i) l.

(** The identities of an outline. *)
Definition ids (l : list Shallow) : list nat := map shallow_id l.

(** What holds of a walk over the tagged document [D0] at every moment: the
    elements of the snapshot stay attached and tagged, the queue and the log
    only name elements of the snapshot, what was created lies above every
    identity of [D0] and is a spacer, and every height was computed from a
    rectangle edge the host reported. *)
Record walk_inv (getBoundingClientRect : Element -> nat -> Rect) (H : Z)
    (D0 : Element) (w : Walk) : Prop := mk_walk_inv
  { inv_attached :
      forall el, In el (querySelectorAll_star D0) ->
                 In el (querySelectorAll_star (dom w)) /\
                 getAttribute_uid (dom w) el <> None;
    inv_owners :
      forall p, In p (breakAfter w) -> In (owner p) (querySelectorAll_star D0);
    inv_bound : maxId D0 <= maxId (dom w);
    inv_frame : drop_above (maxId D0) (dom w) = D0;
    inv_root : shallow (dom w) = shallow D0;
    inv_pads :
      Forall (fun p => maxId D0 < p <= maxId (dom w)) (pads (log w));
    inv_targets : incl (targets (log w)) (querySelectorAll_star D0);
    inv_visited : incl (visited (log w)) (querySelectorAll_star D0);
    inv_spacers :
      forall s, In s (outline (children (dom w))) ->
                maxId D0 < shallow_id s ->
                exists h, s = shallow (spacer (shallow_id s) h) /\
                          In h (heights (log w));
    inv_pads_in : incl (pads (log w)) (querySelectorAll_star (dom w));
    inv_heights :
      Forall (fun h => exists d el,
                  h = fillHeight H (top (getBoundingClientRect d el)) \/
                  h = fillHeight H (bottom (getBoundingClientRect d el)))
        (heights (log w)) }.

(** ** A host for worked examples

    Boxes stacked top to bottom: an element is as tall as its own content
    plus its children, a spacer as tall as its inline style says, and the
    first box starts at [origin] (the rectangles are relative to the
    viewport, so a scrolled container has a negative origin). *)

Section BlockLayout.
Variable own : nat -> Z.

Definition contentHeight (i : nat) (s : option InlineStyle) : Z :=
  match s with
  | Some st => height st
  | None => own i
  end.

Fixpoint boxHeight (e : Element) : Z :=
  match e with
  | El i _ _ s kids =>
      (contentHeight i s + fold_right (fun k acc => boxHeight k + acc) 0 kids)%Z
  end.

Section RectKids.
Variable rec : Z -> Element -> option Rect.

Fixpoint rect_kids (y : Z) (ks : list Element) : option Rect :=
  match ks with
  | [] => None
  | k :: ks' =>
      match rec y k with
      | Some r => Some r
      | None => rect_kids (y + boxHeight k)%Z ks'
      end
  end.
End RectKids.

Fixpoint rect_at (el : nat) (y : Z) (e : Element) : option Rect :=
  match e with
  | El i _ _ s kids =>
      if Nat.eqb i el
      then Some {| top := y; bottom := (y + boxHeight e)%Z |}
      else rect_kids (rect_at el) (y + contentHeight i s)%Z kids
  end.

Definition block_rect (origin : Z) (doc : Element) (el : nat) : Rect :=
  match rect_at el origin doc with
  | Some r => r
  | None => {| top := 0; bottom := 0 |}
  end.
End BlockLayout.

(** A computed style with no break property set. *)
Definition plain_style : Css.ComputedStyle :=
  {| Css.breakBefore := ""; Css.pageBreakBefore := "";
     Css.breakAfter := ""; Css.pageBreakAfter := "";
     Css.breakInside := ""; Css.pageBreakInside := "" |}.

(** A host that gives the elements listed in [afters] the older-syntax
    property [page-break-after: always]. *)
Definition style_after (afters : list nat) (doc : Element) (el : nat)
  : Css.ComputedStyle :=
  if includes_el afters el
  then {| Css.breakBefore := ""; Css.pageBreakBefore := "";
          Css.breakAfter := ""; Css.pageBreakAfter := "always";
          Css.breakInside := ""; Css.pageBreakInside := "" |}
  else plain_style.

Definition style_none (doc : Element) (el : nat) : Css.ComputedStyle :=
  plain_style.

(** A host in which no selector matches. *)
Definition query_none (root : Element) (selectors : string) : option (list nat) :=
  Some [].

(** A host in which the selector list "#target" matches [found] and nothing
    else matches anything. *)
Definition query_target (found : list nat) (root : Element) (selectors : string)
  : option (list nat) :=
  if String.eqb selectors "#target" then Some found else Some [].

Definition leaf (i : nat) : Element := El i [] None None [].
Definition node (i : nat) (kids : list Element) : Element := El i [] None None kids.

(** Scenario 1: a container holding one element, 300px tall. *)
Definition doc_single : Element := node 0 [leaf 1].
Definition own_single (i : nat) : Z := if Nat.eqb i 1 then 300%Z else 0%Z.

(** An element with a following sibling. *)
Definition doc_pair : Element := node 0 [leaf 1; leaf 2].

(** A marked element that closes the document together with its child. *)
Definition doc_tail : Element :=
  node 0 [leaf 1; El 2 ["html2pdf__page-break"] None None [leaf 3]].
Definition own_100 (i : nat) : Z := 100%Z.

(** A (outer) holding B (inner), followed by C. *)
Definition doc_nested : Element := node 0 [node 1 [leaf 2]; leaf 3].

(** Scenario 4: a 900px block followed by a 400px block. *)
Definition doc_straddle : Element := node 0 [leaf 1; leaf 2].
Definition own_straddle (i : nat) : Z :=
  match i with
  | 1 => 900%Z
  | 2 => 400%Z
  | _ => 0%Z
  end.

(** Scenario 3: a 900px block followed by a 1500px block. *)
Definition own_tall (i : nat) : Z :=
  match i with
  | 1 => 900%Z
  | 2 => 1500%Z
  | _ => 0%Z
  end.

(** Eleven children under the root; the second child has a child. *)
Definition doc_wide : Element :=
  node 0 [leaf 1; node 2 [leaf 12]; leaf 3; leaf 4; leaf 5; leaf 6; leaf 7;
          leaf 8; leaf 9; leaf 10; leaf 11].

Definition opt_css : PagebreakOpt :=
  {| opt_mode := ["css"]; opt_before := []; opt_after := []; opt_avoid := [] |}.
Definition opt_legacy : PagebreakOpt :=
  {| opt_mode := ["legacy"]; opt_before := []; opt_after := []; opt_avoid := [] |}.
Definition opt_avoid_all : PagebreakOpt :=
  {| opt_mode := ["avoid-all"]; opt_before := []; opt_after := []; opt_avoid := [] |}.
Definition opt_before_target : PagebreakOpt :=
  {| opt_mode := []; opt_before := ["#target"]; opt_after := []; opt_avoid := [] |}.
Definition opt_after_target : PagebreakOpt :=
  {| opt_mode := []; opt_before := []; opt_after := ["#target"]; opt_avoid := [] |}.

(** The walk before its first visit. *)
Definition walk_start (root : Element) : Walk :=
  {| dom := tag root; breakAfter := []; log := [] |}.

(** The environment of a pass that asks for a break before element 1. *)
Definition env_before_1 : Env :=
  {| pxPageHeight := 1000;
     mode := mode_of [];
     select := {| sel_before := [1]; sel_after := []; sel_avoid := [] |};
     legacyEls := [] |}.

(** The environment of a pass that asks for a break after elements 1 and 2. *)
Definition env_after_1_2 : Env :=
  {| pxPageHeight := 1000;
     mode := mode_of [];
     select := {| sel_before := []; sel_after := [1; 2]; sel_avoid := [] |};
     legacyEls := [] |}.

(** The walk over [doc_nested] under [env_after_1_2] once A and B have been
    visited: both closures are queued, none has run. *)
Definition walk_nested_mid : Walk :=
  {| dom := tag doc_nested;
     breakAfter :=
       [{| pending_uid := Some "00"; owner := 1; executed := false |};
        {| pending_uid := Some "000"; owner := 2; executed := false |}];
     log :=
       [Visited 1 {| before := false; after := true; avoid := false |};
        Visited 2 {| before := false; after := true; avoid := false |}] |}.

(** The selector lists the pass hands to the host: the non-empty ones, the
    avoid list only when the avoid-all mode is off. *)
Definition consulted (opt : PagebreakOpt) : list (list string) :=
  filter (fun sel => negb (Nat.eqb (List.length sel) 0))
    [opt_before opt; opt_after opt;
     if avoidAll (mode_of (opt_mode opt)) then [] else opt_avoid opt].

(** Styles that agree on the three primary break properties. *)
Definition same_primary (s1 s2 : Css.ComputedStyle) : Prop :=
  Css.breakBefore s1 = Css.breakBefore s2 /\
  Css.breakAfter s1 = Css.breakAfter s2 /\
  Css.breakInside s1 = Css.breakInside s2.

(** A computed style whose primary properties are all "auto" and whose
    older-syntax aliases all ask for a break. *)
Definition style_auto_alias (doc : Element) (el : nat) : Css.ComputedStyle :=
  {| Css.breakBefore := "auto"; Css.pageBreakBefore := "always";
     Css.breakAfter := "auto"; Css.pageBreakAfter := "always";
     Css.breakInside := "auto"; Css.pageBreakInside := "avoid" |}.

Definition style_auto (doc : Element) (el : nat) : Css.ComputedStyle :=
  {| Css.breakBefore := "auto"; Css.pageBreakBefore := "";
     Css.breakAfter := "auto"; Css.pageBreakAfter := "";
     Css.breakInside := "auto"; Css.pageBreakInside := "" |}.

(** Options that name a mode twice and a mode the code does not know. *)
Definition opt_css_noise : PagebreakOpt :=
  {| opt_mode := ["css"; "landscape"; "css"];
     opt_before := []; opt_after := []; opt_avoid := [] |}.

(** The document [d'] is [d] after some spacers were inserted, one at a
    time, each a new element. *)
Inductive grows : Element -> Element -> Prop :=
| grows_refl (d : Element) : grows d d
| grows_step (d d1 d2 : Element) (pos : Position) (h : Z) (el : nat) :
    insertAt pos (spacer (S (maxId d)) h) el d = Some d1 ->
    grows d1 d2 ->
    grows d d2.

(** Each queued closure that ran, with the elements that had been visited
    when it ran, in the order they were visited. *)
Fixpoint firings (seen : list nat) (l : list Event) : list (nat * list nat) :=
  match l with
  | [] => []
  | Visited el _ :: l' => firings (seen ++ [el]) l'
  | PadAfter o _ _ :: l' => (o, seen) :: firings seen l'
  | PadBefore _ _ _ :: l' => firings seen l'
  end.

(** The descendants of the element that [o] denotes in [doc]. *)
Definition descendants (doc : Element) (o : nat) : list nat :=
  match findEl o doc with
  | Some x => querySelectorAll_star x
  | None => []
  end.

(** What holds of the queue and the log at every moment of a walk over
    [D0]: the document only grew; every entry was queued at the visit of its
    owner, with the uid the owner has in [D0], at most one per owner; an entry
    is marked executed exactly when its closure ran; no closure ran twice and
    no element was pushed twice; and when a closure ran, its owner and all the
    owner's descendants had been visited, and the visit under way was that of
    a later element. *)
Record sched_inv (D0 : Element) (w : Walk) : Prop := mk_sched_inv
  { sch_grows : grows D0 (dom w);
    sch_seen :
      forall p, In p (breakAfter w) -> In (owner p) (visited (log w));
    sch_uid :
      forall p, In p (breakAfter w) ->
                pending_uid p = getAttribute_uid D0 (owner p);
    sch_owners : NoDup (map owner (breakAfter w));
    sch_executed :
      forall p, In p (breakAfter w) ->
                (executed p = true <-> In (owner p) (fired (log w)));
    sch_fired_in : incl (fired (log w)) (map owner (breakAfter w));
    sch_fired : NoDup (fired (log w));
    sch_pushed_in : incl (pushed (log w)) (visited (log w));
    sch_pushed : NoDup (pushed (log w));
    sch_firings :
      forall o seen,
        In (o, seen) (firings [] (log w)) ->
        In o seen /\
        incl (descendants D0 o) seen /\
        exists el rest, visited (log w) = seen ++ el :: rest }.

(** No break requested. *)
Definition no_rules : Rules :=
  {| before := false; after := false; avoid := false |}.

(** Only a break before requested, or nothing. *)
Definition before_only (b : bool) : Rules :=
  {| before := b; after := false; avoid := false |}.

(** Options with no mode and a request for breaks before "#target". *)
Definition opt_none : PagebreakOpt :=
  {| opt_mode := []; opt_before := []; opt_after := []; opt_avoid := [] |}.

(** What holds besides [sched_inv] when uids tell descendants apart: an
    entry that has not run was queued so recently that only descendants of its
    owner were visited since, and a closure that ran did so when exactly the
    owner and its descendants had been visited after what precedes the owner. *)
Record exit_inv (D0 : Element) (w : Walk) : Prop := mk_exit_inv
  { exit_waiting :
      forall p, In p (breakAfter w) -> executed p = false ->
                exists a d, visited (log w) = a ++ owner p :: d /\
                            incl d (descendants D0 (owner p));
    exit_firings :
      forall o seen,
        In (o, seen) (firings [] (log w)) ->
        exists a, seen = a ++ o :: descendants D0 o }.

(** ** The log read as a program

    Replaying the insertions a log records rebuilds the document, so the
    document in which a rectangle was read is the replay of the log up to the
    event of that spacer. *)

(** The rectangle edge the height of a spacer is computed from: [top] for a
    spacer before the element (line 187), [bottom] for one after it
    (line 156). *)
Definition edge_of (pos : Position) (r : Rect) : Z :=
  match pos with
  | BeforeEl => top r
  | AfterEl => bottom r
  end.

(** The log entry of an insertion. *)
Definition pad_event (pos : Position) (el pad : nat) (h : Z) : Event :=
  match pos with
  | BeforeEl => PadBefore el pad h
  | AfterEl => PadAfter el pad h
  end.

(** What an event did to the document. *)
Definition replay_event (d : Element) (e : Event) : option Element :=
  match e with
  | Visited _ _ => Some d
  | PadAfter el pad h => insertAt AfterEl (spacer pad h) el d
  | PadBefore el pad h => insertAt BeforeEl (spacer pad h) el d
  end.

(** The events of a log, one after the other, on the document [d]. *)
Fixpoint replay (d : Element) (l : list Event) : option Element :=
  match l with
  | [] => Some d
  | e :: l' => d1 <- replay_event d e ;; replay d1 l'
  end.

(** What holds of the log at every moment of a walk over [D0]: replayed on
    [D0] it gives the current document; every spacer it records was created
    in the document replayed up to its event, with the height computed from
    the edge the host reported there for the element it was placed next to;
    and every spacer of the document is recorded. *)
Record edge_inv (getBoundingClientRect : Element -> nat -> Rect) (H : Z)
    (D0 : Element) (w : Walk) : Prop := mk_edge_inv
  { edge_replay : replay D0 (log w) = Some (dom w);
    edge_read :
      forall pre pos el pad h post,
        log w = pre ++ pad_event pos el pad h :: post ->
        exists d,
          replay D0 pre = Some d /\
          pad = S (maxId d) /\
          h = fillHeight H (edge_of pos (getBoundingClientRect d el));
    edge_spacers :
      forall s, In s (outline (children (dom w))) ->
                maxId D0 < shallow_id s ->
                exists pos el h,
                  s = shallow (spacer (shallow_id s) h) /\
                  In (pad_event pos el (shallow_id s) h) (log w) }.

(** ** Fractional rectangles

    Lines 172-190 on rectangles whose edges are fractions of a pixel. *)

Record RectQ : Type := mkRectQ
  { topQ : Q;
    bottomQ : Q }.

(** The integer part of a fraction, rounded towards zero. *)
Definition js_truncQ (x : Q) : Z := Z.quot (Qnum x) (Zpos (Qden x)).

(** [a % b] on fractions: what is left of [a] once the whole multiples of
    [b] are taken away, with the sign of [a]. *)
Definition js_remQ (a b : Q) : Q := (a - b * inject_Z (js_truncQ (a / b)))%Q.

(** Line 174. *)
Definition startPageQ (clientRect : RectQ) (pxPageHeight : Q) : Z :=
  Qfloor (topQ clientRect / pxPageHeight).

(** Line 175. *)
Definition endPageQ (clientRect : RectQ) (pxPageHeight : Q) : Z :=
  Qfloor ((bottomQ clientRect - 1) / pxPageHeight).

(** Line 176. *)
Definition nPagesQ (clientRect : RectQ) (pxPageHeight : Q) : Q :=
  (Qabs (bottomQ clientRect - topQ clientRect) / pxPageHeight)%Q.

(** Lines 172-181. *)
Definition avoid_passQ (pxPageHeight : Q) (clientRect : RectQ) (rules : Rules)
  : Rules :=
  if avoid rules && negb (before rules) then
    if negb (Z.eqb (endPageQ clientRect pxPageHeight)
               (startPageQ clientRect pxPageHeight))
       && Qle_bool (nPagesQ clientRect pxPageHeight) 1
    then {| before := true; after := after rules; avoid := avoid rules |}
    else rules
  else rules.

(** The height of lines 156 and 187. *)
Definition fillHeightQ (pxPageHeight edge : Q) : Q :=
  (pxPageHeight - js_remQ edge pxPageHeight)%Q.

(** A rectangle moved down by [h] pixels. *)
Definition shift_rectQ (h : Q) (r : RectQ) : RectQ :=
  {| topQ := (topQ r + h)%Q; bottomQ := (bottomQ r + h)%Q |}.

(** A rectangle on whole pixels, as a fractional one. *)
Definition whole (r : Rect) : RectQ :=
  {| topQ := inject_Z (top r); bottomQ := inject_Z (bottom r) |}.

(** Scenario 4 off the pixel grid: a box from 900.5 to 1300.25. *)
Definition rect_fraction : RectQ := {| topQ := 1801 # 2; bottomQ := 5201 # 4 |}.

(** Half a pixel high, just below the first page boundary: 1000.2 to
    1000.7. *)
Definition rect_subpixel : RectQ := {| topQ := 5001 # 5; bottomQ := 10007 # 10 |}.

(** Only [avoid] requested. *)
Definition rules_avoid : Rules :=
  {| before := false; after := false; avoid := true |}.

(** * Properties *)

(** ** Induction over documents *)

Section ElementInduction.
Variable P : Element -> Prop.
Hypothesis step :
  forall i c u s kids, Forall P kids -> P (El i c u s kids).

Fixpoint Element_forall_ind (e : Element) : P e :=
  match e with
  | El i c u s kids =>
      step i c u s kids
        ((fix all (ks : list Element) : Forall P ks :=
            match ks with
            | [] => Forall_nil P
            | k :: ks' => Forall_cons k (Element_forall_ind k) (all ks')
            end) kids)
  end.
End ElementInduction.

(** ** Arithmetic of the primitives *)

Lemma includes_str_In (arr : list string) (x : string) :
  includes_str arr x = true <-> In x arr.
Proof.
  unfold includes_str. rewrite existsb_exists. split.
  - intros [y [Hy Heq]]. apply String.eqb_eq in Heq. now subst.
  - intros Hin. exists x. split; [assumption | apply String.eqb_refl].
Qed.

Lemma includes_el_In (arr : list nat) (el : nat) :
  includes_el arr el = true <-> In el arr.
Proof.
  unfold includes_el. rewrite existsb_exists. split.
  - intros [y [Hy Heq]]. apply Nat.eqb_eq in Heq. now subst.
  - intros Hin. exists el. split; [assumption | apply Nat.eqb_refl].
Qed.

Lemma includes_str_incl (arr arr' : list string) (x : string) :
  incl arr arr' -> includes_str arr x = true -> includes_str arr' x = true.
Proof.
  intros Hincl. rewrite !includes_str_In. apply Hincl.
Qed.

Lemma nPages_le_1 (H : Z) (r : Rect) :
  (0 < H)%Z ->
  ((nPages r H <= 1)%Q <-> (Z.abs (bottom r - top r) <= H)%Z).
Proof.
  intros Hpos. unfold nPages.
  destruct H as [| p | p]; try lia.
  unfold Qle, Qdiv, Qmult, Qinv, inject_Z. simpl.
  rewrite !Z.mul_1_r. reflexivity.
Qed.

(** ** Avoid resolution *)

(** C4.  For rules with [avoid] set and [before] clear, [before] is switched on
    exactly when floor (top / pageHeight) differs from
    floor ((bottom - 1) / pageHeight) and |bottom - top| / pageHeight <= 1; the
    other two flags keep their value, and an element taller than one page is
    never switched. *)
Theorem avoid_pass_upgrade (H : Z) (r : Rect) (rules : Rules) :
  avoid rules = true ->
  before rules = false ->
  (before (avoid_pass H r rules) = true <->
     (top r / H)%Z <> ((bottom r - 1) / H)%Z /\
     (inject_Z (Z.abs (bottom r - top r)) / inject_Z H <= 1)%Q) /\
  after (avoid_pass H r rules) = after rules /\
  avoid (avoid_pass H r rules) = avoid rules /\
  ((0 < H)%Z -> (H < bottom r - top r)%Z ->
   before (avoid_pass H r rules) = false).
Proof.
  intros Hav Hbe.
  assert (Hiff : before (avoid_pass H r rules) = true <->
                 (top r / H)%Z <> ((bottom r - 1) / H)%Z /\
                 (nPages r H <= 1)%Q).
  { unfold avoid_pass. rewrite Hav, Hbe. simpl.
    unfold endPage, startPage, js_floor_div.
    destruct (Z.eqb_spec ((bottom r - 1) / H) (top r / H)) as [Heq | Hne]; simpl.
    - rewrite Hbe. split; [discriminate | intros [Hd _]; congruence].
    - destruct (Qle_bool (nPages r H) 1) eqn:Hq; simpl.
      + apply Qle_bool_iff in Hq. split; [intros _ | reflexivity].
        split; [congruence | assumption].
      + rewrite Hbe. split; [discriminate | intros [_ Hle]].
        apply Qle_bool_iff in Hle. congruence. }
  refine (conj Hiff (conj _ (conj _ _))).
  - unfold avoid_pass. destruct (_ && _); [destruct (_ && _) |]; reflexivity.
  - unfold avoid_pass. destruct (_ && _); [destruct (_ && _) |]; reflexivity.
  - intros Hpos Htall.
    destruct (before (avoid_pass H r rules)) eqn:Hb; [| reflexivity].
    destruct (proj1 Hiff eq_refl) as [_ Hle].
    apply nPages_le_1 in Hle; [lia | assumption].
Qed.

(** Scenarios 4 and 3: a 400px element straddling pages 0 and 1 is pushed, a
    1500px one is not. *)
Lemma avoid_pass_upgrade_witness :
  before (avoid_pass 1000 {| top := 900; bottom := 1300 |}
            {| before := false; after := false; avoid := true |}) = true /\
  before (avoid_pass 1000 {| top := 900; bottom := 2400 |}
            {| before := false; after := false; avoid := true |}) = false.
Proof.
  split.
  - destruct (avoid_pass_upgrade 1000 {| top := 900; bottom := 1300 |}
                {| before := false; after := false; avoid := true |}
                eq_refl eq_refl) as [Hiff _].
    apply Hiff. split; vm_compute; discriminate.
  - destruct (avoid_pass_upgrade 1000 {| top := 900; bottom := 2400 |}
                {| before := false; after := false; avoid := true |}
                eq_refl eq_refl) as [_ [_ [_ Htall]]].
    apply Htall; reflexivity.
Defined.

(** ** Break-rule resolver *)

(** Each flag is the disjunction of what the sources contribute. *)
Lemma resolve_rules_or (m : Mode) (L : list nat) (sel : Select)
    (style : Css.ComputedStyle) (el : nat) :
  let r := resolve_rules m L sel style el in
  before r =
    (css m && includes_str breakOpt
                (js_or (Css.breakBefore style) (Css.pageBreakBefore style)))
    || includes_el (sel_before sel) el /\
  after r =
    (legacy m && includes_el L el)
    || (css m && includes_str breakOpt
                   (js_or (Css.breakAfter style) (Css.pageBreakAfter style)))
    || includes_el (sel_after sel) el /\
  avoid r =
    avoidAll m
    || (css m && includes_str avoidOpt
                   (js_or (Css.breakInside style) (Css.pageBreakInside style)))
    || includes_el (sel_avoid sel) el.
Proof.
  unfold resolve_rules, rules_select, rules_css, rules_init.
  destruct (css m); simpl; repeat split;
    try reflexivity;
    repeat match goal with
           | |- context [?a || false] => rewrite (orb_false_r a)
           end; reflexivity.
Qed.

(** A source that offers more never takes a flag away. *)
Lemma resolve_rules_mono (m m' : Mode) (L L' : list nat) (sel sel' : Select)
    (style : Css.ComputedStyle) (el : nat) :
  (avoidAll m = true -> avoidAll m' = true) ->
  (css m = true -> css m' = true) ->
  (legacy m = true -> legacy m' = true) ->
  incl L L' ->
  incl (sel_before sel) (sel_before sel') ->
  incl (sel_after sel) (sel_after sel') ->
  (avoidAll m' = true \/ incl (sel_avoid sel) (sel_avoid sel')) ->
  rules_le (resolve_rules m L sel style el) (resolve_rules m' L' sel' style el).
Proof.
  intros Hall Hcss Hleg HL Hb Ha Hv.
  pose proof (resolve_rules_or m L sel style el) as Hr.
  pose proof (resolve_rules_or m' L' sel' style el) as Hr'.
  cbv zeta in Hr, Hr'.
  destruct Hr as [Eb [Ea Ev]]. destruct Hr' as [Eb' [Ea' Ev']].
  unfold rules_le. rewrite Eb, Ea, Ev, Eb', Ea', Ev'.
  rewrite !orb_true_iff, !andb_true_iff, !includes_el_In.
  repeat split; intros Hset.
  - destruct Hset as [[Hc Hs] | Hs]; [left | right]; auto.
  - destruct Hset as [[[Hl Hi] | [Hc Hs]] | Hs]; auto.
  - destruct Hset as [[Hl | [Hc Hs]] | Hs]; auto.
    destruct Hv as [Hv | Hv]; auto.
Qed.

Lemma mode_of_incl (src src' : list string) :
  incl src src' ->
  (avoidAll (mode_of src) = true -> avoidAll (mode_of src') = true) /\
  (css (mode_of src) = true -> css (mode_of src') = true) /\
  (legacy (mode_of src) = true -> legacy (mode_of src') = true).
Proof.
  intros Hincl. unfold mode_of; simpl.
  repeat split; apply includes_str_incl; assumption.
Qed.

Section ResolverFacts.
Variable querySelectorAll : Element -> string -> option (list nat).

(** C5.  Enabling further modes keeps the pass set up and keeps every flag
    that was set: each flag is the disjunction of its sources (legacy
    marker, css mode, avoid-all mode, explicit selection), and every flag set
    under the smaller mode list is set under the larger one. *)
Theorem break_sources_monotone (opt opt' : PagebreakOpt) (root : Element)
    (H : Z) (env : Env) :
  incl (opt_mode opt) (opt_mode opt') ->
  opt_before opt' = opt_before opt ->
  opt_after opt' = opt_after opt ->
  opt_avoid opt' = opt_avoid opt ->
  setup querySelectorAll opt root H = Some env ->
  exists env',
    setup querySelectorAll opt' root H = Some env' /\
    forall (style : Css.ComputedStyle) (el : nat),
      let r := resolve_rules (mode env) (legacyEls env) (select env) style el in
      let r' := resolve_rules (mode env') (legacyEls env') (select env') style el in
      rules_le r r' /\
      before r =
        (css (mode env) && includes_str breakOpt
           (js_or (Css.breakBefore style) (Css.pageBreakBefore style)))
        || includes_el (sel_before (select env)) el /\
      after r =
        (legacy (mode env) && includes_el (legacyEls env) el)
        || (css (mode env) && includes_str breakOpt
              (js_or (Css.breakAfter style) (Css.pageBreakAfter style)))
        || includes_el (sel_after (select env)) el /\
      avoid r =
        avoidAll (mode env)
        || (css (mode env) && includes_str avoidOpt
              (js_or (Css.breakInside style) (Css.pageBreakInside style)))
        || includes_el (sel_avoid (select env)) el.
Proof.
  intros Hincl Hb Ha Hv Hsetup.
  destruct (mode_of_incl _ _ Hincl) as [Mall [Mcss Mleg]].
  unfold setup, select_of in *. rewrite Hb, Ha, Hv.
  destruct (select_key querySelectorAll root false (opt_before opt))
    as [b |] eqn:Eb; unfold bind in *; [| discriminate].
  destruct (select_key querySelectorAll root false (opt_after opt))
    as [a |] eqn:Ea; [| discriminate].
  destruct (select_key querySelectorAll root
              (avoidAll (mode_of (opt_mode opt))) (opt_avoid opt))
    as [v |] eqn:Ev; [| discriminate].
  injection Hsetup as <-.
  assert (Hv' : exists v',
             select_key querySelectorAll root
               (avoidAll (mode_of (opt_mode opt'))) (opt_avoid opt) = Some v' /\
             (avoidAll (mode_of (opt_mode opt')) = true \/ incl v v')).
  { destruct (avoidAll (mode_of (opt_mode opt'))) eqn:E'.
    - exists []. split; [reflexivity | left; reflexivity].
    - destruct (avoidAll (mode_of (opt_mode opt))) eqn:E.
      + specialize (Mall eq_refl). discriminate.
      + exists v. split; [assumption | right; apply incl_refl]. }
  destruct Hv' as [v' [Ev' Hvv]]. rewrite Ev'.
  eexists. split; [reflexivity |].
  intros style el. cbv zeta. split.
  - apply resolve_rules_mono; simpl; auto using incl_refl.
  - exact (resolve_rules_or _ _ _ style el).
Qed.
End ResolverFacts.

(** Turning the legacy mode on next to the css mode. *)
Lemma break_sources_monotone_witness :
  incl (opt_mode opt_css) (opt_mode default_opt) /\
  exists env',
    setup query_none default_opt doc_tail 1000 = Some env' /\
    forall (style : Css.ComputedStyle) (el : nat),
      rules_le
        (resolve_rules (mode_of ["css"]) [2] (mkSelect [] [] []) style el)
        (resolve_rules (mode env') (legacyEls env') (select env') style el).
Proof.
  assert (Hincl : incl (opt_mode opt_css) (opt_mode default_opt)).
  { intros x [<- | []]. simpl. auto. }
  split; [exact Hincl |].
  destruct (break_sources_monotone query_none opt_css default_opt doc_tail 1000
              _ Hincl eq_refl eq_refl eq_refl eq_refl) as [env' [Hs Hr]].
  exists env'. split; [exact Hs |].
  intros style el. exact (proj1 (Hr style el)).
Defined.

(** ** The document under insertion *)

Lemma outline_cons (k : Element) (ks : list Element) :
  outline (k :: ks) = outline [k] ++ outline ks.
Proof.
  unfold outline. simpl. rewrite app_nil_r. apply map_app.
Qed.

Lemma outline_app (ks ks' : list Element) :
  outline (ks ++ ks') = outline ks ++ outline ks'.
Proof.
  unfold outline. rewrite flat_map_app. apply map_app.
Qed.

Lemma outline_El (i : nat) (c : list string) (u : option string)
    (s : option InlineStyle) (kids : list Element) :
  outline [El i c u s kids] = shallow (El i c u s kids) :: outline kids.
Proof.
  unfold outline. simpl. rewrite app_nil_r. reflexivity.
Qed.

Lemma insertAt_ident (pos : Position) (pad : Element) (el : nat)
    (e d : Element) :
  insertAt pos pad el e = Some d -> ident d = ident e.
Proof.
  destruct e as [j c u s kids]. simpl.
  destruct (splice _ _ _ kids); simpl; [| discriminate].
  intros [= <-]. reflexivity.
Qed.

Lemma splice_nonempty (hit : Element -> bool) (put : Element -> list Element)
    (down : Element -> option Element) (ks ks' : list Element) :
  (forall k, put k <> []) ->
  splice hit put down ks = Some ks' -> ks <> [] /\ ks' <> [].
Proof.
  intros Hput. destruct ks as [| k ks]; simpl; [discriminate |].
  intros Hs. split; [discriminate |].
  destruct (hit k).
  - injection Hs as <-. specialize (Hput k). destruct (put k); [congruence | discriminate].
  - destruct (down k).
    + injection Hs as <-. discriminate.
    + destruct (splice hit put down ks); simpl in Hs; [| discriminate].
      injection Hs as <-. discriminate.
Qed.

Lemma place_nonempty (pos : Position) (pad k : Element) : place pos pad k <> [].
Proof. destruct pos; discriminate. Qed.

(** Inserting [pad] next to [el] puts the outline of [pad] somewhere into the
    outline of the document and changes nothing else. *)
Lemma insertAt_outline (pos : Position) (pad : Element) (el : nat) (e : Element) :
  forall d,
    insertAt pos pad el e = Some d ->
    exists l1 l2,
      outline [e] = shallow e :: l1 ++ l2 /\
      outline [d] = shallow e :: l1 ++ outline [pad] ++ l2.
Proof.
  induction e as [j c u s kids IH] using Element_forall_ind.
  intros d Hd. simpl in Hd.
  destruct (splice _ _ _ kids) as [kids' |] eqn:Hs; simpl in Hd; [| discriminate].
  injection Hd as <-.
  assert (Hshape : shallow (El j c u s kids') = shallow (El j c u s kids)).
  { destruct (splice_nonempty _ _ _ _ _ (place_nonempty pos pad) Hs) as [Hk Hk'].
    unfold shallow, isLeaf. simpl.
    destruct kids; [congruence |]. destruct kids'; [congruence |]. reflexivity. }
  rewrite !outline_El, Hshape.
  enough (Hforest : exists l1 l2,
             outline kids = l1 ++ l2 /\
             outline kids' = l1 ++ outline [pad] ++ l2).
  { destruct Hforest as [l1 [l2 [E1 E2]]]. exists l1, l2.
    rewrite E1, E2. split; reflexivity. }
  clear Hshape. revert kids' Hs.
  induction IH as [| k ks Hk _ IHks]; intros kids' Hs; simpl in Hs; [discriminate |].
  destruct (Nat.eqb (ident k) el).
  - injection Hs as <-. rewrite (outline_cons k ks).
    destruct pos; simpl place.
    + exists [], (outline [k] ++ outline ks). split; [reflexivity |].
      change ([pad; k] ++ ks) with (pad :: k :: ks).
      rewrite (outline_cons pad), (outline_cons k). reflexivity.
    + exists (outline [k]), (outline ks). split; [reflexivity |].
      change ([k; pad] ++ ks) with (k :: pad :: ks).
      rewrite (outline_cons k), (outline_cons pad). reflexivity.
  - destruct (insertAt pos pad el k) as [k' |] eqn:Hk'.
    + injection Hs as <-.
      destruct (Hk k' eq_refl) as [l1 [l2 [E1 E2]]].
      rewrite (outline_cons k), (outline_cons k'), E1, E2.
      exists (shallow k :: l1), (l2 ++ outline ks). split.
      * simpl. rewrite <- app_assoc. reflexivity.
      * simpl. rewrite <- !app_assoc. reflexivity.
    + destruct (splice _ _ _ ks) as [ks' |] eqn:Hks; simpl in Hs; [| discriminate].
      injection Hs as <-.
      destruct (IHks ks' eq_refl) as [l1 [l2 [E1 E2]]].
      rewrite (outline_cons k ks), (outline_cons k ks'), E1, E2.
      exists (outline [k] ++ l1), l2. split.
      * rewrite <- app_assoc. reflexivity.
      * rewrite <- app_assoc. reflexivity.
Qed.

Lemma find_app_first {A : Type} (p : A -> bool) (l1 l2 : list A) :
  find p (l1 ++ l2) =
  match find p l1 with
  | Some x => Some x
  | None => find p l2
  end.
Proof.
  induction l1 as [| a l1 IH]; simpl; [reflexivity |].
  destruct (p a); [reflexivity | exact IH].
Qed.

Lemma outline_children (e : Element) :
  outline [e] = shallow e :: outline (children e).
Proof. destruct e. apply outline_El. Qed.

Lemma querySelectorAll_star_outline (e : Element) :
  querySelectorAll_star e = ids (outline (children e)).
Proof.
  unfold querySelectorAll_star, ids, outline. rewrite map_map. reflexivity.
Qed.

(** [findEl] is the first hit in document order. *)
Lemma findEl_outline (i : nat) (e : Element) :
  option_map shallow (findEl i e) = find_shallow i (outline [e]).
Proof.
  induction e as [j c u s kids IH] using Element_forall_ind.
  rewrite outline_El. unfold find_shallow. simpl.
  destruct (Nat.eqb j i); [reflexivity |].
  induction IH as [| k ks Hk _ IHks]; [reflexivity |].
  rewrite (outline_cons k ks), find_app_first. simpl.
  fold (find_shallow i (outline [k])). rewrite <- Hk.
  destruct (findEl i k); [reflexivity | exact IHks].
Qed.

Lemma getAttribute_uid_outline (doc : Element) (i : nat) :
  getAttribute_uid doc i =
  match find_shallow i (outline [doc]) with
  | Some s => shallow_uid s
  | None => None
  end.
Proof.
  unfold getAttribute_uid. rewrite <- findEl_outline.
  destruct (findEl i doc); reflexivity.
Qed.

Lemma find_shallow_In (i : nat) (l : list Shallow) :
  In i (ids l) -> exists s, find_shallow i l = Some s /\ In s l.
Proof.
  unfold ids, find_shallow. induction l as [| a l IH]; simpl; [contradiction |].
  intros [Ha | Hin].
  - rewrite Ha, Nat.eqb_refl. eauto.
  - destruct (Nat.eqb (shallow_id a) i); [eauto |].
    destruct (IH Hin) as [s [Hs Hl]]. eauto.
Qed.

Lemma find_shallow_insert (i : nat) (sp : Shallow) (l1 l2 : list Shallow) :
  shallow_id sp <> i ->
  find_shallow i (l1 ++ [sp] ++ l2) = find_shallow i (l1 ++ l2).
Proof.
  intros Hne. unfold find_shallow. rewrite !find_app_first. simpl.
  apply Nat.eqb_neq in Hne. rewrite Hne. reflexivity.
Qed.

Lemma maxId_list_max (e : Element) :
  maxId e = list_max (ids (outline [e])).
Proof.
  induction e as [j c u s kids IH] using Element_forall_ind.
  rewrite outline_El. unfold ids. simpl.
  induction IH as [| k ks Hk _ IHks]; simpl; [lia |].
  rewrite (outline_cons k ks). fold (ids (outline [k] ++ outline ks)).
  unfold ids in *. rewrite map_app, list_max_app.
  rewrite Hk, IHks. lia.
Qed.

Lemma ids_le_maxId (e : Element) (i : nat) :
  In i (ids (outline [e])) -> i <= maxId e.
Proof.
  intros Hin. rewrite maxId_list_max.
  pose proof (proj1 (list_max_le (ids (outline [e])) (list_max (ids (outline [e]))))
                (Nat.le_refl _)) as Hall.
  rewrite Forall_forall in Hall. exact (Hall i Hin).
Qed.

Lemma star_le_maxId (e : Element) (i : nat) :
  In i (querySelectorAll_star e) -> i <= maxId e.
Proof.
  intros Hin. apply ids_le_maxId. rewrite outline_children.
  rewrite querySelectorAll_star_outline in Hin. right. exact Hin.
Qed.

(** An element below the root has a parent, so the insertion goes through. *)
Lemma insertAt_total (pos : Position) (pad : Element) (el : nat) (e : Element) :
  In el (querySelectorAll_star e) ->
  exists d, insertAt pos pad el e = Some d.
Proof.
  induction e as [j c u s kids IH] using Element_forall_ind.
  rewrite querySelectorAll_star_outline. simpl children. simpl insertAt.
  intros Hin.
  enough (Hs : exists kids',
             splice (fun k => Nat.eqb (ident k) el) (place pos pad)
               (insertAt pos pad el) kids = Some kids').
  { destruct Hs as [kids' ->]. simpl. eauto. }
  induction IH as [| k ks Hk _ IHks]; [contradiction |].
  simpl. destruct (Nat.eqb (ident k) el) eqn:Hhit; [eauto |].
  destruct (insertAt pos pad el k) as [k' |] eqn:Hdown; [eauto |].
  rewrite (outline_cons k ks) in Hin. unfold ids in Hin.
  rewrite map_app in Hin. apply in_app_or in Hin.
  destruct Hin as [Hin | Hin].
  - rewrite outline_children in Hin. simpl in Hin.
    destruct Hin as [Hin | Hin].
    + apply Nat.eqb_neq in Hhit. contradiction.
    + fold (ids (outline (children k))) in Hin.
      rewrite <- querySelectorAll_star_outline in Hin.
      destruct (Hk Hin) as [d Hd]. congruence.
  - destruct (IHks Hin) as [ks' ->]. simpl. eauto.
Qed.

(** The same fact as [insertAt_outline], below the root. *)
Lemma insertAt_outline_children (pos : Position) (pad : Element) (el : nat)
    (e d : Element) :
  insertAt pos pad el e = Some d ->
  exists l1 l2,
    outline (children e) = l1 ++ l2 /\
    outline (children d) = l1 ++ outline [pad] ++ l2 /\
    shallow d = shallow e.
Proof.
  intros Hd. destruct (insertAt_outline pos pad el e d Hd) as [l1 [l2 [E1 E2]]].
  rewrite outline_children in E1, E2.
  apply (f_equal (@tl Shallow)) in E1. simpl in E1.
  pose proof (f_equal (@hd_error Shallow) E2) as Es. simpl in Es.
  apply (f_equal (@tl Shallow)) in E2. simpl in E2.
  exists l1, l2. repeat split; congruence.
Qed.

(** ** The tagger *)

Lemma tag_shape (e : Element) :
  forall uid,
    ids (outline [addUIDRecursive e uid]) = ids (outline [e]) /\
    Forall (fun s => shallow_uid s <> None) (outline [addUIDRecursive e uid]) /\
    untag (addUIDRecursive e uid) = untag e.
Proof.
  induction e as [j c u s kids IH] using Element_forall_ind.
  intros uid. simpl addUIDRecursive. rewrite !outline_El.
  enough (Hkids : forall index,
             ids (outline (forEach_child addUIDRecursive uid index kids))
             = ids (outline kids) /\
             Forall (fun s => shallow_uid s <> None)
               (outline (forEach_child addUIDRecursive uid index kids)) /\
             map untag (forEach_child addUIDRecursive uid index kids)
             = map untag kids /\
             (kids = [] <-> forEach_child addUIDRecursive uid index kids = [])).
  { destruct (Hkids 0) as [Hi [Hu [Ht Hn]]]. repeat split.
    - unfold ids in *. simpl. f_equal. exact Hi.
    - constructor; [simpl; discriminate | exact Hu].
    - simpl. rewrite Ht. reflexivity. }
  induction IH as [| k ks Hk _ IHks]; intros index; simpl.
  - repeat split; auto.
  - destruct (Hk (uid ++ index_str index)%string) as [Hi [Hu Ht]].
    destruct (IHks (S index)) as [Hi' [Hu' [Ht' _]]].
    rewrite (outline_cons k ks), (outline_cons (addUIDRecursive k _)).
    repeat split.
    + unfold ids in *. rewrite !map_app. congruence.
    + apply Forall_app. split; assumption.
    + congruence.
    + discriminate.
    + discriminate.
Qed.

Lemma tag_star (root : Element) :
  querySelectorAll_star (tag root) = querySelectorAll_star root.
Proof.
  rewrite !querySelectorAll_star_outline.
  destruct (tag_shape root "0") as [Hi _]. fold (tag root) in Hi.
  rewrite !outline_children in Hi. unfold ids in *. simpl in Hi.
  congruence.
Qed.

Lemma tag_maxId (root : Element) : maxId (tag root) = maxId root.
Proof.
  rewrite !maxId_list_max. destruct (tag_shape root "0") as [Hi _].
  fold (tag root) in Hi. congruence.
Qed.

Lemma tag_uid_set (root : Element) (el : nat) :
  In el (querySelectorAll_star root) ->
  exists u, getAttribute_uid (tag root) el = Some u.
Proof.
  intros Hin. rewrite <- tag_star, querySelectorAll_star_outline in Hin.
  rewrite getAttribute_uid_outline.
  destruct (find_shallow_In el (outline [tag root])) as [s [Hs Hl]].
  { rewrite outline_children. right. exact Hin. }
  rewrite Hs. destruct (tag_shape root "0") as [_ [Hu _]].
  rewrite Forall_forall in Hu. specialize (Hu s Hl).
  destruct (shallow_uid s) as [u |]; [eauto | contradiction].
Qed.

(** ** Uids of a narrow document *)

Lemma append_nil_r (u : string) : (u ++ "")%string = u.
Proof. induction u as [| c u IH]; simpl; [reflexivity | now rewrite IH]. Qed.

Lemma append_assoc (a b c : string) :
  ((a ++ b) ++ c)%string = (a ++ (b ++ c))%string.
Proof. induction a as [| x a IH]; simpl; [reflexivity | now rewrite IH]. Qed.

Lemma prefix_append (u a b : string) :
  String.prefix (u ++ a) (u ++ b) = String.prefix a b.
Proof.
  induction u as [| c u IH]; simpl; [reflexivity |].
  destruct (ascii_dec c c); [exact IH | congruence].
Qed.

Lemma prefix_refl (u : string) : String.prefix u u = true.
Proof.
  induction u as [| c u IH]; simpl; [reflexivity |].
  destruct (ascii_dec c c); [exact IH | congruence].
Qed.

Lemma prefix_append_r (u v : string) : String.prefix u (u ++ v) = true.
Proof.
  rewrite <- (append_nil_r u) at 1. rewrite prefix_append.
  destruct v; reflexivity.
Qed.

Lemma prefix_longer (u v : string) (c : ascii) :
  String.prefix (u ++ String c v) u = false.
Proof.
  rewrite <- (append_nil_r u) at 2. rewrite prefix_append. reflexivity.
Qed.

Lemma index_str_digit (index : nat) :
  index < 10 -> index_str index = String (digit index) "".
Proof.
  intros Hlt. do 10 (destruct index as [| index]; [reflexivity |]). lia.
Qed.

Lemma digit_inj (i j : nat) : i < 10 -> j < 10 -> digit i = digit j -> i = j.
Proof.
  intros Hi Hj.
  do 10 (destruct i as [| i];
         [do 10 (destruct j as [| j];
                 [first [reflexivity | vm_compute; discriminate] |]); lia |]).
  lia.
Qed.

Lemma digit_clash (u a b : string) (i j : nat) :
  i < 10 -> j < 10 ->
  String.prefix (u ++ String (digit i) a) (u ++ String (digit j) b) = true ->
  i = j.
Proof.
  intros Hi Hj. rewrite prefix_append. simpl.
  destruct (ascii_dec (digit i) (digit j)) as [E | _]; [| discriminate].
  intros _. apply digit_inj; assumption.
Qed.

Lemma narrow_El (i : nat) (c : list string) (u : option string)
    (s : option InlineStyle) (kids : list Element) :
  narrow (El i c u s kids) ->
  List.length kids <= 10 /\ Forall narrow kids.
Proof.
  unfold narrow. simpl. intros Hn. inversion Hn as [| x l Hlen Hrest]; subst.
  split; [exact Hlen |]. apply Forall_flat_map in Hrest. exact Hrest.
Qed.

Lemma well_pathed_app (u : string) (i : nat) (A B : list Element) :
  i < 10 ->
  well_pathed A ->
  well_pathed B ->
  (forall y, In y A ->
             exists v, uidAttr y = Some (u ++ String (digit i) v)%string) ->
  (forall y, In y B ->
             exists j v, i < j < 10 /\
                         uidAttr y = Some (u ++ String (digit j) v)%string) ->
  well_pathed (A ++ B).
Proof.
  intros Hi [NA [PA DA]] [NB [PB DB]] HA HB.
  split; [| split].
  - rewrite map_app. apply NoDup_app; [exact NA | exact NB |].
    intros a Ha Hb. apply in_map_iff in Ha. destruct Ha as [x [Ex Hx]].
    apply in_map_iff in Hb. destruct Hb as [y [Ey Hy]].
    destruct (HA x Hx) as [vx Ux]. destruct (HB y Hy) as [j [vy [Hj Uy]]].
    assert (E : (u ++ String (digit i) vx)%string
                = (u ++ String (digit j) vy)%string) by congruence.
    assert (Hp : String.prefix (u ++ String (digit i) vx)
                   (u ++ String (digit j) vy) = true)
      by (rewrite E; apply prefix_refl).
    apply digit_clash in Hp; lia.
  - intros x y ux uy Hx Hy Ux Uy Hp.
    apply in_app_or in Hx. apply in_app_or in Hy.
    destruct Hx as [Hx | Hx], Hy as [Hy | Hy].
    + exact (PA x y ux uy Hx Hy Ux Uy Hp).
    + exfalso. destruct (HA x Hx) as [vx Ux']. destruct (HB y Hy) as [j [vy [Hj Uy']]].
      assert (ux = (u ++ String (digit i) vx)%string) by congruence.
      assert (uy = (u ++ String (digit j) vy)%string) by congruence.
      subst ux uy. apply digit_clash in Hp; lia.
    + exfalso. destruct (HB x Hx) as [j [vx [Hj Ux']]]. destruct (HA y Hy) as [vy Uy'].
      assert (ux = (u ++ String (digit j) vx)%string) by congruence.
      assert (uy = (u ++ String (digit i) vy)%string) by congruence.
      subst ux uy. apply digit_clash in Hp; lia.
    + exact (PB x y ux uy Hx Hy Ux Uy Hp).
  - intros x y Hx Hy. apply in_app_or in Hx. destruct Hx as [Hx | Hx].
    + exact (DA x y Hx Hy).
    + exact (DB x y Hx Hy).
Qed.

Lemma subtree_children (e : Element) :
  subtree e = e :: flat_map subtree (children e).
Proof. destruct e; reflexivity. Qed.

(** Tagging a narrow document from the uid [uid] gives well-pathed uids that
    all extend [uid]. *)
Lemma tagged_well_pathed (e : Element) :
  forall uid,
    narrow e ->
    well_pathed (subtree (addUIDRecursive e uid)) /\
    uidAttr (addUIDRecursive e uid) = Some uid /\
    forall y, In y (flat_map subtree (children (addUIDRecursive e uid))) ->
              exists c v, uidAttr y = Some (uid ++ String c v)%string.
Proof.
  induction e as [i c u s kids IH] using Element_forall_ind.
  intros uid Hn. destruct (narrow_El _ _ _ _ _ Hn) as [Hlen Hkids].
  simpl addUIDRecursive. simpl children.
  assert (HF : forall n,
             n + List.length kids <= 10 ->
             well_pathed
               (flat_map subtree (forEach_child addUIDRecursive uid n kids)) /\
             forall y,
               In y (flat_map subtree (forEach_child addUIDRecursive uid n kids)) ->
               exists j v, n <= j < 10 /\
                           uidAttr y = Some (uid ++ String (digit j) v)%string).
  { clear Hlen Hn.
    induction IH as [| k ks Hk _ IHks]; intros n Hlen; simpl.
    - split; [| intros y []].
      split; [constructor | split; intros; contradiction].
    - simpl in Hlen. inversion Hkids as [| k0 ks0 Hnk Hnks]; subst.
      assert (Hn10 : n < 10) by lia.
      rewrite (index_str_digit n Hn10).
      destruct (Hk (uid ++ String (digit n) "")%string Hnk) as [WA [UA DA]].
      destruct (IHks Hnks (S n) ltac:(lia)) as [WB DB].
      assert (HA : forall y,
                 In y (subtree (addUIDRecursive k (uid ++ String (digit n) "")%string)) ->
                 exists v, uidAttr y = Some (uid ++ String (digit n) v)%string).
      { intros y Hy. rewrite subtree_children in Hy. destruct Hy as [<- | Hy].
        - exists ""%string. exact UA.
        - destruct (DA y Hy) as [c0 [v Uy]]. exists (String c0 v).
          rewrite Uy, append_assoc. reflexivity. }
      split.
      + apply (well_pathed_app uid n); assumption.
      + intros y Hy. apply in_app_or in Hy. destruct Hy as [Hy | Hy].
        * destruct (HA y Hy) as [v Uy]. exists n, v. split; [lia | exact Uy].
        * destruct (DB y Hy) as [j [v [Hj Uy]]].
          exists j, v. split; [lia | exact Uy]. }
  destruct (HF 0 ltac:(simpl; lia)) as [[NF [PF DF]] UF].
  set (F := forEach_child addUIDRecursive uid 0 kids) in *.
  assert (Hlong : forall y, In y (flat_map subtree F) ->
                            exists c0 v, uidAttr y = Some (uid ++ String c0 v)%string).
  { intros y Hy. destruct (UF y Hy) as [j [v [_ Uy]]]. eauto. }
  split; [| split; [reflexivity | exact Hlong]].
  simpl subtree. fold F. split; [| split].
  - simpl. constructor; [| exact NF].
    intros Hin. apply in_map_iff in Hin. destruct Hin as [y [Uy Hy]].
    destruct (Hlong y Hy) as [c0 [v Uy']].
    assert (Hp : String.prefix (uid ++ String c0 v) uid = true).
    { replace (uid ++ String c0 v)%string with uid by congruence.
      apply prefix_refl. }
    rewrite prefix_longer in Hp. discriminate.
  - intros x y ux uy Hx Hy Ux Uy Hp.
    destruct Hx as [<- | Hx]; [simpl; exact Hy |].
    destruct Hy as [<- | Hy]; [| exact (PF x y ux uy Hx Hy Ux Uy Hp)].
    exfalso. destruct (Hlong x Hx) as [c0 [v Ux']]. simpl in Uy.
    assert (ux = (uid ++ String c0 v)%string) by congruence.
    assert (uy = uid) by congruence. subst ux uy.
    rewrite prefix_longer in Hp. discriminate.
  - intros x y Hx Hy. destruct Hx as [<- | Hx]; [| exact (DF x y Hx Hy)].
    simpl in Hy. fold F in Hy. destruct Hy as [<- | Hy].
    + exists uid, ""%string. simpl. rewrite append_nil_r. auto.
    + destruct (Hlong y Hy) as [c0 [v Uy]].
      exists uid, (String c0 v). simpl. split; [reflexivity |].
      split; [exact Uy | discriminate].
Qed.

(** The tagger on a document in which no element has more than ten
    children: every uid is unique, the uid of an element is a strict prefix
    of the uid of each of its descendants, and it is a prefix of the uid of
    no other element. *)
Theorem tag_narrow_well_pathed (root : Element) :
  narrow root ->
  NoDup (map uidAttr (subtree (tag root))) /\
  (forall x y, In x (subtree (tag root)) -> In y (subtree x) -> y <> x ->
               exists ux uy, uidAttr x = Some ux /\ uidAttr y = Some uy /\
                             String.prefix ux uy = true /\ ux <> uy) /\
  (forall x y ux uy,
      In x (subtree (tag root)) -> In y (subtree (tag root)) ->
      uidAttr x = Some ux -> uidAttr y = Some uy ->
      String.prefix ux uy = true -> In y (subtree x)).
Proof.
  intros Hn. destruct (tagged_well_pathed root "0" Hn) as [[N [P D]] _].
  fold (tag root) in *. split; [exact N |]. split; [| exact P].
  intros x y Hx Hy Hne. destruct (D x y Hx Hy) as [ux [v [Ux [Uy Hv]]]].
  exists ux, (ux ++ v)%string. repeat split; try assumption.
  - apply prefix_append_r.
  - intros E. destruct v as [| c0 v]; [apply Hne, Hv; reflexivity |].
    assert (Hp : String.prefix (ux ++ String c0 v) ux = true)
      by (rewrite <- E; apply prefix_refl).
    rewrite prefix_longer in Hp. discriminate.
Qed.

Lemma tag_narrow_well_pathed_witness :
  NoDup (map uidAttr (subtree (tag doc_nested))).
Proof.
  apply (tag_narrow_well_pathed doc_nested).
  unfold narrow. repeat constructor.
Defined.

(** ** Dropping what the pass created *)

Lemma drop_above_ident (bound : nat) (e : Element) :
  ident (drop_above bound e) = ident e.
Proof. destruct e; reflexivity. Qed.

Lemma drop_above_insert (bound : nat) (pos : Position) (pad : Element)
    (el : nat) (e : Element) :
  bound < ident pad ->
  forall d, insertAt pos pad el e = Some d ->
            drop_above bound d = drop_above bound e.
Proof.
  intros Hpad.
  assert (Hleb : Nat.leb (ident pad) bound = false) by (apply Nat.leb_gt; exact Hpad).
  induction e as [j c u s kids IH] using Element_forall_ind.
  intros d Hd. simpl in Hd.
  destruct (splice _ _ _ kids) as [kids' |] eqn:Hs; simpl in Hd; [| discriminate].
  injection Hd as <-. simpl. f_equal.
  revert kids' Hs.
  induction IH as [| k ks Hk _ IHks]; intros kids' Hs; simpl in Hs; [discriminate |].
  destruct (Nat.eqb (ident k) el).
  - injection Hs as <-. destruct pos; simpl; rewrite Hleb; reflexivity.
  - destruct (insertAt pos pad el k) as [k' |] eqn:Hk'.
    + injection Hs as <-. simpl.
      rewrite (insertAt_ident _ _ _ _ _ Hk'), (Hk k' eq_refl). reflexivity.
    + destruct (splice _ _ _ ks) as [ks' |] eqn:Hks; simpl in Hs; [| discriminate].
      injection Hs as <-. simpl. rewrite (IHks ks' eq_refl). reflexivity.
Qed.

Lemma drop_above_all (bound : nat) (e : Element) :
  maxId e <= bound -> drop_above bound e = e.
Proof.
  induction e as [j c u s kids IH] using Element_forall_ind.
  simpl. intros Hmax. f_equal.
  induction IH as [| k ks Hk _ IHks]; [reflexivity |].
  simpl in *.
  assert (Hkle : maxId k <= bound) by lia.
  assert (Hrest : fold_right (fun k m => Nat.max (maxId k) m) j ks <= bound) by lia.
  assert (Hid : ident k <= bound).
  { pose proof (ids_le_maxId k (ident k)) as Hle.
    rewrite outline_children in Hle. specialize (Hle (or_introl eq_refl)). lia. }
  apply Nat.leb_le in Hid. rewrite Hid. simpl.
  rewrite (Hk Hkle), (IHks Hrest). reflexivity.
Qed.

(** ** The log *)

Ltac log_app l :=
  induction l as [| [? ? | ? ? ? | ? ? ?] ? ?]; intros; simpl;
  try reflexivity; try (f_equal; auto); auto.

Lemma visited_app (l l' : list Event) :
  visited (l ++ l') = visited l ++ visited l'.
Proof. revert l'. log_app l. Qed.

Lemma pads_app (l l' : list Event) : pads (l ++ l') = pads l ++ pads l'.
Proof. revert l'. log_app l. Qed.

Lemma targets_app (l l' : list Event) :
  targets (l ++ l') = targets l ++ targets l'.
Proof. revert l'. log_app l. Qed.

Lemma heights_app (l l' : list Event) :
  heights (l ++ l') = heights l ++ heights l'.
Proof. revert l'. log_app l. Qed.

Lemma fired_app (l l' : list Event) : fired (l ++ l') = fired l ++ fired l'.
Proof. revert l'. log_app l. Qed.

Lemma pushed_app (l l' : list Event) :
  pushed (l ++ l') = pushed l ++ pushed l'.
Proof. revert l'. log_app l. Qed.

(** ** Invariant of the walk *)

Lemma insertAt_maxId (pos : Position) (pad : Element) (el : nat) (e d : Element) :
  insertAt pos pad el e = Some d ->
  maxId d = Nat.max (maxId e) (maxId pad).
Proof.
  intros Hd. destruct (insertAt_outline pos pad el e d Hd) as [l1 [l2 [E1 E2]]].
  rewrite !maxId_list_max, E1, E2. unfold ids.
  change (shallow e :: l1 ++ outline [pad] ++ l2)
    with ((shallow e :: l1) ++ outline [pad] ++ l2).
  change (shallow e :: l1 ++ l2) with ((shallow e :: l1) ++ l2).
  rewrite !map_app, !list_max_app. lia.
Qed.

Lemma createElement_spacer (doc : Element) (h : Z) :
  createElement doc {| height := h; display := "block" |}
  = spacer (S (maxId doc)) h.
Proof. reflexivity. Qed.

Lemma shallow_id_spacer (i : nat) (h : Z) :
  shallow_id (shallow (spacer i h)) = i.
Proof. reflexivity. Qed.

Section InvariantFacts.
Variable getBoundingClientRect : Element -> nat -> Rect.
Variable H : Z.
Variable D0 : Element.

Let inv := walk_inv getBoundingClientRect H D0.

(** One spacer more, next to an element of the snapshot. *)
Lemma insert_spacer_inv (pos : Position) (el : nat) (h : Z) (w : Walk)
    (d : Element) (ev : Event) :
  inv w ->
  In el (querySelectorAll_star D0) ->
  insertAt pos (spacer (S (maxId (dom w))) h) el (dom w) = Some d ->
  (exists d0 el0, h = fillHeight H (top (getBoundingClientRect d0 el0)) \/
                  h = fillHeight H (bottom (getBoundingClientRect d0 el0))) ->
  ev = PadAfter el (S (maxId (dom w))) h \/
  ev = PadBefore el (S (maxId (dom w))) h ->
  inv {| dom := d; breakAfter := breakAfter w; log := log w ++ [ev] |}.
Proof.
  intros Hinv Hel Hd Hh Hev.
  destruct Hinv as [Hatt Hown Hbound Hframe Hroot Hpads Htar Hvis Hsp Hpin Hhe].
  pose proof (insertAt_maxId _ _ _ _ _ Hd) as Hmax. simpl in Hmax.
  destruct (insertAt_outline _ _ _ _ _ Hd) as [l1 [l2 [E1 E2]]].
  destruct (insertAt_outline_children _ _ _ _ _ Hd) as [k1 [k2 [K1 [K2 Ks]]]].
  assert (Epad : outline [spacer (S (maxId (dom w))) h]
                 = [shallow (spacer (S (maxId (dom w))) h)]) by reflexivity.
  rewrite Epad in E2, K2.
  assert (Hpl : pads (log w ++ [ev]) = pads (log w) ++ [S (maxId (dom w))]).
  { rewrite pads_app. destruct Hev as [-> | ->]; reflexivity. }
  assert (Htl : targets (log w ++ [ev]) = targets (log w) ++ [el]).
  { rewrite targets_app. destruct Hev as [-> | ->]; reflexivity. }
  assert (Hvl : visited (log w ++ [ev]) = visited (log w)).
  { rewrite visited_app. destruct Hev as [-> | ->]; simpl; apply app_nil_r. }
  assert (Hhl : heights (log w ++ [ev]) = heights (log w) ++ [h]).
  { rewrite heights_app. destruct Hev as [-> | ->]; reflexivity. }
  constructor; simpl.
  - intros x Hx. destruct (Hatt x Hx) as [Hin Huid]. split.
    + rewrite querySelectorAll_star_outline in *. rewrite K2.
      rewrite K1 in Hin. unfold ids in *. rewrite !map_app in *.
      apply in_app_or in Hin. apply in_or_app.
      destruct Hin; [left | right; apply in_or_app; right]; assumption.
    + rewrite getAttribute_uid_outline in *. rewrite E2.
      change (shallow (dom w) :: l1 ++ [shallow (spacer (S (maxId (dom w))) h)] ++ l2)
        with ((shallow (dom w) :: l1)
                ++ [shallow (spacer (S (maxId (dom w))) h)] ++ l2).
      rewrite find_shallow_insert.
      * rewrite E1 in Huid. exact Huid.
      * rewrite shallow_id_spacer. pose proof (star_le_maxId _ _ Hin). lia.
  - exact Hown.
  - lia.
  - assert (Hfresh : maxId D0 < ident (spacer (S (maxId (dom w))) h))
      by (simpl; lia).
    rewrite (drop_above_insert (maxId D0) _ _ _ _ Hfresh _ Hd).
    exact Hframe.
  - congruence.
  - rewrite Hpl. apply Forall_app. split.
    + eapply Forall_impl; [| exact Hpads]. simpl. intros; lia.
    + constructor; [lia | constructor].
  - rewrite Htl. apply incl_app; [exact Htar |]. intros x [<- | []]. exact Hel.
  - rewrite Hvl. exact Hvis.
  - intros s Hs Hlt. rewrite K2 in Hs. rewrite Hhl. apply in_app_or in Hs.
    destruct Hs as [Hs | [Hs | Hs]].
    + destruct (Hsp s) as [h' [Hh1 Hh2]];
        [rewrite K1; apply in_or_app; left; exact Hs | exact Hlt |].
      exists h'. split; [exact Hh1 | apply in_or_app; left; exact Hh2].
    + subst s. exists h. split; [reflexivity | apply in_or_app; right; left; reflexivity].
    + destruct (Hsp s) as [h' [Hh1 Hh2]];
        [rewrite K1; apply in_or_app; right; exact Hs | exact Hlt |].
      exists h'. split; [exact Hh1 | apply in_or_app; left; exact Hh2].
  - rewrite Hpl, querySelectorAll_star_outline, K2. unfold ids.
    rewrite !map_app. apply incl_app.
    + intros x Hx. apply Hpin in Hx.
      rewrite querySelectorAll_star_outline, K1 in Hx. unfold ids in Hx.
      rewrite map_app in Hx. apply in_app_or in Hx. apply in_or_app.
      destruct Hx; [left | right; apply in_or_app; right]; assumption.
    + intros x [<- | []]. apply in_or_app. right. left. reflexivity.
  - rewrite Hhl. apply Forall_app. split; [exact Hhe |].
    constructor; [exact Hh | constructor].
Qed.
End InvariantFacts.

(** ** The queue *)

Lemma filter_filter {A : Type} (f g : A -> bool) (l : list A) :
  filter f (filter g l) = filter (fun x => g x && f x) l.
Proof.
  induction l as [| a l IH]; simpl; [reflexivity |].
  destruct (g a); simpl; [destruct (f a) |]; rewrite IH; reflexivity.
Qed.

Lemma indexed_from_snd {A : Type} (i : nat) (l : list A) :
  map snd (indexed_from i l) = l.
Proof.
  revert i. induction l as [| a l IH]; intros i; simpl; [reflexivity |].
  rewrite IH. reflexivity.
Qed.

Lemma filter_indexed_snd {A : Type} (f : A -> bool) (i : nat) (l : list A) :
  map snd (filter (fun ip => f (snd ip)) (indexed_from i l)) = filter f l.
Proof.
  revert i. induction l as [| a l IH]; intros i; simpl; [reflexivity |].
  destruct (f a); simpl; rewrite IH; reflexivity.
Qed.

(** With a uid on the current element the call does not throw and returns
    the due entries, last queued first. *)
Lemma pendingBreakAfters_some (q : list Pending) (s : string) :
  pendingBreakAfters q (Some s)
  = Some (rev (filter (fun ip => due s (snd ip)) (indexed_from 0 q))).
Proof.
  unfold pendingBreakAfters.
  assert (E : filter (fun ip : nat * Pending => due s (snd ip)) (indexed_from 0 q)
              = filter (fun ip => negb (String.prefix (uid_str (pending_uid (snd ip))) s))
                  (filter (fun ip => negb (executed (snd ip))) (indexed_from 0 q))).
  { rewrite filter_filter. reflexivity. }
  rewrite E.
  destruct (filter (fun ip => negb (executed (snd ip))) (indexed_from 0 q));
    reflexivity.
Qed.

Lemma pendingBreakAfters_entries (q : list Pending) (s : string) :
  map snd (rev (filter (fun ip => due s (snd ip)) (indexed_from 0 q)))
  = rev (filter (due s) q).
Proof.
  rewrite map_rev, (filter_indexed_snd (due s)). reflexivity.
Qed.

Lemma mark_executed_owner (i : nat) (q : list Pending) :
  map owner (mark_executed i q) = map owner q.
Proof.
  revert i. induction q as [| p q IH]; intros [| i]; simpl;
    try reflexivity. rewrite IH. reflexivity.
Qed.

Lemma owners_In (q q' : list Pending) (els : list nat) :
  map owner q' = map owner q ->
  (forall p, In p q -> In (owner p) els) ->
  forall p, In p q' -> In (owner p) els.
Proof.
  intros Hmap Hq p Hp. apply (in_map owner) in Hp. rewrite Hmap in Hp.
  apply in_map_iff in Hp. destruct Hp as [p' [<- Hp']]. auto.
Qed.

Lemma mark_executed_nth (i : nat) (q : list Pending) (j : nat) :
  nth_error (mark_executed i q) j
  = if Nat.eqb i j then option_map mark (nth_error q j) else nth_error q j.
Proof.
  revert i j. induction q as [| p q IH]; intros i j.
  - destruct i, j; simpl; try reflexivity; destruct (Nat.eqb _ _); reflexivity.
  - destruct i as [| i], j as [| j]; simpl; try reflexivity. apply IH.
Qed.

Lemma marks_nth (batch : list (nat * Pending)) :
  forall (q : list Pending) (j : nat),
    nth_error (fold_left (fun q ip => mark_executed (fst ip) q) batch q) j
    = if existsb (fun ip => Nat.eqb (fst ip) j) batch
      then option_map mark (nth_error q j)
      else nth_error q j.
Proof.
  induction batch as [| [i p] batch IH]; intros q j; simpl; [reflexivity |].
  rewrite IH, mark_executed_nth.
  destruct (Nat.eqb i j); simpl.
  - destruct (existsb _ batch); [| reflexivity].
    destruct (nth_error q j); reflexivity.
  - reflexivity.
Qed.

Lemma indexed_from_In {A : Type} (l : list A) :
  forall (n j : nat) (a : A),
    In (j, a) (indexed_from n l) <-> n <= j /\ nth_error l (j - n) = Some a.
Proof.
  induction l as [| x l IH]; intros n j a; simpl.
  - split; [contradiction | intros [_ Hn]].
    destruct (j - n); discriminate.
  - rewrite IH. split.
    + intros [E | [Hle Hn]].
      * injection E as <- <-. rewrite Nat.sub_diag. split; [lia | reflexivity].
      * split; [lia |]. replace (j - n) with (S (j - S n)) by lia. exact Hn.
    + intros [Hle Hn]. destruct (j - n) as [| k] eqn:Ek.
      * left. injection Hn as <-. f_equal. lia.
      * right. split; [lia |]. replace (j - S n) with k by lia. exact Hn.
Qed.

(** Marking the due entries, in whatever order, settles the queue. *)
Lemma marks_settle (cur : string) (q : list Pending) :
  fold_left (fun q ip => mark_executed (fst ip) q)
    (rev (filter (fun ip => due cur (snd ip)) (indexed_from 0 q))) q
  = map (settle cur) q.
Proof.
  apply nth_error_ext. intros j.
  rewrite marks_nth, nth_error_map.
  destruct (existsb _ _) eqn:Hex.
  - apply existsb_exists in Hex. destruct Hex as [[i p] [Hin Hi]].
    simpl in Hi. apply Nat.eqb_eq in Hi. subst i.
    apply in_rev, filter_In in Hin. destruct Hin as [Hin Hdue].
    apply indexed_from_In in Hin. destruct Hin as [_ Hn].
    rewrite Nat.sub_0_r in Hn. rewrite Hn. simpl in *.
    unfold settle. rewrite Hdue. reflexivity.
  - destruct (nth_error q j) as [p |] eqn:Hn; [| reflexivity]. simpl.
    unfold settle. destruct (due cur p) eqn:Hdue; [| reflexivity].
    exfalso. apply Bool.not_true_iff_false in Hex. apply Hex.
    apply existsb_exists. exists (j, p). split; [| apply Nat.eqb_refl].
    apply in_rev. rewrite rev_involutive. apply filter_In.
    split; [| exact Hdue].
    apply indexed_from_In. rewrite Nat.sub_0_r. split; [lia | exact Hn].
Qed.

(** ** One visit, the whole walk *)

Section WalkFacts.
Variable getComputedStyle : Element -> nat -> Css.ComputedStyle.
Variable getBoundingClientRect : Element -> nat -> Rect.
Variable env : Env.
Variable D0 : Element.

Let inv := walk_inv getBoundingClientRect (pxPageHeight env) D0.
Let els0 := querySelectorAll_star D0.

Lemma inv_queue (w : Walk) (q : list Pending) :
  inv w ->
  (forall p, In p q -> In (owner p) els0) ->
  inv {| dom := dom w; breakAfter := q; log := log w |}.
Proof.
  intros [Hatt Hown Hbound Hframe Hroot Hpads Htar Hvis Hsp Hpin Hhe] Hq.
  constructor; simpl; assumption.
Qed.

Lemma inv_visit (w : Walk) (el : nat) (r : Rules) :
  inv w ->
  In el els0 ->
  inv {| dom := dom w; breakAfter := breakAfter w;
         log := log w ++ [Visited el r] |}.
Proof.
  intros [Hatt Hown Hbound Hframe Hroot Hpads Htar Hvis Hsp Hpin Hhe] Hel.
  constructor; simpl; try assumption.
  - rewrite pads_app. simpl. rewrite app_nil_r. exact Hpads.
  - rewrite targets_app. simpl. rewrite app_nil_r. exact Htar.
  - rewrite visited_app. simpl. apply incl_app; [exact Hvis |].
    intros x [<- | []]. exact Hel.
  - rewrite heights_app. simpl. rewrite app_nil_r. exact Hsp.
  - rewrite pads_app. simpl. rewrite app_nil_r. exact Hpin.
  - rewrite heights_app. simpl. rewrite app_nil_r. exact Hhe.
Qed.

(** A queued closure runs to completion on an element of the snapshot. *)
Lemma run_after_inv (w : Walk) (el : nat) :
  inv w ->
  In el els0 ->
  exists w',
    run_after getBoundingClientRect env el w = Some w' /\
    inv w' /\
    breakAfter w' = breakAfter w /\
    log w' = log w ++ [PadAfter el (S (maxId (dom w)))
                         (fillHeight (pxPageHeight env)
                            (bottom (getBoundingClientRect (dom w) el)))] /\
    insertAt AfterEl
      (spacer (S (maxId (dom w)))
         (fillHeight (pxPageHeight env)
            (bottom (getBoundingClientRect (dom w) el))))
      el (dom w) = Some (dom w').
Proof.
  intros Hinv Hel. unfold run_after. rewrite createElement_spacer.
  destruct (insertAt_total AfterEl
              (spacer (S (maxId (dom w)))
                 (fillHeight (pxPageHeight env)
                    (bottom (getBoundingClientRect (dom w) el))))
              el (dom w)) as [d Hd].
  { apply (inv_attached _ _ _ _ Hinv). exact Hel. }
  rewrite Hd. simpl. eexists. split; [reflexivity |].
  split; [| auto].
  eapply insert_spacer_inv; eauto.
Qed.

Lemma pad_before_inv (w : Walk) (el : nat) (clientRect : Rect) :
  inv w ->
  In el els0 ->
  (exists d0, clientRect = getBoundingClientRect d0 el) ->
  exists w',
    pad_before env el clientRect w = Some w' /\
    inv w' /\
    breakAfter w' = breakAfter w /\
    log w' = log w ++ [PadBefore el (S (maxId (dom w)))
                         (fillHeight (pxPageHeight env) (top clientRect))] /\
    insertAt BeforeEl
      (spacer (S (maxId (dom w)))
         (fillHeight (pxPageHeight env) (top clientRect)))
      el (dom w) = Some (dom w').
Proof.
  intros Hinv Hel [d0 ->]. unfold pad_before. rewrite createElement_spacer.
  destruct (insertAt_total BeforeEl
              (spacer (S (maxId (dom w)))
                 (fillHeight (pxPageHeight env)
                    (top (getBoundingClientRect d0 el))))
              el (dom w)) as [d Hd].
  { apply (inv_attached _ _ _ _ Hinv). exact Hel. }
  rewrite Hd. simpl. eexists. split; [reflexivity |].
  split; [| auto].
  eapply insert_spacer_inv; eauto.
Qed.

(** A batch of queued closures runs to completion, in the order given. *)
Lemma run_pending_inv (batch : list (nat * Pending)) :
  forall w,
    inv w ->
    (forall ip, In ip batch -> In (owner (snd ip)) els0) ->
    exists w',
      run_pending getBoundingClientRect env batch w = Some w' /\
      inv w' /\
      map owner (breakAfter w') = map owner (breakAfter w) /\
      fired (log w') = fired (log w) ++ map (fun ip => owner (snd ip)) batch /\
      visited (log w') = visited (log w) /\
      pushed (log w') = pushed (log w).
Proof.
  induction batch as [| [i p] batch IH]; intros w Hinv Hbatch; simpl.
  - exists w. rewrite app_nil_r.
    split; [reflexivity |]. split; [exact Hinv |]. repeat split; reflexivity.
  - destruct (run_after_inv w (owner p) Hinv) as [w1 [Hrun [Hinv1 [Hq [Hlog Hins]]]]].
    { apply (Hbatch (i, p)). left. reflexivity. }
    rewrite Hrun. simpl.
    destruct (IH {| dom := dom w1;
                    breakAfter := mark_executed i (breakAfter w1);
                    log := log w1 |}) as [w' [Hrun' [Hinv' [Hq' [Hf [Hv Hp]]]]]].
    + apply inv_queue; [exact Hinv1 |].
      apply (owners_In (breakAfter w1)); [apply mark_executed_owner |].
      apply (inv_owners _ _ _ _ Hinv1).
    + intros ip Hip. apply Hbatch. right. exact Hip.
    + exists w'. split; [exact Hrun' |]. split; [exact Hinv' |].
      simpl in *. rewrite Hq', mark_executed_owner, Hq, Hf, Hv, Hp, Hlog.
      rewrite fired_app, visited_app, pushed_app. simpl.
      rewrite <- !app_assoc, !app_nil_r. repeat split; auto.
Qed.

(** One call of [pagebreak_loop] on an element of the snapshot: it returns,
    and this is what it did. *)
Lemma pagebreak_loop_inv (w : Walk) (el : nat) :
  inv w ->
  In el els0 ->
  exists s w1 w',
    getAttribute_uid (dom w) el = Some s /\
    run_pending getBoundingClientRect env
      (rev (filter (fun ip => due s (snd ip)) (indexed_from 0 (breakAfter w)))) w
    = Some w1 /\
    inv w1 /\
    fired (log w1)
    = fired (log w) ++ rev (map owner (filter (due s) (breakAfter w))) /\
    visited (log w1) = visited (log w) /\
    pushed (log w1) = pushed (log w) /\
    pagebreak_loop getComputedStyle getBoundingClientRect env w el = Some w' /\
    breakAfter w'
    = breakAfter w1
        ++ (if after (rules_of getComputedStyle env (dom w) el)
            then [{| pending_uid := Some s; owner := el; executed := false |}]
            else []) /\
    inv w' /\
    let clientRect := getBoundingClientRect (dom w1) el in
    let rules := avoid_pass (pxPageHeight env) clientRect
                   (rules_of getComputedStyle env (dom w) el) in
    (before rules = true ->
     log w' = log w1 ++ [Visited el rules;
                         PadBefore el (S (maxId (dom w1)))
                           (fillHeight (pxPageHeight env) (top clientRect))] /\
     insertAt BeforeEl
       (spacer (S (maxId (dom w1)))
          (fillHeight (pxPageHeight env) (top clientRect)))
       el (dom w1) = Some (dom w')) /\
    (before rules = false ->
     log w' = log w1 ++ [Visited el rules] /\ dom w' = dom w1).
Proof.
  intros Hinv Hel.
  destruct (inv_attached _ _ _ _ Hinv el Hel) as [Hatt Huid].
  destruct (getAttribute_uid (dom w) el) as [s |] eqn:Es; [| congruence].
  clear Huid.
  destruct (run_pending_inv
              (rev (filter (fun ip => due s (snd ip))
                      (indexed_from 0 (breakAfter w)))) w Hinv)
    as [w1 [Hrun [Hinv1 [Hq [Hf [Hv Hp]]]]]].
  { intros ip Hip. apply (inv_owners _ _ _ _ Hinv).
    apply (in_map snd) in Hip. rewrite pendingBreakAfters_entries in Hip.
    apply in_rev in Hip. apply filter_In in Hip. apply Hip. }
  rewrite <- (map_map snd owner), pendingBreakAfters_entries, map_rev in Hf.
  exists s, w1.
  unfold pagebreak_loop. rewrite Es, pendingBreakAfters_some. simpl bind.
  rewrite Hrun. simpl bind.
  set (rules0 := rules_of getComputedStyle env (dom w) el).
  set (clientRect := getBoundingClientRect (dom w1) el).
  set (rules := avoid_pass (pxPageHeight env) clientRect rules0).
  set (queue := if after rules0
                then breakAfter w1
                       ++ [{| pending_uid := Some s; owner := el; executed := false |}]
                else breakAfter w1).
  assert (Hinv2 : inv {| dom := dom w1; breakAfter := queue;
                         log := log w1 ++ [Visited el rules] |}).
  { apply (inv_queue {| dom := dom w1; breakAfter := breakAfter w1;
                        log := log w1 ++ [Visited el rules] |}).
    - apply inv_visit; assumption.
    - intros p Hp'. subst queue. destruct (after rules0).
      + apply in_app_or in Hp'. destruct Hp' as [Hp' | [<- | []]].
        * apply (inv_owners _ _ _ _ Hinv1). exact Hp'.
        * exact Hel.
      + apply (inv_owners _ _ _ _ Hinv1). exact Hp'. }
  assert (Hqueue : queue
                   = breakAfter w1
                       ++ (if after rules0
                           then [{| pending_uid := Some s; owner := el;
                                    executed := false |}]
                           else [])).
  { subst queue. destruct (after rules0); [reflexivity |].
    symmetry. apply app_nil_r. }
  destruct (before rules) eqn:Hb.
  - destruct (pad_before_inv _ el clientRect Hinv2 Hel)
      as [w' [Hpad [Hinv' [Hq' [Hlog Hins]]]]].
    { exists (dom w1). reflexivity. }
    exists w'. simpl in Hlog, Hins, Hq'.
    rewrite <- app_assoc in Hlog. simpl in Hlog.
    rewrite Hqueue in Hq'.
    repeat (split; [first [assumption | reflexivity] |]).
    split; [intros _; split; assumption | discriminate].
  - eexists. repeat (split; [first [assumption | reflexivity | exact Hqueue] |]).
    split; [discriminate | intros _; split; reflexivity].
Qed.

(** The loop over the snapshot returns. *)
Lemma forEach_el_inv (els : list nat) :
  forall w,
    inv w ->
    incl els els0 ->
    exists w',
      forEach_el getComputedStyle getBoundingClientRect env els w = Some w' /\
      inv w' /\
      visited (log w') = visited (log w) ++ els.
Proof.
  induction els as [| el els IH]; intros w Hinv Hincl; simpl.
  - exists w. rewrite app_nil_r. auto.
  - destruct (pagebreak_loop_inv w el Hinv (Hincl el (or_introl eq_refl)))
      as [s [w1 [w' [_ [_ [_ [_ [Hv1 [_ [Hloop [_ [Hinv' Hcases]]]]]]]]]]]].
    rewrite Hloop. simpl.
    destruct (IH w' Hinv') as [w'' [Hrun [Hinv'' Hv]]].
    { intros x Hx. apply Hincl. right. exact Hx. }
    exists w''. split; [exact Hrun |]. split; [exact Hinv'' |].
    rewrite Hv. cbv zeta in Hcases. destruct Hcases as [Hyes Hno].
    destruct (before _).
    + destruct (Hyes eq_refl) as [-> _]. rewrite visited_app, Hv1. simpl.
      rewrite <- app_assoc. reflexivity.
    + destruct (Hno eq_refl) as [-> _]. rewrite visited_app, Hv1. simpl.
      rewrite <- app_assoc. reflexivity.
Qed.
End WalkFacts.

(** ** The whole pass *)

Lemma setup_pxPageHeight (querySelectorAll : Element -> string -> option (list nat))
    (opt : PagebreakOpt) (root : Element) (H : Z) (env : Env) :
  setup querySelectorAll opt root H = Some env -> pxPageHeight env = H.
Proof.
  unfold setup. destruct (select_of _ _ _ _); simpl; [| discriminate].
  intros [= <-]. reflexivity.
Qed.

(** The walk starts in a state that satisfies the invariant. *)
Lemma initial_inv (getBoundingClientRect : Element -> nat -> Rect) (H : Z)
    (root : Element) :
  walk_inv getBoundingClientRect H (tag root)
    {| dom := tag root; breakAfter := []; log := [] |}.
Proof.
  constructor; simpl.
  - intros el Hel. split; [exact Hel |].
    rewrite tag_star in Hel. destruct (tag_uid_set root el Hel) as [u ->].
    discriminate.
  - intros p [].
  - apply Nat.le_refl.
  - apply drop_above_all. apply Nat.le_refl.
  - reflexivity.
  - constructor.
  - intros x [].
  - intros x [].
  - intros s Hs Hlt. exfalso.
    assert (Hle : shallow_id s <= maxId (tag root)).
    { apply ids_le_maxId. rewrite outline_children. right.
      apply in_map. exact Hs. }
    lia.
  - intros x [].
  - constructor.
Qed.

Section PassFacts.
Variable getComputedStyle : Element -> nat -> Css.ComputedStyle.
Variable getBoundingClientRect : Element -> nat -> Rect.
Variable querySelectorAll : Element -> string -> option (list nat).

(** Once the selectors are accepted the pass returns, in a state that
    satisfies the invariant, having visited the snapshot in order. *)
Lemma toContainer_pagebreak_inv (opt : PagebreakOpt) (root : Element) (H : Z)
    (env : Env) :
  setup querySelectorAll opt root H = Some env ->
  exists w,
    toContainer_pagebreak getComputedStyle getBoundingClientRect querySelectorAll
      opt root H = Some w /\
    walk_inv getBoundingClientRect H (tag root) w /\
    visited (log w) = querySelectorAll_star root.
Proof.
  intros Hsetup. unfold toContainer_pagebreak. rewrite Hsetup. simpl bind.
  pose proof (setup_pxPageHeight _ _ _ _ _ Hsetup) as HH.
  destruct (forEach_el_inv getComputedStyle getBoundingClientRect env (tag root)
              (querySelectorAll_star (tag root))
              {| dom := tag root; breakAfter := []; log := [] |})
    as [w [Hrun [Hinv Hv]]].
  - apply initial_inv.
  - apply incl_refl.
  - exists w. rewrite HH in Hinv. simpl in Hv. rewrite tag_star in Hv. auto.
Qed.

(** A pass that returned was set up. *)
Lemma toContainer_pagebreak_setup (opt : PagebreakOpt) (root : Element) (H : Z)
    (w : Walk) :
  toContainer_pagebreak getComputedStyle getBoundingClientRect querySelectorAll
    opt root H = Some w ->
  exists env, setup querySelectorAll opt root H = Some env.
Proof.
  unfold toContainer_pagebreak.
  destruct (setup querySelectorAll opt root H) as [env |]; [eauto | discriminate].
Qed.
End PassFacts.

(** ** Siblings and spacers *)

Lemma adjacent_in_cons (a b : nat) (k : Element) (ks : list Element) :
  adjacent_in a b ks = true -> adjacent_in a b (k :: ks) = true.
Proof.
  destruct ks as [| y tl]; [discriminate |].
  intros Hadj. change (adjacent_in a b (k :: y :: tl))
    with ((Nat.eqb (ident k) a && Nat.eqb (ident y) b) || adjacent_in a b (y :: tl)).
  rewrite Hadj. apply orb_true_r.
Qed.

(** The new node is the sibling next to [el], on the side asked for. *)
Lemma insertAt_adjacent (pos : Position) (pad : Element) (el : nat) (e : Element) :
  forall d,
    insertAt pos pad el e = Some d ->
    adjacent (fst (side pos (ident pad) el)) (snd (side pos (ident pad) el)) d
    = true.
Proof.
  set (a := fst (side pos (ident pad) el)).
  set (b := snd (side pos (ident pad) el)).
  induction e as [j c u s kids IH] using Element_forall_ind.
  intros d Hd. simpl in Hd.
  destruct (splice _ _ _ kids) as [kids' |] eqn:Hs; simpl in Hd; [| discriminate].
  injection Hd as <-. simpl.
  revert kids' Hs.
  induction IH as [| k ks Hk _ IHks]; intros kids' Hs; simpl in Hs; [discriminate |].
  destruct (Nat.eqb (ident k) el) eqn:Hhit.
  - injection Hs as <-. apply orb_true_iff. left.
    subst a b. destruct pos; simpl; rewrite Hhit, Nat.eqb_refl; reflexivity.
  - destruct (insertAt pos pad el k) as [k' |] eqn:Hk'.
    + injection Hs as <-. apply orb_true_iff. right. simpl.
      rewrite (Hk k' eq_refl). reflexivity.
    + destruct (splice _ _ _ ks) as [ks' |] eqn:Hks; simpl in Hs; [| discriminate].
      injection Hs as <-.
      specialize (IHks ks' eq_refl). apply orb_true_iff in IHks.
      apply orb_true_iff. destruct IHks as [Hadj | Hex].
      * left. apply adjacent_in_cons. exact Hadj.
      * right. simpl. rewrite Hex. apply orb_true_r.
Qed.

Lemma count_spacers_outline (doc : Element) :
  count_spacers doc = List.length (filter shallow_isSpacer (outline [doc])).
Proof.
  unfold count_spacers, outline. simpl. rewrite app_nil_r.
  induction (subtree doc) as [| x l IH]; [reflexivity |].
  destruct x as [i c u [st |] k]; simpl in *; rewrite IH; reflexivity.
Qed.

(** Inserting a spacer adds one spacer. *)
Lemma insertAt_count_spacers (pos : Position) (p : nat) (h : Z) (el : nat)
    (e d : Element) :
  insertAt pos (spacer p h) el e = Some d ->
  count_spacers d = S (count_spacers e).
Proof.
  intros Hd. destruct (insertAt_outline _ _ _ _ _ Hd) as [l1 [l2 [E1 E2]]].
  rewrite !count_spacers_outline, E1, E2.
  change (outline [spacer p h]) with [shallow (spacer p h)].
  change (shallow e :: l1 ++ [shallow (spacer p h)] ++ l2)
    with ((shallow e :: l1) ++ [shallow (spacer p h)] ++ l2).
  change (shallow e :: l1 ++ l2) with ((shallow e :: l1) ++ l2).
  rewrite !filter_app, !length_app. simpl. lia.
Qed.

Lemma shallow_spacer_inj (x : Element) (i : nat) (h : Z) :
  shallow x = shallow (spacer i h) -> x = spacer i h.
Proof.
  destruct x as [j c u s kids]. unfold shallow, spacer, isLeaf. simpl.
  intros E. destruct kids; [| discriminate]. congruence.
Qed.

(** ** Life of a queue entry *)

Section QueueFacts.
Variable getComputedStyle : Element -> nat -> Css.ComputedStyle.
Variable getBoundingClientRect : Element -> nat -> Rect.
Variable env : Env.

Lemma run_after_queue (el : nat) (w w' : Walk) :
  run_after getBoundingClientRect env el w = Some w' ->
  breakAfter w' = breakAfter w.
Proof.
  unfold run_after. destruct (insertAt _ _ _ _); simpl; [| discriminate].
  intros [= <-]. reflexivity.
Qed.

Lemma run_pending_queue (batch : list (nat * Pending)) :
  forall w w',
    run_pending getBoundingClientRect env batch w = Some w' ->
    breakAfter w'
    = fold_left (fun q ip => mark_executed (fst ip) q) batch (breakAfter w).
Proof.
  induction batch as [| [i p] batch IH]; intros w w'; simpl.
  - intros [= <-]. reflexivity.
  - destruct (run_after getBoundingClientRect env (owner p) w) as [w1 |] eqn:H1;
      simpl; [| discriminate].
    intros Hrun. rewrite (IH _ _ Hrun). simpl.
    rewrite (run_after_queue _ _ _ H1). reflexivity.
Qed.

(** In a walk over the tagged document [D0], what the visit of an element
    with uid [s] does to the queue: an entry that is due (not executed, uid
    not a prefix of [s]) has its closure run, once, and becomes executed; any
    other entry is left as it is, so an executed entry never runs again and an
    entry whose owner's uid begins [s] waits; the visited element is queued
    last when its [after] rule is set. *)
Theorem pending_lifecycle (D0 : Element) (w : Walk) (el : nat) :
  walk_inv getBoundingClientRect (pxPageHeight env) D0 w ->
  In el (querySelectorAll_star D0) ->
  exists s w',
    getAttribute_uid (dom w) el = Some s /\
    pagebreak_loop getComputedStyle getBoundingClientRect env w el = Some w' /\
    breakAfter w'
    = map (settle s) (breakAfter w)
        ++ (if after (rules_of getComputedStyle env (dom w) el)
            then [{| pending_uid := Some s; owner := el; executed := false |}]
            else []) /\
    fired (log w')
    = fired (log w) ++ rev (map owner (filter (due s) (breakAfter w))).
Proof.
  intros Hinv Hel.
  destruct (pagebreak_loop_inv getComputedStyle getBoundingClientRect env D0
              w el Hinv Hel)
    as [s [w1 [w' [Hs [Hrun [Hinv1 [Hf [Hv [Hp [Hloop [Hq [Hinv' Hcases]]]]]]]]]]]].
  exists s, w'. split; [exact Hs |]. split; [exact Hloop |]. split.
  - rewrite Hq, (run_pending_queue _ _ _ Hrun), marks_settle. reflexivity.
  - cbv zeta in Hcases. destruct Hcases as [Hyes Hno].
    destruct (before _).
    + destruct (Hyes eq_refl) as [-> _]. rewrite fired_app, Hf. simpl.
      apply app_nil_r.
    + destruct (Hno eq_refl) as [-> _]. rewrite fired_app, Hf. simpl.
      apply app_nil_r.
Qed.
End QueueFacts.

(** The visit of C in the nested example settles both entries. *)
Lemma pending_lifecycle_witness :
  exists w',
    pagebreak_loop style_none (block_rect own_100 0) env_after_1_2
      walk_nested_mid 3 = Some w' /\
    map executed (breakAfter w') = [true; true].
Proof.
  destruct (forEach_el_inv style_none (block_rect own_100 0) env_after_1_2
              (tag doc_nested) [1; 2] (walk_start doc_nested))
    as [w [Hrun [Hinv _]]].
  { apply initial_inv. }
  { intros x [<- | [<- | []]]; vm_compute; auto. }
  assert (E : forEach_el style_none (block_rect own_100 0) env_after_1_2 [1; 2]
                (walk_start doc_nested) = Some walk_nested_mid)
    by reflexivity.
  rewrite E in Hrun. injection Hrun as <-.
  destruct (pending_lifecycle style_none (block_rect own_100 0)
              env_after_1_2 (tag doc_nested) walk_nested_mid 3 Hinv
              (or_intror (or_intror (or_introl eq_refl))))
    as [s [w' [Hs [Hl [Hq Hf]]]]].
  assert (Es : s = "01") by (vm_compute in Hs; congruence).
  subst s. exists w'. split; [exact Hl |]. rewrite Hq. reflexivity.
Defined.

(** ** The log replayed *)

Lemma replay_app (d : Element) (l l' : list Event) :
  replay d (l ++ l') = (d1 <- replay d l ;; replay d1 l').
Proof.
  revert d. induction l as [| e l IH]; intros d; simpl; [reflexivity |].
  destruct (replay_event d e) as [d1 |]; simpl; [apply IH | reflexivity].
Qed.

Lemma snoc_split {A : Type} (l pre post : list A) (a e : A) :
  l ++ [a] = pre ++ e :: post ->
  (post = [] /\ pre = l /\ e = a) \/
  exists post', post = post' ++ [a] /\ l = pre ++ e :: post'.
Proof.
  induction post as [| x post _] using rev_ind; intros E.
  - apply app_inj_tail in E. destruct E as [-> ->]. left. auto.
  - change (pre ++ e :: post ++ [x]) with (pre ++ (e :: post) ++ [x]) in E.
    rewrite app_assoc in E. apply app_inj_tail in E. destruct E as [-> ->].
    right. exists post. auto.
Qed.

Lemma pad_event_inj (pos pos' : Position) (el el' pad pad' : nat) (h h' : Z) :
  pad_event pos el pad h = pad_event pos' el' pad' h' ->
  pos = pos' /\ el = el' /\ pad = pad' /\ h = h'.
Proof.
  destruct pos, pos'; simpl; intros E; try discriminate;
    injection E as -> -> ->; auto.
Qed.

Lemma replay_pad_event (d : Element) (pos : Position) (el pad : nat) (h : Z) :
  replay_event d (pad_event pos el pad h) = insertAt pos (spacer pad h) el d.
Proof.
  destruct pos; reflexivity.
Qed.

Section EdgeFacts.
Variable getComputedStyle : Element -> nat -> Css.ComputedStyle.
Variable getBoundingClientRect : Element -> nat -> Rect.
Variable env : Env.
Variable D0 : Element.

Let einv := edge_inv getBoundingClientRect (pxPageHeight env) D0.

Lemma edge_queue (w : Walk) (q : list Pending) :
  einv w -> einv {| dom := dom w; breakAfter := q; log := log w |}.
Proof.
  intros [Hrep Hread Hsp]. constructor; simpl; assumption.
Qed.

Lemma edge_visit (w : Walk) (el : nat) (r : Rules) :
  einv w ->
  einv {| dom := dom w; breakAfter := breakAfter w;
          log := log w ++ [Visited el r] |}.
Proof.
  intros [Hrep Hread Hsp]. constructor; simpl.
  - rewrite replay_app, Hrep. reflexivity.
  - intros pre pos x pad h post E.
    destruct (snoc_split _ _ _ _ _ E) as [[_ [_ E']] | [post' [_ E']]].
    + destruct pos; discriminate.
    + exact (Hread _ _ _ _ _ _ E').
  - intros s Hs Hlt. destruct (Hsp s Hs Hlt) as [pos [x [h [E Hin]]]].
    exists pos, x, h. split; [exact E | apply in_or_app; left; exact Hin].
Qed.

(** One spacer more, its height computed from the edge read in the document
    it is inserted in. *)
Lemma edge_insert (pos : Position) (el : nat) (w : Walk) (d : Element) :
  einv w ->
  insertAt pos
    (spacer (S (maxId (dom w)))
       (fillHeight (pxPageHeight env)
          (edge_of pos (getBoundingClientRect (dom w) el))))
    el (dom w) = Some d ->
  einv {| dom := d; breakAfter := breakAfter w;
          log := log w
                 ++ [pad_event pos el (S (maxId (dom w)))
                       (fillHeight (pxPageHeight env)
                          (edge_of pos (getBoundingClientRect (dom w) el)))] |}.
Proof.
  intros [Hrep Hread Hsp] Hd.
  set (h := fillHeight (pxPageHeight env)
              (edge_of pos (getBoundingClientRect (dom w) el))) in *.
  constructor; simpl.
  - rewrite replay_app, Hrep. simpl. rewrite replay_pad_event, Hd. reflexivity.
  - intros pre pos' x pad h' post E.
    destruct (snoc_split _ _ _ _ _ E) as [[_ [-> E']] | [post' [_ E']]].
    + apply pad_event_inj in E'. destruct E' as [-> [-> [-> ->]]].
      exists (dom w). auto.
    + exact (Hread _ _ _ _ _ _ E').
  - intros s Hs Hlt.
    destruct (insertAt_outline_children _ _ _ _ _ Hd) as [k1 [k2 [K1 [K2 _]]]].
    change (outline [spacer (S (maxId (dom w))) h])
      with [shallow (spacer (S (maxId (dom w))) h)] in K2.
    rewrite K2 in Hs. apply in_app_or in Hs.
    assert (Hold : In s (outline (children (dom w))) ->
                   exists pos0 el0 h0,
                     s = shallow (spacer (shallow_id s) h0) /\
                     In (pad_event pos0 el0 (shallow_id s) h0)
                       (log w ++ [pad_event pos el (S (maxId (dom w))) h])).
    { intros Hin. destruct (Hsp s Hin Hlt) as [pos0 [el0 [h0 [E Hin0]]]].
      exists pos0, el0, h0. split; [exact E | apply in_or_app; left; exact Hin0]. }
    destruct Hs as [Hs | [Hs | Hs]].
    + apply Hold. rewrite K1. apply in_or_app. left. exact Hs.
    + subst s. exists pos, el, h. rewrite shallow_id_spacer.
      split; [reflexivity | apply in_or_app; right; left; reflexivity].
    + apply Hold. rewrite K1. apply in_or_app. right. exact Hs.
Qed.

Lemma run_after_edge (w w' : Walk) (el : nat) :
  einv w ->
  run_after getBoundingClientRect env el w = Some w' ->
  einv w'.
Proof.
  intros Hinv. unfold run_after. rewrite createElement_spacer.
  destruct (insertAt AfterEl _ el (dom w)) as [d |] eqn:Hd; simpl;
    [| discriminate].
  intros [= <-]. exact (edge_insert AfterEl el w d Hinv Hd).
Qed.

Lemma run_pending_edge (batch : list (nat * Pending)) :
  forall w w',
    einv w ->
    run_pending getBoundingClientRect env batch w = Some w' ->
    einv w'.
Proof.
  induction batch as [| [i p] batch IH]; intros w w' Hinv; simpl.
  - intros [= <-]. exact Hinv.
  - destruct (run_after getBoundingClientRect env (owner p) w) as [w1 |] eqn:H1;
      simpl; [| discriminate].
    apply IH. apply (edge_queue w1). exact (run_after_edge _ _ _ Hinv H1).
Qed.

Lemma pagebreak_loop_edge (w w' : Walk) (el : nat) :
  einv w ->
  pagebreak_loop getComputedStyle getBoundingClientRect env w el = Some w' ->
  einv w'.
Proof.
  intros Hinv. unfold pagebreak_loop.
  destruct (pendingBreakAfters _ _) as [batch |]; simpl; [| discriminate].
  destruct (run_pending getBoundingClientRect env batch w) as [w1 |] eqn:H1;
    simpl; [| discriminate].
  pose proof (run_pending_edge _ _ _ Hinv H1) as Hinv1.
  cbv zeta.
  set (rules := avoid_pass (pxPageHeight env)
                  (getBoundingClientRect (dom w1) el)
                  (rules_of getComputedStyle env (dom w) el)).
  assert (Hinv2 : forall queue,
             einv {| dom := dom w1; breakAfter := queue;
                     log := log w1 ++ [Visited el rules] |}).
  { intros queue. exact (edge_queue _ queue (edge_visit w1 el rules Hinv1)). }
  destruct (before rules).
  - unfold pad_before. rewrite createElement_spacer. cbn [dom breakAfter log].
    destruct (insertAt BeforeEl _ el (dom w1)) as [d |] eqn:Hd; simpl;
      [| discriminate].
    intros [= <-]. exact (edge_insert BeforeEl el _ d (Hinv2 _) Hd).
  - intros [= <-]. apply Hinv2.
Qed.

Lemma forEach_el_edge (els : list nat) :
  forall w w',
    einv w ->
    forEach_el getComputedStyle getBoundingClientRect env els w = Some w' ->
    einv w'.
Proof.
  induction els as [| el els IH]; intros w w' Hinv; simpl.
  - intros [= <-]. exact Hinv.
  - destruct (pagebreak_loop getComputedStyle getBoundingClientRect env w el)
      as [w1 |] eqn:H1; simpl; [| discriminate].
    apply IH. exact (pagebreak_loop_edge _ _ _ Hinv H1).
Qed.
End EdgeFacts.

Lemma initial_edge (getBoundingClientRect : Element -> nat -> Rect) (H : Z)
    (root : Element) :
  edge_inv getBoundingClientRect H (tag root)
    {| dom := tag root; breakAfter := []; log := [] |}.
Proof.
  constructor; simpl.
  - reflexivity.
  - intros pre pos el pad h post E. destruct pre; discriminate.
  - intros s Hs Hlt. exfalso.
    assert (Hle : shallow_id s <= maxId (tag root)).
    { apply ids_le_maxId. rewrite outline_children. right.
      apply in_map. exact Hs. }
    lia.
Qed.

(** A pass that returns leaves a log that satisfies [edge_inv]. *)
Lemma toContainer_pagebreak_edge
    (getComputedStyle : Element -> nat -> Css.ComputedStyle)
    (getBoundingClientRect : Element -> nat -> Rect)
    (querySelectorAll : Element -> string -> option (list nat))
    (opt : PagebreakOpt) (root : Element) (H : Z) (w : Walk) :
  toContainer_pagebreak getComputedStyle getBoundingClientRect querySelectorAll
    opt root H = Some w ->
  edge_inv getBoundingClientRect H (tag root) w.
Proof.
  unfold toContainer_pagebreak.
  destruct (setup querySelectorAll opt root H) as [env |] eqn:Hsetup; simpl;
    [| discriminate].
  intros Hrun. rewrite <- (setup_pxPageHeight _ _ _ _ _ Hsetup).
  apply (forEach_el_edge getComputedStyle getBoundingClientRect env (tag root)
           _ _ _ (initial_edge _ _ _) Hrun).
Qed.

(** The height [H - edge % H] by the sign of the edge. *)
Lemma rem_fill_cases (H edge : Z) :
  (0 < H)%Z ->
  ((0 <= edge)%Z -> (0 < H - Z.rem edge H <= H)%Z) /\
  ((edge < 0)%Z -> (H <= H - Z.rem edge H < 2 * H)%Z) /\
  (forall k, edge = (k * H)%Z -> (H - Z.rem edge H)%Z = H).
Proof.
  intros Hpos. split; [| split].
  - intros Hedge. pose proof (Z.rem_bound_pos edge H Hedge Hpos). lia.
  - intros Hedge.
    pose proof (Z.rem_nonpos edge H ltac:(lia) ltac:(lia)).
    pose proof (Z.rem_bound_abs edge H ltac:(lia)). lia.
  - intros k ->. rewrite Z.rem_mul by lia. lia.
Qed.

(** The truncated remainder against the floored one. *)
Lemma rem_mod_cases (H t : Z) :
  (0 < H)%Z ->
  ((0 <= t)%Z -> Z.rem t H = (t mod H)%Z) /\
  ((t < 0)%Z -> (t mod H <> 0)%Z -> Z.rem t H = (t mod H - H)%Z) /\
  ((t mod H = 0)%Z -> Z.rem t H = 0%Z).
Proof.
  intros Hpos.
  pose proof (Z.quot_rem' t H) as Hqr.
  pose proof (Z.div_mod t H ltac:(lia)) as Hdm.
  pose proof (Z.mod_pos_bound t H Hpos) as Hmb.
  split; [| split].
  - intros Ht. apply Z.rem_mod_nonneg; lia.
  - intros Ht Hne.
    pose proof (Z.rem_nonpos t H ltac:(lia) ltac:(lia)) as Hr1.
    pose proof (Z.rem_bound_abs t H ltac:(lia)) as Hr2.
    assert (E : (H * (t / H - Z.quot t H + 1) = Z.rem t H - (t mod H - H))%Z)
      by lia.
    assert (Hk : (t / H - Z.quot t H + 1 = 0)%Z) by nia.
    rewrite Hk in E. lia.
  - intros E0. rewrite E0 in Hdm. rewrite Hdm at 1.
    rewrite Z.add_0_r, Z.mul_comm. apply Z.rem_mul. lia.
Qed.

(** * The claims *)

Section Claims.
Variable getComputedStyle : Element -> nat -> Css.ComputedStyle.
Variable getBoundingClientRect : Element -> nat -> Rect.
Variable querySelectorAll : Element -> string -> option (list nat).

(** C9.  The elements handed to [pagebreak_loop] are the descendants the
    container had before the walk, in document order.  Every spacer created
    during the pass is in the document afterwards, yet none was visited (so
    none got a rule set) and no spacer was inserted next to a spacer: every
    insertion is next to an element of the snapshot. *)
Theorem walk_visits_snapshot (opt : PagebreakOpt) (root : Element) (H : Z)
    (env : Env) :
  setup querySelectorAll opt root H = Some env ->
  exists w,
    toContainer_pagebreak getComputedStyle getBoundingClientRect
      querySelectorAll opt root H = Some w /\
    visited (log w) = querySelectorAll_star root /\
    incl (targets (log w)) (querySelectorAll_star root) /\
    forall p, In p (pads (log w)) ->
              In p (querySelectorAll_star (dom w)) /\
              ~ In p (querySelectorAll_star root) /\
              ~ In p (visited (log w)) /\
              ~ In p (targets (log w)).
Proof.
  intros Hsetup.
  destruct (toContainer_pagebreak_inv getComputedStyle getBoundingClientRect
              querySelectorAll opt root H env Hsetup) as [w [Hrun [Hinv Hv]]].
  exists w. split; [exact Hrun |]. split; [exact Hv |].
  pose proof (inv_targets _ _ _ _ Hinv) as Htar. rewrite tag_star in Htar.
  split; [exact Htar |].
  intros p Hp.
  pose proof (inv_pads _ _ _ _ Hinv) as Hpads.
  rewrite Forall_forall in Hpads. specialize (Hpads p Hp).
  rewrite tag_maxId in Hpads.
  assert (Hfresh : ~ In p (querySelectorAll_star root)).
  { intros Hin. apply star_le_maxId in Hin. lia. }
  split; [apply (inv_pads_in _ _ _ _ Hinv); exact Hp |].
  split; [exact Hfresh |].
  split.
  - rewrite Hv. exact Hfresh.
  - intros Hin. apply Hfresh. apply Htar. exact Hin.
Qed.

(** C8, as amended.  Once the selectors are accepted the pass returns, and
    taking away what the pass created gives back the container with nothing
    changed except the [uid] attribute the tagger wrote on every element:
    every element is still there, in the same place and order.  What the
    pass created are spacers: childless divs with a height and
    [display: block]. *)
Theorem pass_inserts_spacers_and_tags (opt : PagebreakOpt) (root : Element)
    (H : Z) (env : Env) :
  setup querySelectorAll opt root H = Some env ->
  exists w,
    toContainer_pagebreak getComputedStyle getBoundingClientRect
      querySelectorAll opt root H = Some w /\
    drop_above (maxId root) (dom w) = tag root /\
    untag (drop_above (maxId root) (dom w)) = untag root /\
    forall x, In x (flat_map subtree (children (dom w))) ->
              maxId root < ident x ->
              exists h, x = spacer (ident x) h.
Proof.
  intros Hsetup.
  destruct (toContainer_pagebreak_inv getComputedStyle getBoundingClientRect
              querySelectorAll opt root H env Hsetup) as [w [Hrun [Hinv Hv]]].
  exists w. split; [exact Hrun |].
  pose proof (inv_frame _ _ _ _ Hinv) as Hframe. rewrite tag_maxId in Hframe.
  split; [exact Hframe |].
  split.
  - rewrite Hframe. apply (tag_shape root "0").
  - intros x Hx Hlt.
    destruct (inv_spacers _ _ _ _ Hinv (shallow x)) as [h [Hh _]].
    + unfold outline. apply in_map. exact Hx.
    + rewrite tag_maxId. destruct x; exact Hlt.
    + exists h. apply shallow_spacer_inj.
      replace (ident x) with (shallow_id (shallow x)) by (destruct x; reflexivity).
      exact Hh.
Qed.

(** C10, as amended.  With a positive page height, a pass whose selectors
    are accepted returns.  The log replayed on the tagged container gives the
    resulting document, and every spacer of that document was inserted by an
    event of the log.  For each such event, a spacer before an element or a
    spacer after it, let [d] be the document at that moment, which is the
    replay of the log up to the event, and let [edge] be the edge of the
    element that the host reported in [d]: [top] for a spacer before,
    [bottom] for a spacer after.  The height of the spacer is
    [pageHeight - edge % pageHeight], where [%] is the truncated remainder.
    If that edge is not negative, [0 < h <= pageHeight]; if it is negative,
    [pageHeight <= h < 2 * pageHeight]; and if it is a multiple of the page
    height, the spacer is exactly one page high.  No other rectangle of the
    host matters. *)
Theorem spacer_height_range (opt : PagebreakOpt) (root : Element) (H : Z)
    (env : Env) :
  (0 < H)%Z ->
  setup querySelectorAll opt root H = Some env ->
  exists w,
    toContainer_pagebreak getComputedStyle getBoundingClientRect
      querySelectorAll opt root H = Some w /\
    replay (tag root) (log w) = Some (dom w) /\
    (forall x, In x (flat_map subtree (children (dom w))) ->
               maxId root < ident x ->
               exists pos el h,
                 x = spacer (ident x) h /\
                 In (pad_event pos el (ident x) h) (log w)) /\
    forall pre pos el pad h post,
      log w = pre ++ pad_event pos el pad h :: post ->
      exists d,
        replay (tag root) pre = Some d /\
        let edge := edge_of pos (getBoundingClientRect d el) in
        h = (H - Z.rem edge H)%Z /\
        ((0 <= edge)%Z -> (0 < h <= H)%Z) /\
        ((edge < 0)%Z -> (H <= h < 2 * H)%Z) /\
        (forall k, edge = (k * H)%Z -> h = H).
Proof.
  intros Hpos Hsetup.
  destruct (toContainer_pagebreak_inv getComputedStyle getBoundingClientRect
              querySelectorAll opt root H env Hsetup) as [w [Hrun _]].
  exists w. split; [exact Hrun |].
  destruct (toContainer_pagebreak_edge _ _ _ _ _ _ _ Hrun) as [Hrep Hread Hsp].
  split; [exact Hrep |].
  split.
  - intros x Hx Hlt.
    destruct (Hsp (shallow x)) as [pos [el [h [Hh Hin]]]].
    + unfold outline. apply in_map. exact Hx.
    + rewrite tag_maxId. destruct x; exact Hlt.
    + replace (shallow_id (shallow x)) with (ident x) in *
        by (destruct x; reflexivity).
      exists pos, el, h. split; [| exact Hin].
      apply shallow_spacer_inj. exact Hh.
  - intros pre pos el pad h post E.
    destruct (Hread _ _ _ _ _ _ E) as [d [Hd [_ Hh]]].
    exists d. split; [exact Hd |]. cbv zeta.
    split; [exact Hh |].
    rewrite Hh. unfold fillHeight, js_rem.
    apply rem_fill_cases. exact Hpos.
Qed.
End Claims.

(** Scenario 4 read as a walk: two elements, the second one straddling. *)
Lemma walk_visits_snapshot_witness :
  exists w,
    toContainer_pagebreak style_none (block_rect own_straddle 0) query_none
      opt_avoid_all doc_straddle 1000 = Some w /\
    visited (log w) = querySelectorAll_star doc_straddle /\
    incl (targets (log w)) (querySelectorAll_star doc_straddle) /\
    forall p, In p (pads (log w)) ->
              In p (querySelectorAll_star (dom w)) /\
              ~ In p (querySelectorAll_star doc_straddle) /\
              ~ In p (visited (log w)) /\
              ~ In p (targets (log w)).
Proof.
  exact (walk_visits_snapshot style_none (block_rect own_straddle 0) query_none
           opt_avoid_all doc_straddle 1000 _ eq_refl).
Defined.

(** C8 as stated fails: after the default pass over a container with one
    element, taking away the spacers does not give back the container,
    because the root and the element now carry a [uid] attribute. *)
Lemma pass_only_inserts_counterexample :
  exists w,
    toContainer_pagebreak style_none (block_rect own_single 0) query_none
      default_opt doc_single 1000 = Some w /\
    drop_above (maxId doc_single) (dom w) <> doc_single /\
    uidAttr doc_single = None /\
    uidAttr (dom w) = Some "0".
Proof.
  eexists. split; [vm_compute; reflexivity |].
  split; [vm_compute; discriminate |].
  split; reflexivity.
Qed.

Lemma pass_inserts_spacers_and_tags_witness :
  exists w,
    toContainer_pagebreak style_none (block_rect own_straddle 0) query_none
      opt_avoid_all doc_straddle 1000 = Some w /\
    drop_above (maxId doc_straddle) (dom w) = tag doc_straddle /\
    untag (drop_above (maxId doc_straddle) (dom w)) = untag doc_straddle /\
    forall x, In x (flat_map subtree (children (dom w))) ->
              maxId doc_straddle < ident x ->
              exists h, x = spacer (ident x) h.
Proof.
  exact (pass_inserts_spacers_and_tags style_none (block_rect own_straddle 0)
           query_none opt_avoid_all doc_straddle 1000 _ eq_refl).
Defined.

(** C10 as stated fails: with the container scrolled 300px above the
    viewport the first element has [top = -300], and the spacer pushed before
    it is [1000 - (-300 % 1000) = 1300] pixels high, more than a page. *)
Lemma spacer_height_range_counterexample :
  exists w,
    toContainer_pagebreak style_none (block_rect own_straddle (-300))
      (query_target [1]) opt_before_target doc_straddle 1000 = Some w /\
    top (block_rect own_straddle (-300) (tag doc_straddle) 1) = (-300)%Z /\
    heights (log w) = [1300%Z] /\
    ~ (0 < 1300 <= 1000)%Z.
Proof.
  eexists. split; [vm_compute; reflexivity |].
  split; [reflexivity |].
  split; [reflexivity | lia].
Qed.

(** C7 as stated fails: with the container scrolled 300px above the
    viewport, the element asked to start a page has [top = -300].  The height
    of the claim is [1000 - (-300 mod 1000) = 300]; the one spacer the pass
    inserts before the element is 1300 pixels high. *)
Lemma before_spacer_mod_counterexample :
  exists w,
    toContainer_pagebreak style_none (block_rect own_straddle (-300))
      (query_target [1]) opt_before_target doc_straddle 1000 = Some w /\
    top (block_rect own_straddle (-300) (tag doc_straddle) 1) = (-300)%Z /\
    pushed (log w) = [1] /\
    adjacent 3 1 (dom w) = true /\
    count_spacers (dom w) = 1 /\
    heights (log w) = [1300%Z] /\
    (1000 - (-300) mod 1000 = 300)%Z /\
    heights (log w) <> [(1000 - (-300) mod 1000)%Z].
Proof.
  eexists. split; [vm_compute; reflexivity |].
  split; [reflexivity |].
  split; [reflexivity |].
  split; [reflexivity |].
  split; [reflexivity |].
  split; [reflexivity |].
  split; [reflexivity |].
  vm_compute. discriminate.
Qed.

(** A container scrolled 50px above the viewport: element 1 spans
    [-50 .. 250] and asks for a break after it.  The spacer is computed from
    [bottom = 250], which is not negative, so it fits a page although the top
    of the element is negative. *)
Lemma spacer_height_range_witness :
  exists w,
    toContainer_pagebreak (style_after [1]) (block_rect own_single (-50))
      query_none opt_css doc_pair 1000 = Some w /\
    top (block_rect own_single (-50) (tag doc_pair) 1) = (-50)%Z /\
    bottom (block_rect own_single (-50) (tag doc_pair) 1) = 250%Z /\
    heights (log w) = [750%Z] /\
    (0 < 750 <= 1000)%Z.
Proof.
  assert (Hpos : (0 < 1000)%Z) by lia.
  destruct (spacer_height_range (style_after [1])
              (block_rect own_single (-50)) query_none opt_css doc_pair 1000 _
              Hpos eq_refl)
    as [w [Hrun [_ [_ Hev]]]].
  exists w. split; [exact Hrun |].
  vm_compute in Hrun. injection Hrun as <-.
  split; [reflexivity |]. split; [reflexivity |]. split; [reflexivity |].
  destruct (Hev [Visited 1 {| before := false; after := true; avoid := false |}]
              AfterEl 1 3 750%Z [Visited 2 no_rules] eq_refl)
    as [d [Hd [_ [Hrange _]]]].
  simpl in Hd. injection Hd as <-.
  apply Hrange. vm_compute. discriminate.
Defined.

Section VisitClaims.
Variable getComputedStyle : Element -> nat -> Css.ComputedStyle.
Variable getBoundingClientRect : Element -> nat -> Rect.
Variable env : Env.
Variable D0 : Element.

(** C7, as amended.  In a walk over the tagged document [D0], the visit of
    an element of the snapshot returns.  Let [w1] be the walk once the queued
    closures due at this visit have run, and let the rules be those resolved
    for the element, avoid resolution included, with the rectangle read in
    [w1].  If [before] is set, the visit inserts exactly one spacer: a
    block-level div placed as the sibling immediately before the element, of
    height [pageHeight - top % pageHeight], where [%] is the truncated
    remainder, which has the sign of [top].  On pages of positive height this
    is [pageHeight - top mod pageHeight] when [top] is not negative, one page
    more than that, [2 * pageHeight - top mod pageHeight], when [top] is
    negative and not a multiple of the page height, and one page when [top]
    is a multiple.  If [before] is clear, the visit inserts nothing before
    the element. *)
Theorem before_spacer_at_visit (w : Walk) (el : nat) :
  walk_inv getBoundingClientRect (pxPageHeight env) D0 w ->
  In el (querySelectorAll_star D0) ->
  exists s batch w1 w',
    getAttribute_uid (dom w) el = Some s /\
    pendingBreakAfters (breakAfter w) (Some s) = Some batch /\
    run_pending getBoundingClientRect env batch w = Some w1 /\
    pagebreak_loop getComputedStyle getBoundingClientRect env w el = Some w' /\
    let H := pxPageHeight env in
    let clientRect := getBoundingClientRect (dom w1) el in
    let rules := avoid_pass H clientRect
                   (rules_of getComputedStyle env (dom w) el) in
    let h := (H - Z.rem (top clientRect) H)%Z in
    let pad := S (maxId (dom w1)) in
    (before rules = true ->
     insertAt BeforeEl (spacer pad h) el (dom w1) = Some (dom w') /\
     adjacent pad el (dom w') = true /\
     count_spacers (dom w') = S (count_spacers (dom w1)) /\
     log w' = log w1 ++ [Visited el rules; PadBefore el pad h] /\
     pushed (log w') = pushed (log w) ++ [el] /\
     ((0 < H)%Z ->
      ((0 <= top clientRect)%Z -> h = (H - top clientRect mod H)%Z) /\
      ((top clientRect < 0)%Z -> (top clientRect mod H <> 0)%Z ->
       h = (2 * H - top clientRect mod H)%Z) /\
      ((top clientRect mod H = 0)%Z -> h = H))) /\
    (before rules = false ->
     dom w' = dom w1 /\ pushed (log w') = pushed (log w)).
Proof.
  intros Hinv Hel.
  destruct (pagebreak_loop_inv getComputedStyle getBoundingClientRect env D0
              w el Hinv Hel)
    as [s [w1 [w' [Hs [Hrun [Hinv1 [Hf [Hv [Hp [Hloop [Hq [Hinv' Hcases]]]]]]]]]]]].
  exists s, (rev (filter (fun ip => due s (snd ip)) (indexed_from 0 (breakAfter w)))),
    w1, w'.
  split; [exact Hs |]. split; [apply pendingBreakAfters_some |].
  split; [exact Hrun |]. split; [exact Hloop |].
  cbv zeta in *. destruct Hcases as [Hyes Hno]. split.
  - intros Hb. destruct (Hyes Hb) as [Hlog Hins].
    unfold fillHeight, js_rem in Hlog, Hins.
    split; [exact Hins |].
    split; [exact (insertAt_adjacent BeforeEl _ el _ _ Hins) |].
    split; [exact (insertAt_count_spacers _ _ _ _ _ _ Hins) |].
    split; [exact Hlog |].
    split; [rewrite Hlog, pushed_app, Hp; reflexivity |].
    intros Hpos.
    destruct (rem_mod_cases (pxPageHeight env)
                (top (getBoundingClientRect (dom w1) el)) Hpos)
      as [Hnonneg [Hneg Hmult]].
    split; [| split].
    + intros Ht. rewrite (Hnonneg Ht). reflexivity.
    + intros Ht Hne. rewrite (Hneg Ht Hne). lia.
    + intros Hm. rewrite (Hmult Hm). lia.
  - intros Hb. destruct (Hno Hb) as [Hlog Hdom].
    split; [exact Hdom |].
    rewrite Hlog, pushed_app, Hp. simpl. apply app_nil_r.
Qed.

(** C6.  In a walk over the tagged document [D0], the visit of an element of
    the snapshot returns, and the closures that ran during the visit are those
    of the entries that were due (not yet executed, uid not a prefix of the
    current uid), in the reverse of the order in which they were queued. *)
Theorem pending_run_in_reverse (w : Walk) (el : nat) :
  walk_inv getBoundingClientRect (pxPageHeight env) D0 w ->
  In el (querySelectorAll_star D0) ->
  exists s batch w',
    getAttribute_uid (dom w) el = Some s /\
    pendingBreakAfters (breakAfter w) (Some s) = Some batch /\
    map snd batch = rev (filter (due s) (breakAfter w)) /\
    pagebreak_loop getComputedStyle getBoundingClientRect env w el = Some w' /\
    fired (log w')
    = fired (log w) ++ rev (map owner (filter (due s) (breakAfter w))).
Proof.
  intros Hinv Hel.
  destruct (pagebreak_loop_inv getComputedStyle getBoundingClientRect env D0
              w el Hinv Hel)
    as [s [w1 [w' [Hs [Hrun [Hinv1 [Hf [Hv [Hp [Hloop [Hq [Hinv' Hcases]]]]]]]]]]]].
  exists s, (rev (filter (fun ip => due s (snd ip)) (indexed_from 0 (breakAfter w)))),
    w'.
  split; [exact Hs |]. split; [apply pendingBreakAfters_some |].
  split; [apply pendingBreakAfters_entries |]. split; [exact Hloop |].
  cbv zeta in Hcases. destruct Hcases as [Hyes Hno].
  destruct (before _).
  - destruct (Hyes eq_refl) as [-> _]. rewrite fired_app, Hf. simpl.
    apply app_nil_r.
  - destruct (Hno eq_refl) as [-> _]. rewrite fired_app, Hf. simpl.
    apply app_nil_r.
Qed.
End VisitClaims.

(** Scenario 4's arithmetic at a visit: an element with [top = 900] on
    1000px pages gets a 100px spacer as its previous sibling.  With the
    container scrolled so that [top = -300], the spacer is 1300px high. *)
Lemma before_spacer_at_visit_witness :
  (exists w',
     pagebreak_loop style_none (block_rect own_straddle 900) env_before_1
       (walk_start doc_pair) 1 = Some w' /\
     top (block_rect own_straddle 900 (tag doc_pair) 1) = 900%Z /\
     adjacent 3 1 (dom w') = true /\
     count_spacers (dom w') = 1 /\
     heights (log w') = [(1000 - 900 mod 1000)%Z] /\
     (1000 - 900 mod 1000 = 100)%Z) /\
  (exists w',
     pagebreak_loop style_none (block_rect own_straddle (-300)) env_before_1
       (walk_start doc_pair) 1 = Some w' /\
     top (block_rect own_straddle (-300) (tag doc_pair) 1) = (-300)%Z /\
     adjacent 3 1 (dom w') = true /\
     count_spacers (dom w') = 1 /\
     heights (log w') = [(2 * 1000 - (-300) mod 1000)%Z] /\
     (2 * 1000 - (-300) mod 1000 = 1300)%Z).
Proof.
  assert (Hpos : (0 < 1000)%Z) by lia.
  split.
  - destruct (before_spacer_at_visit style_none (block_rect own_straddle 900)
                env_before_1 (tag doc_pair) (walk_start doc_pair) 1
                (initial_inv _ _ _) (or_introl eq_refl))
      as [s [batch [w1 [w' [Hs [Hb [Hr [Hl Hc]]]]]]]].
    vm_compute in Hb. injection Hb as <-.
    simpl in Hr. injection Hr as <-.
    cbv zeta in Hc. destruct Hc as [Hyes _].
    destruct (Hyes eq_refl) as [Hins [Hadj [Hcnt [Hlog [Hpush Hmod]]]]].
    destruct (Hmod Hpos) as [Hnonneg _].
    exists w'. split; [exact Hl |].
    split; [reflexivity |].
    split; [exact Hadj |].
    split; [exact Hcnt |].
    split; [| reflexivity].
    assert (Ht : (0 <= top (block_rect own_straddle 900 (dom (walk_start doc_pair)) 1))%Z)
      by (vm_compute; discriminate).
    rewrite (Hnonneg Ht) in Hlog. rewrite Hlog. reflexivity.
  - destruct (before_spacer_at_visit style_none (block_rect own_straddle (-300))
                env_before_1 (tag doc_pair) (walk_start doc_pair) 1
                (initial_inv _ _ _) (or_introl eq_refl))
      as [s [batch [w1 [w' [Hs [Hb [Hr [Hl Hc]]]]]]]].
    vm_compute in Hb. injection Hb as <-.
    simpl in Hr. injection Hr as <-.
    cbv zeta in Hc. destruct Hc as [Hyes _].
    destruct (Hyes eq_refl) as [Hins [Hadj [Hcnt [Hlog [Hpush Hmod]]]]].
    destruct (Hmod Hpos) as [_ [Hneg _]].
    exists w'. split; [exact Hl |].
    split; [reflexivity |].
    split; [exact Hadj |].
    split; [exact Hcnt |].
    split; [| reflexivity].
    assert (Ht : (top (block_rect own_straddle (-300) (dom (walk_start doc_pair)) 1) < 0)%Z)
      by (vm_compute; reflexivity).
    assert (Hm : (top (block_rect own_straddle (-300) (dom (walk_start doc_pair)) 1)
                  mod pxPageHeight env_before_1 <> 0)%Z)
      by (vm_compute; discriminate).
    rewrite (Hneg Ht Hm) in Hlog. rewrite Hlog. reflexivity.
Defined.

(** The nested case: A (element 1) holds B (element 2), both queued; at C
    (element 3) both are due, and B's closure runs before A's. *)
Lemma pending_run_in_reverse_witness :
  exists w',
    pagebreak_loop style_none (block_rect own_100 0) env_after_1_2
      walk_nested_mid 3 = Some w' /\
    fired (log w') = [2; 1].
Proof.
  destruct (forEach_el_inv style_none (block_rect own_100 0) env_after_1_2
              (tag doc_nested) [1; 2] (walk_start doc_nested))
    as [w [Hrun [Hinv _]]].
  { apply initial_inv. }
  { intros x [<- | [<- | []]]; vm_compute; auto. }
  assert (E : forEach_el style_none (block_rect own_100 0) env_after_1_2 [1; 2]
                (walk_start doc_nested) = Some walk_nested_mid)
    by reflexivity.
  rewrite E in Hrun. injection Hrun as <-.
  destruct (pending_run_in_reverse style_none (block_rect own_100 0)
              env_after_1_2 (tag doc_nested) walk_nested_mid 3 Hinv
              (or_intror (or_intror (or_introl eq_refl))))
    as [s [batch [w' [Hs [Hb [Hm [Hl Hf]]]]]]].
  assert (Es : s = "01") by (vm_compute in Hs; congruence).
  subst s. exists w'. split; [exact Hl | exact Hf].
Defined.

(** ** Where the code departs from the claims *)

(** C1.  A marked element that closes the document together with its child:
    its entry is queued at its visit, every later element has a uid that
    begins with the owner's, the walk ends, and the entry has still not been
    executed; no closure ran and the document holds no spacer. *)
Theorem pending_after_dropped_at_end :
  exists w,
    toContainer_pagebreak style_none (block_rect own_100 0) query_none
      default_opt doc_tail 1000 = Some w /\
    visited (log w) = [1; 2; 3] /\
    breakAfter w = [{| pending_uid := Some "01"; owner := 2; executed := false |}] /\
    fired (log w) = [] /\
    count_spacers (dom w) = 0.
Proof.
  eexists. split; [vm_compute; reflexivity |].
  repeat split; reflexivity.
Qed.

(** C3.  Scenario 1: css mode, one element with [page-break-after: always]
    whose bottom is at 300px, pages of 1000px.  The rule is resolved, with
    [after] set, but the pass returns the tagged container without any
    spacer.  With a sibling after the element the 700px spacer does appear,
    immediately after the element. *)
Theorem scenario_1_no_spacer :
  bottom (block_rect own_single 0 (tag doc_single) 1) = 300%Z /\
  (exists w,
     toContainer_pagebreak (style_after [1]) (block_rect own_single 0)
       query_none opt_css doc_single 1000 = Some w /\
     log w = [Visited 1 {| before := false; after := true; avoid := false |}] /\
     dom w = tag doc_single /\
     count_spacers (dom w) = 0) /\
  (exists w,
     toContainer_pagebreak (style_after [1]) (block_rect own_single 0)
       query_none opt_css doc_pair 1000 = Some w /\
     heights (log w) = [700%Z] /\
     adjacent 1 3 (dom w) = true /\
     count_spacers (dom w) = 1).
Proof.
  split; [reflexivity |].
  split; eexists;
    (split; [vm_compute; reflexivity | repeat split; reflexivity]).
Qed.

(** C2.  Eleven children under the root, the second of which has a child:
    the eleventh child and that grandchild are distinct elements with the same
    uid "010", and the uid "01" of the second child is a prefix of the uid of
    the eleventh child, which is not one of its descendants. *)
Theorem uid_collision :
  getAttribute_uid (tag doc_wide) 11 = Some "010" /\
  getAttribute_uid (tag doc_wide) 12 = Some "010" /\
  getAttribute_uid (tag doc_wide) 2 = Some "01" /\
  String.prefix "01" "010" = true /\
  option_map querySelectorAll_star (findEl 2 (tag doc_wide)) = Some [12] /\
  NoDup (map ident (subtree doc_wide)).
Proof.
  repeat split; try reflexivity.
  vm_compute. repeat (constructor; [simpl; intuition discriminate |]).
  constructor.
Qed.

(** * Further properties of the code *)

(** ** The tagger, on any document *)

Lemma forEach_child_overwrites (uid uid' : string) (kids : list Element) :
  Forall (fun k => forall u u',
              addUIDRecursive (addUIDRecursive k u) u' = addUIDRecursive k u')
    kids ->
  forall index,
    forEach_child addUIDRecursive uid' index
      (forEach_child addUIDRecursive uid index kids)
    = forEach_child addUIDRecursive uid' index kids.
Proof.
  induction 1 as [| k ks Hk _ IHks]; intros index; simpl; [reflexivity |].
  rewrite Hk, IHks. reflexivity.
Qed.

(** Tagging again overwrites every uid: the result depends on the uid given
    last only, so a second run of the tagger changes nothing. *)
Theorem addUIDRecursive_overwrites (e : Element) :
  (forall uid uid',
      addUIDRecursive (addUIDRecursive e uid) uid' = addUIDRecursive e uid') /\
  tag (tag e) = tag e.
Proof.
  assert (Hgen : forall uid uid',
             addUIDRecursive (addUIDRecursive e uid) uid'
             = addUIDRecursive e uid').
  { induction e as [i c u s kids IH] using Element_forall_ind.
    intros uid uid'. simpl. f_equal.
    apply forEach_child_overwrites. exact IH. }
  split; [exact Hgen | apply Hgen].
Qed.

Lemma ids_outline_subtree (e : Element) :
  ids (outline [e]) = map ident (subtree e).
Proof.
  unfold ids, outline. simpl. rewrite app_nil_r, map_map.
  apply map_ext. intros x. destruct x; reflexivity.
Qed.

(** The tagger gives the container the uid "0" and every element below it a
    uid, and changes nothing else: identities, classes, styles, children and
    their order are as before. *)
Theorem tag_sets_uid_only (root : Element) :
  uidAttr (tag root) = Some "0" /\
  Forall (fun x => uidAttr x <> None) (subtree (tag root)) /\
  map ident (subtree (tag root)) = map ident (subtree root) /\
  untag (tag root) = untag root.
Proof.
  destruct (tag_shape root "0") as [Hi [Hu Ht]]. fold (tag root) in *.
  split; [destruct root; reflexivity |].
  split; [| split; [rewrite <- !ids_outline_subtree; exact Hi | exact Ht]].
  apply Forall_forall. intros x Hx. rewrite Forall_forall in Hu.
  specialize (Hu (shallow x)).
  replace (shallow_uid (shallow x)) with (uidAttr x) in Hu by (destruct x; reflexivity).
  apply Hu. unfold outline. simpl. rewrite app_nil_r. apply in_map. exact Hx.
Qed.

Lemma index_str_nonempty (index : nat) :
  exists c v, index_str index = String c v.
Proof.
  unfold index_str, NilZero.string_of_uint.
  destruct (Nat.to_uint index); simpl; eauto.
Qed.

Lemma subtree_tagged (e : Element) :
  forall uid x,
    In x (subtree (addUIDRecursive e uid)) ->
    exists x0 uid0, x = addUIDRecursive x0 uid0.
Proof.
  induction e as [i c u s kids IH] using Element_forall_ind.
  intros uid x Hx. simpl in Hx. destruct Hx as [<- | Hx].
  - exists (El i c u s kids), uid. reflexivity.
  - revert Hx. generalize 0 as index.
    induction IH as [| k ks Hk _ IHks]; intros index Hx; simpl in Hx;
      [contradiction |].
    apply in_app_or in Hx. destruct Hx as [Hx | Hx]; [exact (Hk _ _ Hx) |].
    exact (IHks _ Hx).
Qed.

Lemma tagged_below (e : Element) :
  forall uid y,
    In y (flat_map subtree (children (addUIDRecursive e uid))) ->
    exists c v, uidAttr y = Some (uid ++ String c v)%string.
Proof.
  induction e as [i c u s kids IH] using Element_forall_ind.
  intros uid y. simpl children. generalize 0 as index.
  induction IH as [| k ks Hk _ IHks]; intros index Hy; simpl in Hy;
    [contradiction |].
  apply in_app_or in Hy. destruct Hy as [Hy | Hy]; [| exact (IHks _ Hy)].
  destruct (index_str_nonempty index) as [c0 [v0 E]]. rewrite E in Hy.
  rewrite subtree_children in Hy. destruct Hy as [<- | Hy].
  - exists c0, v0. destruct k; reflexivity.
  - destruct (Hk _ _ Hy) as [c1 [v1 Uy]].
    exists c0, (v0 ++ String c1 v1)%string.
    rewrite Uy, append_assoc. reflexivity.
Qed.

(** Whatever the width of the document, the uid of an element is a strict
    prefix of the uid of each of its descendants: the test of
    [pendingBreakAfters] never takes a descendant of the owner for an element
    outside the owner's subtree. *)
Theorem tag_ancestor_prefix (root x y : Element) :
  In x (subtree (tag root)) ->
  In y (flat_map subtree (children x)) ->
  exists ux c v,
    uidAttr x = Some ux /\
    uidAttr y = Some (ux ++ String c v)%string /\
    String.prefix ux (ux ++ String c v) = true.
Proof.
  intros Hx Hy. destruct (subtree_tagged root "0" x Hx) as [x0 [ux ->]].
  destruct (tagged_below x0 ux y Hy) as [c [v Uy]].
  exists ux, c, v. split; [destruct x0; reflexivity |].
  split; [exact Uy | apply prefix_append_r].
Qed.

(** In the wide document the colliding uids still extend their parents'. *)
Lemma tag_ancestor_prefix_witness :
  exists ux c v,
    uidAttr (El 2 [] (Some "01") None [El 12 [] (Some "010") None []]) = Some ux /\
    uidAttr (El 12 [] (Some "010") None []) = Some (ux ++ String c v)%string /\
    String.prefix ux (ux ++ String c v) = true.
Proof.
  apply (tag_ancestor_prefix doc_wide).
  - right. right. left. reflexivity.
  - left. reflexivity.
Defined.

(** ** Page arithmetic *)

(** On pages of positive height the spacer computed for an edge ends on a
    page boundary; for an edge that is not negative it is the first boundary
    strictly below the edge, so the spacer fills what is left of the page
    (a whole page when the edge is on a boundary). *)
Theorem fillHeight_next_boundary (H edge : Z) :
  (0 < H)%Z ->
  (edge + fillHeight H edge = H * (Z.quot edge H + 1))%Z /\
  ((0 <= edge)%Z ->
   (edge + fillHeight H edge = H * (edge / H + 1))%Z /\
   (edge < edge + fillHeight H edge <= edge + H)%Z).
Proof.
  intros Hpos. unfold fillHeight, js_rem.
  pose proof (Z.quot_rem' edge H) as Hqr.
  split; [lia |].
  intros Hedge. rewrite Z.rem_mod_nonneg by lia.
  pose proof (Z.div_mod edge H ltac:(lia)) as Hdm.
  pose proof (Z.mod_pos_bound edge H Hpos) as Hb.
  split; lia.
Qed.

Lemma fillHeight_next_boundary_witness :
  (900 + fillHeight 1000 900 = 1000 * (900 / 1000 + 1))%Z /\
  (900 < 900 + fillHeight 1000 900 <= 900 + 1000)%Z.
Proof.
  assert (Hpos : (0 < 1000)%Z) by lia.
  assert (Hedge : (0 <= 900)%Z) by lia.
  exact (proj2 (fillHeight_next_boundary 1000 900 Hpos) Hedge).
Defined.

(** *** Fractions of a pixel *)

Lemma Qfloor_unique (x : Q) (n : Z) :
  (inject_Z n <= x)%Q -> (x < inject_Z (n + 1))%Q -> Qfloor x = n.
Proof.
  intros Hle Hlt.
  pose proof (Qfloor_le x) as H1. pose proof (Qlt_floor x) as H2.
  assert (A : (inject_Z n < inject_Z (Qfloor x + 1))%Q)
    by (eapply Qle_lt_trans; eauto).
  assert (B : (inject_Z (Qfloor x) < inject_Z (n + 1))%Q)
    by (eapply Qle_lt_trans; eauto).
  rewrite <- Zlt_Qlt in A, B. lia.
Qed.

(** Whatever whole number [%] takes for the quotient, the spacer ends on a
    page boundary. *)
Lemma shifted_top (H t : Q) (T : Z) :
  (0 < H)%Q ->
  ((t + (H - (t - H * inject_Z T))) / H == inject_Z (T + 1))%Q.
Proof.
  intros Hpos. rewrite inject_Z_plus. field. intros E. rewrite E in Hpos.
  exact (Qlt_irrefl 0 Hpos).
Qed.

(** On whole pixels the arithmetic on fractions is that on integers. *)
Lemma startPageQ_whole (H : Z) (r : Rect) :
  startPageQ (whole r) (inject_Z H) = startPage r H.
Proof.
  unfold startPageQ, startPage, js_floor_div, whole. cbn [topQ].
  symmetry. apply Zdiv_Qdiv.
Qed.

Lemma endPageQ_whole (H : Z) (r : Rect) :
  endPageQ (whole r) (inject_Z H) = endPage r H.
Proof.
  unfold endPageQ, endPage, js_floor_div, whole. cbn [bottomQ].
  rewrite Zdiv_Qdiv. apply Qfloor_comp.
  apply Qdiv_comp; [| reflexivity].
  unfold Qeq, Qminus, Qplus, Qopp, inject_Z. simpl. lia.
Qed.

Lemma nPagesQ_whole (H : Z) (r : Rect) :
  (nPagesQ (whole r) (inject_Z H) == nPages r H)%Q.
Proof.
  unfold nPagesQ, nPages, whole. cbn [topQ bottomQ].
  apply Qdiv_comp; [| reflexivity].
  unfold inject_Z. rewrite (Zabs_Qabs (bottom r - top r) 1).
  apply Qabs_wd.
  unfold Qeq, Qminus, Qplus, Qopp. simpl. lia.
Qed.

Lemma avoid_passQ_whole (H : Z) (r : Rect) (rules : Rules) :
  avoid_passQ (inject_Z H) (whole r) rules = avoid_pass H r rules.
Proof.
  unfold avoid_passQ, avoid_pass.
  rewrite startPageQ_whole, endPageQ_whole.
  rewrite (Qleb_comp _ _ (nPagesQ_whole H r) 1%Q 1%Q (Qeq_refl 1)).
  reflexivity.
Qed.

Lemma js_truncQ_whole (H e : Z) :
  js_truncQ (inject_Z e / inject_Z H) = Z.quot e H.
Proof.
  unfold js_truncQ. destruct H as [| p | p]; simpl.
  - rewrite Z.mul_0_r. destruct e; reflexivity.
  - rewrite Z.mul_1_r. reflexivity.
  - replace (e * -1)%Z with (- e)%Z by lia.
    rewrite Z.quot_opp_l by lia.
    change (Z.neg p) with (- Z.pos p)%Z. rewrite Z.quot_opp_r by lia.
    reflexivity.
Qed.

Lemma fillHeightQ_whole (H e : Z) :
  (fillHeightQ (inject_Z H) (inject_Z e) == inject_Z (fillHeight H e))%Q.
Proof.
  unfold fillHeightQ, js_remQ, fillHeight, js_rem.
  rewrite js_truncQ_whole.
  pose proof (Z.quot_rem' e H) as E.
  replace (Z.rem e H) with (e - H * Z.quot e H)%Z by lia.
  unfold Qeq, Qminus, Qplus, Qopp, Qmult, inject_Z. simpl. lia.
Qed.

(** Towards zero and downwards are the same for what is not negative. *)
Lemma js_truncQ_nonneg (x : Q) : (0 <= x)%Q -> js_truncQ x = Qfloor x.
Proof.
  destruct x as [n d]. unfold Qle, js_truncQ, Qfloor. simpl. intros Hn.
  apply Z.quot_div_nonneg; lia.
Qed.

(** When avoid resolution switches [before] on, the spacer then inserted
    moves the top of the element to a page boundary.  On rectangles with
    fractional edges: an element whose top is not negative starts on the next
    page once moved down by the height of that spacer, and the moved element
    lies within one page exactly when it is at least one pixel high.  The end
    page is taken from [bottom - 1], so a box less than a pixel high that
    starts just below a boundary is pushed a page further and still ends on
    the page before the one it starts on. *)
Theorem avoid_push_fits (H : Q) (r : RectQ) (rules : Rules) :
  (0 < H)%Q ->
  before rules = false ->
  before (avoid_passQ H r rules) = true ->
  let moved := shift_rectQ (fillHeightQ H (topQ r)) r in
  ((0 <= topQ r)%Q -> startPageQ moved H = (startPageQ r H + 1)%Z) /\
  (startPageQ moved H = endPageQ moved H <-> (topQ r + 1 <= bottomQ r)%Q).
Proof.
  intros Hpos Hb Hup. unfold avoid_passQ in Hup. rewrite Hb in Hup.
  destruct (avoid rules); simpl in Hup; [| congruence].
  destruct (negb _) eqn:Hpages; simpl in Hup; [| congruence].
  destruct (Qle_bool (nPagesQ r H) 1) eqn:Hfit; [| congruence].
  apply Qle_bool_iff in Hfit. unfold nPagesQ in Hfit.
  assert (Hne : ~ (H == 0)%Q).
  { intros E. rewrite E in Hpos. exact (Qlt_irrefl 0 Hpos). }
  assert (Habs : (Qabs (bottomQ r - topQ r) <= H)%Q).
  { apply (Qmult_le_compat_r _ _ H) in Hfit; [| apply Qlt_le_weak; exact Hpos].
    rewrite Qmult_1_l in Hfit. unfold Qdiv in Hfit.
    rewrite <- Qmult_assoc, (Qmult_comm (/ H)), Qmult_inv_r, Qmult_1_r in Hfit
      by exact Hne.
    exact Hfit. }
  cbv zeta. unfold endPageQ, shift_rectQ, fillHeightQ, js_remQ.
  unfold startPageQ at 1 3. cbn [topQ bottomQ].
  rewrite (Qfloor_comp _ _
             (shifted_top H (topQ r) (js_truncQ (topQ r / H)) Hpos)), Qfloor_Z.
  split.
  { intros Htop. unfold startPageQ. rewrite js_truncQ_nonneg; [reflexivity |].
    apply Qle_shift_div_l; [exact Hpos |]. lra. }
  set (T := js_truncQ (topQ r / H)).
  pose proof (Qle_Qabs (bottomQ r - topQ r)) as Hle_abs.
  assert (Hbox : (bottomQ r - topQ r <= H)%Q) by (eapply Qle_trans; eauto).
  clear Hle_abs Habs Hfit.
  assert (Hend : ((bottomQ r + (H - (topQ r - H * inject_Z T)) - 1) / H
                  == inject_Z (T + 1) + (bottomQ r - topQ r - 1) / H)%Q).
  { rewrite inject_Z_plus. field. exact Hne. }
  rewrite (Qfloor_comp _ _ Hend).
  set (x := ((bottomQ r - topQ r - 1) / H)%Q).
  split.
  - intros Heq.
    destruct (Qlt_le_dec (bottomQ r) (topQ r + 1)) as [Hlt | Hge]; [| exact Hge].
    exfalso.
    assert (Hx : (x < 0)%Q).
    { unfold x. apply Qlt_shift_div_r; [exact Hpos |]. lra. }
    pose proof (Qfloor_le (inject_Z (T + 1) + x)) as Hf.
    rewrite <- Heq in Hf.
    lra.
  - intros Hge. symmetry. apply Qfloor_unique.
    + assert (Hx : (0 <= x)%Q).
      { unfold x. apply Qle_shift_div_l; [exact Hpos |]. lra. }
      lra.
    + assert (Hx : (x < 1)%Q).
      { unfold x. apply Qlt_shift_div_r; [exact Hpos |]. lra. }
      rewrite (inject_Z_plus (T + 1) 1). change (inject_Z 1) with 1%Q.
      clearbody x. lra.
Qed.

(** Scenario 4 off the pixel grid: the element at 900.5 .. 1300.25 is moved
    to 1000 .. 1399.75, within page 1.  The half-pixel box at
    1000.2 .. 1000.7 is moved to 2000 .. 2000.5, and [bottom - 1] is on
    page 1. *)
Lemma avoid_push_fits_witness :
  startPageQ (shift_rectQ (fillHeightQ 1000 (topQ rect_fraction)) rect_fraction)
    1000
  = (startPageQ rect_fraction 1000 + 1)%Z /\
  startPageQ (shift_rectQ (fillHeightQ 1000 (topQ rect_fraction)) rect_fraction)
    1000
  = endPageQ (shift_rectQ (fillHeightQ 1000 (topQ rect_fraction)) rect_fraction)
      1000 /\
  startPageQ (shift_rectQ (fillHeightQ 1000 (topQ rect_subpixel)) rect_subpixel)
    1000
  <> endPageQ (shift_rectQ (fillHeightQ 1000 (topQ rect_subpixel)) rect_subpixel)
       1000.
Proof.
  destruct (avoid_push_fits 1000 rect_fraction rules_avoid
              eq_refl eq_refl eq_refl) as [Hnext Hfits].
  destruct (avoid_push_fits 1000 rect_subpixel rules_avoid
              eq_refl eq_refl eq_refl) as [_ Hsub].
  cbv zeta in Hnext, Hfits, Hsub.
  split; [| split].
  - apply Hnext. vm_compute. discriminate.
  - apply (proj2 Hfits). vm_compute. discriminate.
  - intros E. apply (proj1 Hsub) in E.
    vm_compute in E. apply E. reflexivity.
Defined.

(** ** The resolver and the options *)

(** [a || b] reads the older-syntax alias only when the primary property is
    empty.  So two computed styles that agree on non-empty [breakBefore],
    [breakAfter] and [breakInside] resolve to the same rules, whatever their
    [pageBreak...] aliases say. *)
Theorem css_alias_masked (m : Mode) (L : list nat) (sel : Select)
    (s1 s2 : Css.ComputedStyle) (el : nat) :
  Css.breakBefore s1 <> "" ->
  Css.breakAfter s1 <> "" ->
  Css.breakInside s1 <> "" ->
  same_primary s1 s2 ->
  resolve_rules m L sel s1 el = resolve_rules m L sel s2 el.
Proof.
  intros Nb Na Ni [Eb [Ea Ei]].
  unfold resolve_rules, rules_css. destruct (css m); [| reflexivity].
  rewrite <- Eb, <- Ea, <- Ei.
  destruct (Css.breakBefore s1); [congruence |].
  destruct (Css.breakAfter s1); [congruence |].
  destruct (Css.breakInside s1); [congruence |].
  reflexivity.
Qed.

(** With every primary property computed as "auto", aliases that ask for
    breaks resolve like no request at all. *)
Lemma css_alias_masked_witness :
  resolve_rules (mode_of ["css"]) [] (mkSelect [] [] [])
    (style_auto_alias doc_single 1) 1
  = resolve_rules (mode_of ["css"]) [] (mkSelect [] [] [])
      (style_auto doc_single 1) 1.
Proof.
  apply css_alias_masked; simpl; try discriminate.
  repeat split.
Defined.

Lemma includes_str_iff (arr arr' : list string) (x : string) :
  (In x arr <-> In x arr') -> includes_str arr x = includes_str arr' x.
Proof.
  intros Hiff.
  destruct (includes_str arr x) eqn:E, (includes_str arr' x) eqn:E';
    try reflexivity.
  - apply includes_str_In, Hiff, includes_str_In in E. congruence.
  - apply includes_str_In, Hiff, includes_str_In in E'. congruence.
Qed.

Section OptionFacts.
Variable getComputedStyle : Element -> nat -> Css.ComputedStyle.
Variable getBoundingClientRect : Element -> nat -> Rect.
Variable querySelectorAll : Element -> string -> option (list nat).

(** The mode list matters only through which of "avoid-all", "css" and
    "legacy" it contains: order, repetitions and any other string change
    nothing about the pass. *)
Theorem mode_recognised_only (opt opt' : PagebreakOpt) (root : Element) (H : Z) :
  (forall x, In x ["avoid-all"; "css"; "legacy"] ->
             (In x (opt_mode opt) <-> In x (opt_mode opt'))) ->
  opt_before opt' = opt_before opt ->
  opt_after opt' = opt_after opt ->
  opt_avoid opt' = opt_avoid opt ->
  toContainer_pagebreak getComputedStyle getBoundingClientRect querySelectorAll
    opt' root H
  = toContainer_pagebreak getComputedStyle getBoundingClientRect
      querySelectorAll opt root H.
Proof.
  intros Hmem Hb Ha Hv.
  assert (Hmode : mode_of (opt_mode opt') = mode_of (opt_mode opt)).
  { unfold mode_of. f_equal; symmetry; apply includes_str_iff, Hmem; simpl; auto. }
  unfold toContainer_pagebreak, setup, select_of.
  rewrite Hmode, Hb, Ha, Hv. reflexivity.
Qed.

Lemma select_key_None (root : Element) (all : bool) (requested : list string) :
  select_key querySelectorAll root all requested = None <->
  (if all then [] else requested) <> [] /\
  querySelectorAll root (String.concat ", " (if all then [] else requested))
  = None.
Proof.
  unfold select_key. destruct (if all then [] else requested) as [| x l].
  - split; [discriminate | intros [Hne _]; congruence].
  - split; [intros Hq; split; [discriminate | exact Hq] | intros [_ Hq]; exact Hq].
Qed.

Lemma consulted_In (opt : PagebreakOpt) (sel : list string) :
  In sel (consulted opt) <->
  sel <> [] /\
  (sel = opt_before opt \/ sel = opt_after opt \/
   sel = if avoidAll (mode_of (opt_mode opt)) then [] else opt_avoid opt).
Proof.
  unfold consulted. rewrite filter_In. simpl.
  assert (Hne : negb (Nat.eqb (List.length sel) 0) = true <-> sel <> []).
  { destruct sel; simpl; split; congruence. }
  rewrite Hne. split.
  - intros [[E | [E | [E | []]]] Hn]; split; auto.
  - intros [Hn [E | [E | E]]]; split; auto.
Qed.

(** The pass throws exactly when the host rejects one of the selector lists
    it is handed; a list that is empty, and the avoid list under avoid-all, is
    never handed over.  Nothing else in the pass can fail: no element of the
    snapshot lacks a parent or a uid. *)
Theorem pass_fails_iff_selector_rejected (opt : PagebreakOpt) (root : Element)
    (H : Z) :
  toContainer_pagebreak getComputedStyle getBoundingClientRect querySelectorAll
    opt root H = None <->
  exists sel, In sel (consulted opt) /\
              querySelectorAll root (String.concat ", " sel) = None.
Proof.
  assert (Hsetup : toContainer_pagebreak getComputedStyle getBoundingClientRect
                     querySelectorAll opt root H = None <->
                   setup querySelectorAll opt root H = None).
  { destruct (setup querySelectorAll opt root H) as [env |] eqn:Es.
    - destruct (toContainer_pagebreak_inv getComputedStyle getBoundingClientRect
                  querySelectorAll opt root H env Es) as [w [-> _]].
      split; discriminate.
    - unfold toContainer_pagebreak. rewrite Es. split; reflexivity. }
  rewrite Hsetup. unfold setup, select_of.
  set (all := avoidAll (mode_of (opt_mode opt))).
  pose proof (select_key_None root false (opt_before opt)) as Kb.
  pose proof (select_key_None root false (opt_after opt)) as Ka.
  pose proof (select_key_None root all (opt_avoid opt)) as Kv.
  split.
  - intros Hnone.
    destruct (select_key querySelectorAll root false (opt_before opt)) eqn:Eb.
    + destruct (select_key querySelectorAll root false (opt_after opt)) eqn:Ea.
      * destruct (select_key querySelectorAll root all (opt_avoid opt)) eqn:Ev;
          [discriminate |].
        destruct (proj1 Kv eq_refl) as [Hne Hq].
        exists (if all then [] else opt_avoid opt). split; [| exact Hq].
        apply consulted_In. auto.
      * destruct (proj1 Ka eq_refl) as [Hne Hq].
        exists (opt_after opt). split; [| exact Hq]. apply consulted_In. auto.
    + destruct (proj1 Kb eq_refl) as [Hne Hq].
      exists (opt_before opt). split; [| exact Hq]. apply consulted_In. auto.
  - intros [sel [Hin Hq]]. apply consulted_In in Hin.
    destruct Hin as [Hne [E | [E | E]]]; subst sel.
    + rewrite (proj2 Kb (conj Hne Hq)). reflexivity.
    + rewrite (proj2 Ka (conj Hne Hq)).
      destruct (select_key _ _ _ (opt_before opt)); reflexivity.
    + fold all in Hne, Hq. rewrite (proj2 Kv (conj Hne Hq)).
      destruct (select_key _ _ _ (opt_before opt)); [| reflexivity].
      destruct (select_key _ _ _ (opt_after opt)); reflexivity.
Qed.
End OptionFacts.

Lemma mode_recognised_only_witness :
  toContainer_pagebreak (style_after [1]) (block_rect own_single 0) query_none
    opt_css_noise doc_pair 1000
  = toContainer_pagebreak (style_after [1]) (block_rect own_single 0) query_none
      opt_css doc_pair 1000.
Proof.
  apply mode_recognised_only; try reflexivity.
  intros x Hx. simpl in *. intuition (subst; try discriminate; auto).
Defined.

(** ** The queued closure *)

Lemma insertAt_attached (pos : Position) (pad : Element) (el : nat) (e : Element) :
  forall d, insertAt pos pad el e = Some d -> In el (querySelectorAll_star e).
Proof.
  induction e as [j c u s kids IH] using Element_forall_ind.
  intros d Hd. simpl in Hd.
  destruct (splice _ _ _ kids) as [kids' |] eqn:Hs; [| discriminate].
  clear Hd. rewrite querySelectorAll_star_outline. simpl children.
  revert kids' Hs.
  induction IH as [| k ks Hk _ IHks]; intros kids' Hs; simpl in Hs; [discriminate |].
  rewrite (outline_cons k ks). unfold ids. rewrite map_app. apply in_or_app.
  destruct (Nat.eqb (ident k) el) eqn:Hhit.
  - left. rewrite outline_children. left. apply Nat.eqb_eq in Hhit.
    destruct k; exact Hhit.
  - destruct (insertAt pos pad el k) as [k' |] eqn:Hk'.
    + left. rewrite outline_children. right.
      fold (ids (outline (children k))).
      rewrite <- querySelectorAll_star_outline. exact (Hk k' eq_refl).
    + destruct (splice _ _ _ ks) as [ks' |] eqn:Hks; [| discriminate].
      right. exact (IHks ks' eq_refl).
Qed.

Section ClosureFacts.
Variable getBoundingClientRect : Element -> nat -> Rect.
Variable env : Env.

(** The closure queued for [el] throws exactly when [el] has no parent below
    the container.  Otherwise it inserts one spacer as the sibling
    immediately after [el], of height [pageHeight - bottom % pageHeight] with
    [bottom] read when the closure runs, not when it was queued; it leaves
    the queue alone. *)
Theorem after_spacer_at_fire (el : nat) (w : Walk) :
  (run_after getBoundingClientRect env el w = None <->
   ~ In el (querySelectorAll_star (dom w))) /\
  forall w',
    run_after getBoundingClientRect env el w = Some w' ->
    let h := (pxPageHeight env
              - js_rem (bottom (getBoundingClientRect (dom w) el))
                  (pxPageHeight env))%Z in
    let pad := S (maxId (dom w)) in
    insertAt AfterEl (spacer pad h) el (dom w) = Some (dom w') /\
    adjacent el pad (dom w') = true /\
    count_spacers (dom w') = S (count_spacers (dom w)) /\
    breakAfter w' = breakAfter w /\
    log w' = log w ++ [PadAfter el pad h].
Proof.
  unfold run_after. rewrite createElement_spacer.
  fold (fillHeight (pxPageHeight env)
          (bottom (getBoundingClientRect (dom w) el))).
  set (pad := spacer (S (maxId (dom w)))
                (fillHeight (pxPageHeight env)
                   (bottom (getBoundingClientRect (dom w) el)))).
  destruct (insertAt AfterEl pad el (dom w)) as [d |] eqn:Hd; simpl.
  - split.
    + split; [discriminate | intros Hout; exfalso; apply Hout].
      exact (insertAt_attached _ _ _ _ _ Hd).
    + intros w' [= <-]. simpl.
      split; [reflexivity |].
      split; [exact (insertAt_adjacent AfterEl pad el _ _ Hd) |].
      split; [exact (insertAt_count_spacers _ _ _ _ _ _ Hd) |].
      split; reflexivity.
  - split; [| discriminate].
    split; [intros _ Hin | reflexivity].
    destruct (insertAt_total AfterEl pad el (dom w) Hin) as [d Hd'].
    congruence.
Qed.
End ClosureFacts.

(** Scenario 1's closure, run by hand on the tagged container: 700px, right
    after the element. *)
Lemma after_spacer_at_fire_witness :
  exists w',
    run_after (block_rect own_single 0) env_after_1_2 1 (walk_start doc_single)
    = Some w' /\
    adjacent 1 2 (dom w') = true /\
    heights (log w') = [700%Z].
Proof.
  destruct (after_spacer_at_fire (block_rect own_single 0) env_after_1_2 1
              (walk_start doc_single)) as [_ Hrun].
  eexists. split; [reflexivity |].
  destruct (Hrun _ eq_refl) as [_ [Hadj [_ [_ Hlog]]]].
  split; [exact Hadj | rewrite Hlog; reflexivity].
Defined.

(** ** How the document grows *)

Lemma grows_trans (d1 d2 d3 : Element) :
  grows d1 d2 -> grows d2 d3 -> grows d1 d3.
Proof.
  induction 1 as [d | d d1 d2 pos h el Hins _ IH]; intros H23; [exact H23 |].
  eapply grows_step; [exact Hins | exact (IH H23)].
Qed.

Lemma grows_one (pos : Position) (h : Z) (el : nat) (d d1 : Element) :
  insertAt pos (spacer (S (maxId d)) h) el d = Some d1 -> grows d d1.
Proof.
  intros Hins. eapply grows_step; [exact Hins | apply grows_refl].
Qed.

Lemma insertAt_uid (pos : Position) (p : nat) (h : Z) (el : nat)
    (e d : Element) (i : nat) :
  insertAt pos (spacer p h) el e = Some d ->
  i <> p ->
  getAttribute_uid d i = getAttribute_uid e i.
Proof.
  intros Hd Hne. destruct (insertAt_outline _ _ _ _ _ Hd) as [l1 [l2 [E1 E2]]].
  rewrite !getAttribute_uid_outline, E1, E2.
  change (outline [spacer p h]) with [shallow (spacer p h)].
  change (shallow e :: l1 ++ [shallow (spacer p h)] ++ l2)
    with ((shallow e :: l1) ++ [shallow (spacer p h)] ++ l2).
  rewrite find_shallow_insert; [reflexivity |].
  rewrite shallow_id_spacer. congruence.
Qed.

(** Growing leaves the uid of every element that was there alone. *)
Lemma grows_uid (d d' : Element) :
  grows d d' ->
  maxId d <= maxId d' /\
  forall i, i <= maxId d -> getAttribute_uid d' i = getAttribute_uid d i.
Proof.
  induction 1 as [d | d d1 d2 pos h el Hins _ [IHm IHu]]; [auto |].
  pose proof (insertAt_maxId _ _ _ _ _ Hins) as Hmax. simpl in Hmax.
  split; [lia |].
  intros i Hi. rewrite IHu by lia.
  apply (insertAt_uid _ _ _ _ _ _ _ Hins). lia.
Qed.

Section TraceFacts.
Variable getComputedStyle : Element -> nat -> Css.ComputedStyle.
Variable getBoundingClientRect : Element -> nat -> Rect.
Variable env : Env.

(** What a batch of closures leaves in the log and does to the document. *)
Lemma run_pending_trace (batch : list (nat * Pending)) :
  forall w w1,
    run_pending getBoundingClientRect env batch w = Some w1 ->
    grows (dom w) (dom w1) /\
    exists evs,
      log w1 = log w ++ evs /\
      visited evs = [] /\
      pushed evs = [] /\
      fired evs = map (fun ip => owner (snd ip)) batch /\
      forall seen, firings seen evs
                   = map (fun ip => (owner (snd ip), seen)) batch.
Proof.
  induction batch as [| [i p] batch IH]; intros w w1; simpl.
  - intros [= <-]. split; [apply grows_refl |].
    exists []. rewrite app_nil_r. repeat split; reflexivity.
  - unfold run_after at 1. rewrite createElement_spacer.
    destruct (insertAt AfterEl _ (owner p) (dom w)) as [d |] eqn:Hd;
      simpl; [| discriminate].
    intros Hrun. destruct (IH _ _ Hrun) as [Hg [evs [Hl [Hv [Hp [Hf Hs]]]]]].
    simpl in Hg, Hl. split.
    + eapply grows_step; [exact Hd | exact Hg].
    + eexists (_ :: evs). rewrite Hl, <- app_assoc. simpl.
      split; [reflexivity |]. split; [exact Hv |]. split; [exact Hp |].
      split; [rewrite Hf; reflexivity |].
      intros seen. rewrite Hs. reflexivity.
Qed.

(** Everything one visit does, as the rest of the development needs it. *)
Lemma visit_summary (D0 : Element) (w : Walk) (el : nat) :
  walk_inv getBoundingClientRect (pxPageHeight env) D0 w ->
  In el (querySelectorAll_star D0) ->
  exists s w' evs tail,
    getAttribute_uid (dom w) el = Some s /\
    pagebreak_loop getComputedStyle getBoundingClientRect env w el = Some w' /\
    walk_inv getBoundingClientRect (pxPageHeight env) D0 w' /\
    grows (dom w) (dom w') /\
    breakAfter w'
    = map (settle s) (breakAfter w)
        ++ (if after (rules_of getComputedStyle env (dom w) el)
            then [{| pending_uid := Some s; owner := el; executed := false |}]
            else []) /\
    log w' = log w ++ evs ++ tail /\
    visited evs = [] /\
    pushed evs = [] /\
    fired evs = rev (map owner (filter (due s) (breakAfter w))) /\
    (forall seen,
        firings seen evs
        = map (fun o => (o, seen))
            (rev (map owner (filter (due s) (breakAfter w))))) /\
    exists rules,
      tail = [Visited el rules] \/
      exists p h, tail = [Visited el rules; PadBefore el p h].
Proof.
  intros Hinv Hel.
  destruct (pagebreak_loop_inv getComputedStyle getBoundingClientRect env D0
              w el Hinv Hel)
    as [s [w1 [w' [Hs [Hrun [Hinv1 [Hf [Hv [Hp [Hloop [Hq [Hinv' Hcases]]]]]]]]]]]].
  destruct (run_pending_trace _ _ _ Hrun) as [Hg [evs [Hl [Hve [Hpe [Hfe Hse]]]]]].
  assert (Howners : map (fun ip : nat * Pending => owner (snd ip))
                      (rev (filter (fun ip => due s (snd ip))
                              (indexed_from 0 (breakAfter w))))
                    = rev (map owner (filter (due s) (breakAfter w)))).
  { rewrite <- (map_map snd owner), pendingBreakAfters_entries, map_rev.
    reflexivity. }
  exists s, w', evs.
  cbv zeta in Hcases. destruct Hcases as [Hyes Hno].
  destruct (before _) eqn:Hb.
  - destruct (Hyes eq_refl) as [Hlog Hins].
    eexists. split; [exact Hs |]. split; [exact Hloop |].
    split; [exact Hinv' |].
    split; [exact (grows_trans _ _ _ Hg (grows_one _ _ _ _ _ Hins)) |].
    split; [rewrite Hq, (run_pending_queue _ _ _ _ _ Hrun), marks_settle;
            reflexivity |].
    split; [rewrite Hlog, Hl, <- app_assoc; reflexivity |].
    split; [exact Hve |]. split; [exact Hpe |].
    split; [rewrite Hfe; exact Howners |].
    split.
    + intros seen. rewrite Hse, <- Howners, map_map. reflexivity.
    + eexists. right. eauto.
  - destruct (Hno eq_refl) as [Hlog Hdom].
    eexists. split; [exact Hs |]. split; [exact Hloop |].
    split; [exact Hinv' |].
    split; [rewrite Hdom; exact Hg |].
    split; [rewrite Hq, (run_pending_queue _ _ _ _ _ Hrun), marks_settle;
            reflexivity |].
    split; [rewrite Hlog, Hl, <- app_assoc; reflexivity |].
    split; [exact Hve |]. split; [exact Hpe |].
    split; [rewrite Hfe; exact Howners |].
    split.
    + intros seen. rewrite Hse, <- Howners, map_map. reflexivity.
    + eexists. left. reflexivity.
Qed.
End TraceFacts.

(** ** Document order *)

Lemma findEl_find (i : nat) (e : Element) :
  findEl i e = find (fun x => Nat.eqb (ident x) i) (subtree e).
Proof.
  induction e as [j c u s kids IH] using Element_forall_ind.
  simpl. destruct (Nat.eqb j i); [reflexivity |].
  induction IH as [| k ks Hk _ IHks]; [reflexivity |].
  simpl. rewrite find_app_first, <- Hk.
  destruct (findEl i k); [reflexivity | exact IHks].
Qed.

Lemma find_unique (l : list Element) (y : Element) :
  NoDup (map ident l) ->
  In y l ->
  find (fun x => Nat.eqb (ident x) (ident y)) l = Some y.
Proof.
  induction l as [| a l IH]; simpl; [contradiction |].
  intros Hnd Hin. inversion Hnd as [| ? ? Hnotin Hnd']; subst.
  destruct Hin as [-> | Hin].
  - rewrite Nat.eqb_refl. reflexivity.
  - destruct (Nat.eqb_spec (ident a) (ident y)) as [E | _].
    + exfalso. apply Hnotin. rewrite E. apply in_map. exact Hin.
    + exact (IH Hnd' Hin).
Qed.

(** With distinct identities a reference denotes the element that has it. *)
Lemma findEl_unique (e y : Element) :
  NoDup (map ident (subtree e)) ->
  In y (subtree e) ->
  findEl (ident y) e = Some y.
Proof.
  intros Hnd Hin. rewrite findEl_find. apply find_unique; assumption.
Qed.

Lemma findEl_In (i : nat) (e x : Element) :
  findEl i e = Some x -> In x (subtree e) /\ ident x = i.
Proof.
  rewrite findEl_find. intros Hf. apply find_some in Hf.
  destruct Hf as [Hin Heq]. apply Nat.eqb_eq in Heq. auto.
Qed.

(** In document order a subtree is one uninterrupted block. *)
Lemma subtree_block (e : Element) :
  forall x, In x (subtree e) ->
            exists A B, subtree e = A ++ subtree x ++ B.
Proof.
  induction e as [j c u s kids IH] using Element_forall_ind.
  intros x Hx. simpl in Hx. destruct Hx as [<- | Hx].
  - exists [], []. rewrite app_nil_r. reflexivity.
  - enough (Hf : exists A B, flat_map subtree kids = A ++ subtree x ++ B).
    { destruct Hf as [A [B E]]. exists (El j c u s kids :: A), B.
      simpl. rewrite E. reflexivity. }
    induction IH as [| k ks Hk _ IHks]; simpl in Hx; [contradiction |].
    apply in_app_or in Hx. destruct Hx as [Hx | Hx].
    + destruct (Hk x Hx) as [A [B E]]. exists A, (B ++ flat_map subtree ks).
      simpl. rewrite E, <- !app_assoc. reflexivity.
    + destruct (IHks Hx) as [A [B E]]. exists (subtree k ++ A), B.
      simpl. rewrite E, <- app_assoc. reflexivity.
Qed.

Lemma NoDup_split_unique {A : Type} (a a' b b' : list A) (o : A) :
  NoDup (a ++ o :: b) ->
  a ++ o :: b = a' ++ o :: b' ->
  a = a' /\ b = b'.
Proof.
  revert a'. induction a as [| x a IH]; intros a' Hnd E.
  - destruct a' as [| y a']; simpl in E.
    + injection E as E. auto.
    + exfalso. injection E as -> E. simpl in Hnd.
      inversion Hnd as [| ? ? Hnotin _]; subst. apply Hnotin.
      apply in_or_app. right. left. reflexivity.
  - destruct a' as [| y a']; simpl in E.
    + exfalso. injection E as -> E. simpl in Hnd.
      inversion Hnd as [| ? ? Hnotin _]; subst. apply Hnotin.
      apply in_or_app. right. left. reflexivity.
    + injection E as -> E. simpl in Hnd.
      inversion Hnd as [| ? ? _ Hnd']; subst.
      destruct (IH a' Hnd' E) as [-> ->]. auto.
Qed.

(** A block that starts among the visited elements and does not hold the
    current element has been visited entirely. *)
Lemma block_visited {A : Type} (S0 V R a D b : list A) (o el : A) :
  NoDup S0 ->
  S0 = a ++ o :: D ++ b ->
  S0 = V ++ el :: R ->
  In o V ->
  ~ In el D ->
  incl D V.
Proof.
  intros Hnd Eblock Evis Ho Hel.
  apply in_split in Ho. destruct Ho as [V1 [V2 ->]].
  rewrite <- app_assoc in Evis. simpl in Evis.
  rewrite Eblock in Evis. rewrite Eblock in Hnd.
  destruct (NoDup_split_unique _ _ _ _ _ Hnd Evis) as [_ E].
  apply app_eq_app in E. destruct E as [l [[E1 E2] | [E1 E2]]].
  - destruct l as [| x l].
    + rewrite app_nil_r in E1. subst D. intros y Hy.
      apply in_or_app. right. right. exact Hy.
    + exfalso. simpl in E2. injection E2 as -> E2. apply Hel.
      rewrite E1. apply in_or_app. right. left. reflexivity.
  - intros y Hy. apply in_or_app. right. right. rewrite E1.
    apply in_or_app. left. exact Hy.
Qed.

Lemma forest_block (ks : list Element) (x : Element) :
  In x (flat_map subtree ks) ->
  exists A B, flat_map subtree ks = A ++ subtree x ++ B.
Proof.
  induction ks as [| k ks IH]; simpl; [contradiction |].
  intros Hx. apply in_app_or in Hx. destruct Hx as [Hx | Hx].
  - destruct (subtree_block k x Hx) as [A [B E]].
    exists A, (B ++ flat_map subtree ks). rewrite E, <- !app_assoc. reflexivity.
  - destruct (IH Hx) as [A [B E]]. exists (subtree k ++ A), B.
    rewrite E, <- app_assoc. reflexivity.
Qed.

Lemma star_subtree (x : Element) :
  map ident (subtree x) = ident x :: querySelectorAll_star x.
Proof. rewrite subtree_children. reflexivity. Qed.

(** With distinct identities, the descendants of an element below the root
    follow it immediately in the snapshot. *)
Lemma descendants_block (doc : Element) (o : nat) :
  NoDup (map ident (subtree doc)) ->
  In o (querySelectorAll_star doc) ->
  exists x a b,
    findEl o doc = Some x /\
    In x (flat_map subtree (children doc)) /\
    querySelectorAll_star doc = a ++ o :: descendants doc o ++ b.
Proof.
  intros Hnd Ho. unfold querySelectorAll_star in Ho.
  apply in_map_iff in Ho. destruct Ho as [x [<- Hx]].
  assert (Hx' : In x (subtree doc)) by (rewrite subtree_children; right; exact Hx).
  pose proof (findEl_unique doc x Hnd Hx') as Hfind.
  destruct (forest_block _ _ Hx) as [A [B E]].
  exists x, (map ident A), (map ident B).
  split; [exact Hfind |]. split; [exact Hx |].
  unfold descendants. rewrite Hfind.
  unfold querySelectorAll_star at 1. rewrite E, !map_app, star_subtree.
  reflexivity.
Qed.

(** In a tagged document with distinct identities the uid of a descendant
    extends the uid of the element. *)
Lemma descendant_uid (root : Element) (o el : nat) :
  NoDup (map ident (subtree (tag root))) ->
  In o (querySelectorAll_star (tag root)) ->
  In el (descendants (tag root) o) ->
  exists ux v,
    getAttribute_uid (tag root) o = Some ux /\
    getAttribute_uid (tag root) el = Some (ux ++ v)%string.
Proof.
  intros Hnd Ho Hel.
  destruct (descendants_block _ _ Hnd Ho) as [x [a [b [Hfind [Hx _]]]]].
  unfold descendants in Hel. rewrite Hfind in Hel.
  unfold querySelectorAll_star in Hel. apply in_map_iff in Hel.
  destruct Hel as [y [<- Hy]].
  assert (Hx' : In x (subtree (tag root)))
    by (rewrite subtree_children; right; exact Hx).
  assert (Hy' : In y (subtree (tag root))).
  { destruct (subtree_block _ _ Hx') as [A [B E]]. rewrite E.
    apply in_or_app. right. apply in_or_app. left.
    rewrite subtree_children. right. exact Hy. }
  destruct (subtree_tagged root "0" x Hx') as [x0 [ux ->]].
  destruct (tagged_below x0 ux y Hy) as [c [v Uy]].
  exists ux, (String c v). unfold getAttribute_uid.
  rewrite Hfind, (findEl_unique _ _ Hnd Hy').
  split; [destruct x0; reflexivity | exact Uy].
Qed.

(** ** Invariant of the scheduler *)

Lemma firings_app (l l' : list Event) :
  forall seen,
    firings seen (l ++ l')
    = firings seen l ++ firings (seen ++ visited l) l'.
Proof.
  induction l as [| [el r | o p h | el p h] l IH]; intros seen; simpl.
  - rewrite app_nil_r. reflexivity.
  - rewrite IH, <- app_assoc. reflexivity.
  - rewrite IH. reflexivity.
  - apply IH.
Qed.

Lemma settle_owner (s : string) (q : list Pending) :
  map owner (map (settle s) q) = map owner q.
Proof.
  rewrite map_map. apply map_ext. intros p. unfold settle.
  destruct (due s p); reflexivity.
Qed.

Lemma settle_uid (s : string) (p : Pending) :
  pending_uid (settle s p) = pending_uid p.
Proof. unfold settle. destruct (due s p); reflexivity. Qed.

Lemma settle_executed (s : string) (p : Pending) :
  executed (settle s p) = executed p || due s p.
Proof.
  unfold settle. destruct (due s p) eqn:Hd; simpl.
  - apply eq_sym, orb_true_r.
  - apply eq_sym, orb_false_r.
Qed.

Lemma NoDup_snoc {A : Type} (l : list A) (x : A) :
  NoDup l -> ~ In x l -> NoDup (l ++ [x]).
Proof.
  intros Hnd Hx. apply NoDup_app; [exact Hnd | repeat constructor; intros [] |].
  intros a Ha [<- | []]. exact (Hx Ha).
Qed.

Lemma NoDup_map_filter {A B : Type} (f : A -> B) (g : A -> bool) (l : list A) :
  NoDup (map f l) -> NoDup (map f (filter g l)).
Proof.
  induction l as [| a l IH]; simpl; [auto |].
  intros Hnd. inversion Hnd as [| ? ? Hnotin Hnd']; subst.
  destruct (g a); simpl; [| exact (IH Hnd')].
  constructor; [| exact (IH Hnd')].
  intros Hin. apply Hnotin. apply in_map_iff in Hin.
  destruct Hin as [b [E Hb]]. apply filter_In in Hb.
  rewrite <- E. apply in_map. apply Hb.
Qed.

Lemma NoDup_map_inj {A B : Type} (f : A -> B) (l : list A) (a b : A) :
  NoDup (map f l) -> In a l -> In b l -> f a = f b -> a = b.
Proof.
  induction l as [| x l IH]; simpl; [contradiction |].
  intros Hnd Ha Hb E. inversion Hnd as [| ? ? Hnotin Hnd']; subst.
  destruct Ha as [-> | Ha], Hb as [-> | Hb]; auto.
  - exfalso. apply Hnotin. rewrite E. apply in_map. exact Hb.
  - exfalso. apply Hnotin. rewrite <- E. apply in_map. exact Ha.
Qed.

Lemma settle_owner1 (s : string) (p : Pending) : owner (settle s p) = owner p.
Proof. unfold settle. destruct (due s p); reflexivity. Qed.

Section SchedFacts.
Variable getComputedStyle : Element -> nat -> Css.ComputedStyle.
Variable getBoundingClientRect : Element -> nat -> Rect.
Variable env : Env.
Variable root : Element.

Hypothesis distinct : NoDup (map ident (subtree (tag root))).

(** One visit keeps the invariant of the scheduler. *)
Lemma sched_step (w : Walk) (el : nat) (rest : list nat) :
  walk_inv getBoundingClientRect (pxPageHeight env) (tag root) w ->
  sched_inv (tag root) w ->
  querySelectorAll_star (tag root) = visited (log w) ++ el :: rest ->
  exists w',
    pagebreak_loop getComputedStyle getBoundingClientRect env w el = Some w' /\
    walk_inv getBoundingClientRect (pxPageHeight env) (tag root) w' /\
    sched_inv (tag root) w' /\
    visited (log w') = visited (log w) ++ [el].
Proof.
  intros Hinv Hsch Hsnap.
  assert (HndS : NoDup (querySelectorAll_star (tag root))).
  { rewrite star_subtree in distinct. inversion distinct. assumption. }
  assert (Hel : In el (querySelectorAll_star (tag root))).
  { rewrite Hsnap. apply in_or_app. right. left. reflexivity. }
  assert (HelV : ~ In el (visited (log w))).
  { intros Hin. rewrite Hsnap in HndS. apply NoDup_remove_2 in HndS.
    apply HndS. apply in_or_app. left. exact Hin. }
  destruct (visit_summary getComputedStyle getBoundingClientRect env (tag root)
              w el Hinv Hel)
    as [s [w' [evs [tail [Hs [Hloop [Hinv' [Hg [Hq [Hlog [Hve [Hpe [Hfe
         [Hse [rules Htail]]]]]]]]]]]]]]].
  destruct Hsch as [Sg Sseen Suid Sown Sexec Sfin Sfired Spin Spushed Sfirings].
  set (q := breakAfter w) in *.
  set (V := visited (log w)) in *.
  set (dues := rev (map owner (filter (due s) q))) in *.
  assert (Htl : visited tail = [el] /\ fired tail = [] /\
                (pushed tail = [] \/ pushed tail = [el]) /\
                forall seen, firings seen tail = []).
  { destruct Htail as [-> | [p [h ->]]]; simpl; auto. }
  destruct Htl as [Htv [Htf [Htp Hts]]].
  assert (Hvis' : visited (log w') = V ++ [el]).
  { rewrite Hlog, !visited_app, Hve, Htv. reflexivity. }
  assert (Hfired' : fired (log w') = fired (log w) ++ dues).
  { rewrite Hlog, !fired_app, Hfe, Htf, app_nil_r. reflexivity. }
  assert (Hpushed' : pushed (log w') = pushed (log w) \/
                     pushed (log w') = pushed (log w) ++ [el]).
  { rewrite Hlog, !pushed_app, Hpe. simpl.
    destruct Htp as [-> | ->]; [left; apply app_nil_r | right; reflexivity]. }
  assert (Hfirings' : firings [] (log w')
                      = firings [] (log w) ++ map (fun o => (o, V)) dues).
  { rewrite Hlog, !firings_app, Hse, Hts, app_nil_r. reflexivity. }
  assert (HsD0 : getAttribute_uid (tag root) el = Some s).
  { rewrite <- Hs. symmetry. apply (grows_uid _ _ Sg).
    apply star_le_maxId. exact Hel. }
  assert (Hdues : forall a, In a dues ->
                            exists p, In p q /\ due s p = true /\ owner p = a).
  { intros a Ha. subst dues. apply in_rev, in_map_iff in Ha.
    destruct Ha as [p [E Hp]]. apply filter_In in Hp.
    exists p. tauto. }
  assert (HownV : forall a, In a (map owner q) -> In a V).
  { intros a Ha. apply in_map_iff in Ha. destruct Ha as [p [<- Hp]].
    exact (Sseen p Hp). }
  assert (Hfired_own : forall a, In a (fired (log w')) -> In a (map owner q)).
  { intros a Ha. rewrite Hfired' in Ha. apply in_app_or in Ha.
    destruct Ha as [Ha | Ha]; [exact (Sfin a Ha) |].
    destruct (Hdues a Ha) as [p [Hp [_ <-]]]. apply in_map. exact Hp. }
  assert (Hentry : forall p,
             In p (breakAfter w') ->
             (exists p0, In p0 q /\ p = settle s p0) \/
             p = {| pending_uid := Some s; owner := el; executed := false |}).
  { intros p Hp. rewrite Hq in Hp. apply in_app_or in Hp.
    destruct Hp as [Hp | Hp].
    - left. apply in_map_iff in Hp. destruct Hp as [p0 [<- Hp0]]. eauto.
    - right. destruct (after _); [destruct Hp as [<- | []]; reflexivity |].
      contradiction. }
  exists w'. split; [exact Hloop |]. split; [exact Hinv' |].
  split; [| exact Hvis'].
  constructor.
  - exact (grows_trans _ _ _ Sg Hg).
  - intros p Hp. rewrite Hvis'. apply in_or_app.
    destruct (Hentry p Hp) as [[p0 [Hp0 ->]] | ->].
    + left. rewrite settle_owner1. exact (Sseen p0 Hp0).
    + right. left. reflexivity.
  - intros p Hp. destruct (Hentry p Hp) as [[p0 [Hp0 ->]] | ->].
    + rewrite settle_uid, settle_owner1. exact (Suid p0 Hp0).
    + simpl. symmetry. exact HsD0.
  - rewrite Hq, map_app, settle_owner.
    destruct (after _); simpl; [| rewrite app_nil_r; exact Sown].
    apply NoDup_snoc; [exact Sown |].
    intros Hin. exact (HelV (HownV el Hin)).
  - intros p Hp. destruct (Hentry p Hp) as [[p0 [Hp0 ->]] | ->].
    + rewrite settle_owner1, settle_executed, orb_true_iff, Hfired', in_app_iff.
      split.
      * intros [Hex | Hdue]; [left; apply (Sexec p0 Hp0); exact Hex |].
        right. subst dues. apply -> in_rev. apply in_map.
        apply filter_In. auto.
      * intros [Hin | Hin]; [left; apply (Sexec p0 Hp0); exact Hin |].
        right. destruct (Hdues _ Hin) as [p2 [Hp2 [Hdue E]]].
        rewrite <- (NoDup_map_inj owner q p2 p0 Sown Hp2 Hp0 E). exact Hdue.
    + simpl. split; [discriminate |].
      intros Hin. exfalso. exact (HelV (HownV el (Hfired_own el Hin))).
  - intros a Ha. rewrite Hq, map_app, settle_owner. apply in_or_app. left.
    exact (Hfired_own a Ha).
  - rewrite Hfired'. apply NoDup_app; [exact Sfired | |].
    + subst dues. apply NoDup_rev. apply NoDup_map_filter. exact Sown.
    + intros a Ha Hd. destruct (Hdues a Hd) as [p [Hp [Hdue <-]]].
      apply (Sexec p Hp) in Ha. unfold due in Hdue. rewrite Ha in Hdue.
      discriminate.
  - rewrite Hvis'. destruct Hpushed' as [-> | ->].
    + intros a Ha. apply in_or_app. left. exact (Spin a Ha).
    + apply incl_app; [| intros a [<- | []]; apply in_or_app; right; left;
                         reflexivity].
      intros a Ha. apply in_or_app. left. exact (Spin a Ha).
  - destruct Hpushed' as [-> | ->]; [exact Spushed |].
    apply NoDup_snoc; [exact Spushed |].
    intros Hin. exact (HelV (Spin el Hin)).
  - intros o seen Hin. rewrite Hfirings' in Hin. apply in_app_or in Hin.
    destruct Hin as [Hin | Hin].
    + destruct (Sfirings o seen Hin) as [Ho [Hdesc [el0 [rest0 Hv0]]]].
      split; [exact Ho |]. split; [exact Hdesc |].
      exists el0, (rest0 ++ [el]). rewrite Hvis'. fold V in Hv0.
      rewrite Hv0, <- app_assoc. reflexivity.
    + apply in_map_iff in Hin. destruct Hin as [o0 [E Ho0]].
      injection E as -> <-.
      destruct (Hdues o Ho0) as [p [Hp [Hdue Eo]]].
      assert (HoV : In o V) by (rewrite <- Eo; exact (Sseen p Hp)).
      assert (Hostar : In o (querySelectorAll_star (tag root))).
      { rewrite Hsnap. apply in_or_app. left. exact HoV. }
      split; [exact HoV |]. split; [| exists el, []; exact Hvis'].
      destruct (descendants_block _ _ distinct Hostar)
        as [x [a [b [Hfind [Hx Hblock]]]]].
      apply (block_visited _ V rest a _ b o el HndS Hblock Hsnap HoV).
      intros HelD.
      destruct (descendant_uid root o el distinct Hostar HelD)
        as [ux [v [Uo Uel]]].
      assert (Eu : pending_uid p = Some ux).
      { rewrite (Suid p Hp), Eo. exact Uo. }
      assert (Es : s = (ux ++ v)%string) by congruence.
      unfold due in Hdue. rewrite Eu, Es in Hdue. simpl in Hdue.
      rewrite prefix_append_r, andb_false_r in Hdue. discriminate.
Qed.

(** The loop keeps the invariant of the scheduler. *)
Lemma sched_forEach (els : list nat) :
  forall w,
    walk_inv getBoundingClientRect (pxPageHeight env) (tag root) w ->
    sched_inv (tag root) w ->
    querySelectorAll_star (tag root) = visited (log w) ++ els ->
    exists w',
      forEach_el getComputedStyle getBoundingClientRect env els w = Some w' /\
      walk_inv getBoundingClientRect (pxPageHeight env) (tag root) w' /\
      sched_inv (tag root) w' /\
      visited (log w') = visited (log w) ++ els.
Proof.
  induction els as [| el els IH]; intros w Hinv Hsch Hsnap; simpl.
  - exists w. rewrite app_nil_r. auto.
  - destruct (sched_step w el els Hinv Hsch Hsnap)
      as [w1 [Hloop [Hinv1 [Hsch1 Hv1]]]].
    rewrite Hloop. simpl.
    destruct (IH w1 Hinv1 Hsch1) as [w' [Hrun [Hinv' [Hsch' Hv']]]].
    { rewrite Hv1, <- app_assoc. exact Hsnap. }
    exists w'. rewrite Hv', Hv1, <- app_assoc. auto.
Qed.

(** The loop only makes the document grow. *)
Lemma forEach_grows (els : list nat) :
  forall w,
    walk_inv getBoundingClientRect (pxPageHeight env) (tag root) w ->
    incl els (querySelectorAll_star (tag root)) ->
    exists w',
      forEach_el getComputedStyle getBoundingClientRect env els w = Some w' /\
      grows (dom w) (dom w').
Proof.
  induction els as [| el els IH]; intros w Hinv Hincl; simpl.
  - exists w. split; [reflexivity | apply grows_refl].
  - destruct (visit_summary getComputedStyle getBoundingClientRect env
                (tag root) w el Hinv (Hincl el (or_introl eq_refl)))
      as [s [w1 [evs [tail [_ [Hloop [Hinv1 [Hg _]]]]]]]].
    rewrite Hloop. simpl.
    destruct (IH w1 Hinv1) as [w' [Hrun Hg']].
    { intros x Hx. apply Hincl. right. exact Hx. }
    exists w'. split; [exact Hrun | exact (grows_trans _ _ _ Hg Hg')].
Qed.
End SchedFacts.

Lemma initial_sched (root : Element) : sched_inv (tag root) (walk_start root).
Proof.
  constructor; simpl.
  - apply grows_refl.
  - intros p [].
  - intros p [].
  - constructor.
  - intros p [].
  - intros a [].
  - constructor.
  - intros a [].
  - constructor.
  - intros o seen [].
Qed.

Lemma tag_distinct (root : Element) :
  NoDup (map ident (subtree root)) -> NoDup (map ident (subtree (tag root))).
Proof.
  intros Hnd. rewrite <- ids_outline_subtree.
  destruct (tag_shape root "0") as [Hi _]. fold (tag root) in Hi.
  rewrite Hi, ids_outline_subtree. exact Hnd.
Qed.

Lemma fired_firings (l : list Event) :
  forall seen, map fst (firings seen l) = fired l.
Proof.
  induction l as [| [el r | o p h | el p h] l IH]; intros seen; simpl;
    try rewrite IH; reflexivity.
Qed.

Section SchedulerFacts.
Variable getComputedStyle : Element -> nat -> Css.ComputedStyle.
Variable getBoundingClientRect : Element -> nat -> Rect.
Variable querySelectorAll : Element -> string -> option (list nat).

(** A pass over a container with distinct identities ends in a state that
    satisfies the invariant of the scheduler. *)
Lemma pass_sched (opt : PagebreakOpt) (root : Element) (H : Z) (env : Env) :
  NoDup (map ident (subtree root)) ->
  setup querySelectorAll opt root H = Some env ->
  exists w,
    toContainer_pagebreak getComputedStyle getBoundingClientRect
      querySelectorAll opt root H = Some w /\
    sched_inv (tag root) w /\
    visited (log w) = querySelectorAll_star root.
Proof.
  intros Hnd Hsetup. unfold toContainer_pagebreak. rewrite Hsetup. simpl bind.
  destruct (sched_forEach getComputedStyle getBoundingClientRect env root
              (tag_distinct root Hnd) (querySelectorAll_star (tag root))
              (walk_start root))
    as [w [Hrun [_ [Hsch Hv]]]].
  - apply initial_inv.
  - apply initial_sched.
  - reflexivity.
  - exists w. simpl in Hv. rewrite tag_star in Hv. auto.
Qed.

(** In a pass over a container with distinct identities no queued closure
    runs twice and no element is pushed twice: an element gets at most one
    spacer after it and at most one before it.  At the end an entry of the
    queue is marked executed exactly when its closure ran. *)
Theorem spacers_at_most_once (opt : PagebreakOpt) (root : Element) (H : Z)
    (env : Env) :
  NoDup (map ident (subtree root)) ->
  setup querySelectorAll opt root H = Some env ->
  exists w,
    toContainer_pagebreak getComputedStyle getBoundingClientRect
      querySelectorAll opt root H = Some w /\
    NoDup (fired (log w)) /\
    NoDup (pushed (log w)) /\
    NoDup (map owner (breakAfter w)) /\
    forall p, In p (breakAfter w) ->
              (executed p = true <-> In (owner p) (fired (log w))).
Proof.
  intros Hnd Hsetup.
  destruct (pass_sched opt root H env Hnd Hsetup) as [w [Hrun [Hsch _]]].
  exists w. split; [exact Hrun |].
  destruct Hsch as [Sg Sseen Suid Sown Sexec Sfin Sfired Spin Spushed Sfirings].
  auto.
Qed.

(** In a pass over a container with distinct identities a queued closure
    runs only once the walk has left the subtree of its owner: when it runs,
    the owner and every descendant of the owner have been visited, and the
    visit under way is that of a later element of the snapshot. *)
Theorem after_spacer_waits_for_subtree (opt : PagebreakOpt) (root : Element)
    (H : Z) (env : Env) :
  NoDup (map ident (subtree root)) ->
  setup querySelectorAll opt root H = Some env ->
  exists w,
    toContainer_pagebreak getComputedStyle getBoundingClientRect
      querySelectorAll opt root H = Some w /\
    forall o seen,
      In (o, seen) (firings [] (log w)) ->
      In o seen /\
      incl (descendants (tag root) o) seen /\
      exists el rest, querySelectorAll_star root = seen ++ el :: rest.
Proof.
  intros Hnd Hsetup.
  destruct (pass_sched opt root H env Hnd Hsetup) as [w [Hrun [Hsch Hv]]].
  exists w. split; [exact Hrun |].
  intros o seen Hin. rewrite <- Hv. exact (sch_firings _ _ Hsch o seen Hin).
Qed.

(** The pass never changes a uid: at the end every element of the container
    has the uid the tagger gave it (and an identity the container does not
    use has none). *)
Theorem uids_stable (opt : PagebreakOpt) (root : Element) (H : Z) (env : Env) :
  setup querySelectorAll opt root H = Some env ->
  exists w,
    toContainer_pagebreak getComputedStyle getBoundingClientRect
      querySelectorAll opt root H = Some w /\
    forall i, i <= maxId root ->
              getAttribute_uid (dom w) i = getAttribute_uid (tag root) i.
Proof.
  intros Hsetup. unfold toContainer_pagebreak. rewrite Hsetup. simpl bind.
  destruct (forEach_grows getComputedStyle getBoundingClientRect env root
              (querySelectorAll_star (tag root)) (walk_start root))
    as [w [Hrun Hg]].
  - apply initial_inv.
  - apply incl_refl.
  - exists w. split; [exact Hrun |].
    intros i Hi. apply (grows_uid _ _ Hg). simpl. rewrite tag_maxId. exact Hi.
Qed.
End SchedulerFacts.

Section ClosingFacts.
Variable getComputedStyle : Element -> nat -> Css.ComputedStyle.
Variable getBoundingClientRect : Element -> nat -> Rect.
Variable querySelectorAll : Element -> string -> option (list nat).

(** In a pass over a container with distinct identities, an element whose
    subtree closes the document (no element follows its last descendant) gets
    no spacer after it: if the pass queued an entry for it, the entry is left
    unexecuted. *)
Theorem closing_subtree_never_fires (opt : PagebreakOpt) (root : Element)
    (H : Z) (env : Env) (o : nat) (a : list nat) :
  NoDup (map ident (subtree root)) ->
  setup querySelectorAll opt root H = Some env ->
  querySelectorAll_star root = a ++ o :: descendants (tag root) o ->
  exists w,
    toContainer_pagebreak getComputedStyle getBoundingClientRect
      querySelectorAll opt root H = Some w /\
    ~ In o (fired (log w)) /\
    forall p, In p (breakAfter w) -> owner p = o -> executed p = false.
Proof.
  intros Hnd Hsetup Hclose.
  destruct (pass_sched getComputedStyle getBoundingClientRect querySelectorAll
              opt root H env Hnd Hsetup) as [w [Hrun [Hsch Hv]]].
  exists w. split; [exact Hrun |].
  assert (HndS : NoDup (querySelectorAll_star root)).
  { rewrite star_subtree in Hnd. inversion Hnd. assumption. }
  assert (Hnot : ~ In o (fired (log w))).
  { intros Hin. rewrite <- (fired_firings (log w) []) in Hin.
    apply in_map_iff in Hin. destruct Hin as [[o' seen] [Eo Hin]].
    simpl in Eo. subst o'.
    destruct (sch_firings _ _ Hsch o seen Hin) as [Ho [Hdesc [el [rest Hvis]]]].
    rewrite Hv in Hvis.
    assert (Hel : ~ In el seen).
    { intros Hin'. rewrite Hvis in HndS. apply NoDup_remove_2 in HndS.
      apply HndS. apply in_or_app. left. exact Hin'. }
    apply in_split in Ho. destruct Ho as [s1 [s2 Es]].
    rewrite Es, <- app_assoc in Hvis. simpl in Hvis.
    rewrite Hclose in Hvis. rewrite Hclose in HndS.
    destruct (NoDup_split_unique _ _ _ _ _ HndS Hvis) as [_ Ed].
    apply Hel, Hdesc. rewrite Ed. apply in_or_app. right. left. reflexivity. }
  split; [exact Hnot |].
  intros p Hp Eo. destruct (executed p) eqn:Hex; [| reflexivity].
  exfalso. apply Hnot. rewrite <- Eo. apply (sch_executed _ _ Hsch p Hp).
  exact Hex.
Qed.
End ClosingFacts.

Lemma doc_nested_distinct : NoDup (map ident (subtree doc_nested)).
Proof.
  simpl. repeat (constructor; [simpl; intuition discriminate |]). constructor.
Qed.

Lemma doc_tail_distinct : NoDup (map ident (subtree doc_tail)).
Proof.
  simpl. repeat (constructor; [simpl; intuition discriminate |]). constructor.
Qed.

(** The nested example, as a whole pass: both closures run, each once. *)
Lemma spacers_at_most_once_witness :
  exists w,
    toContainer_pagebreak style_none (block_rect own_100 0) (query_target [1; 2])
      opt_after_target doc_nested 1000 = Some w /\
    NoDup (fired (log w)) /\
    NoDup (pushed (log w)).
Proof.
  destruct (spacers_at_most_once style_none (block_rect own_100 0)
              (query_target [1; 2]) opt_after_target doc_nested 1000 _
              doc_nested_distinct eq_refl)
    as [w [Hrun [Hf [Hp _]]]].
  exists w. auto.
Defined.

Lemma after_spacer_waits_for_subtree_witness :
  exists w,
    toContainer_pagebreak style_none (block_rect own_100 0) (query_target [1; 2])
      opt_after_target doc_nested 1000 = Some w /\
    forall o seen,
      In (o, seen) (firings [] (log w)) ->
      In o seen /\
      incl (descendants (tag doc_nested) o) seen /\
      exists el rest, querySelectorAll_star doc_nested = seen ++ el :: rest.
Proof.
  exact (after_spacer_waits_for_subtree style_none (block_rect own_100 0)
           (query_target [1; 2]) opt_after_target doc_nested 1000 _
           doc_nested_distinct eq_refl).
Defined.

Lemma uids_stable_witness :
  exists w,
    toContainer_pagebreak style_none (block_rect own_straddle 0) query_none
      opt_avoid_all doc_straddle 1000 = Some w /\
    forall i, i <= maxId doc_straddle ->
              getAttribute_uid (dom w) i = getAttribute_uid (tag doc_straddle) i.
Proof.
  exact (uids_stable style_none (block_rect own_straddle 0) query_none
           opt_avoid_all doc_straddle 1000 _ eq_refl).
Defined.

(** The marked element of [doc_tail] and its child close the document. *)
Lemma closing_subtree_never_fires_witness :
  exists w,
    toContainer_pagebreak style_none (block_rect own_100 0) query_none
      default_opt doc_tail 1000 = Some w /\
    ~ In 2 (fired (log w)).
Proof.
  destruct (closing_subtree_never_fires style_none (block_rect own_100 0)
              query_none default_opt doc_tail 1000 _ 2 [1]
              doc_tail_distinct eq_refl eq_refl)
    as [w [Hrun [Hnot _]]].
  exists w. auto.
Defined.

(** ** What the rules decide *)

Lemma no_pad_events (l : list Event) :
  fired l = [] -> pushed l = [] -> heights l = [] /\ pads l = [].
Proof.
  induction l as [| [el r | o p h | el p h] l IH]; simpl; intros Hf Hp;
    try discriminate; auto.
Qed.

Lemma filter_none {A : Type} (l : list A) : filter (fun _ => false) l = [].
Proof. induction l as [| x l IH]; simpl; auto. Qed.

(** A walk that inserted nothing left the document as it was. *)
Lemma quiet_walk_dom (getBoundingClientRect : Element -> nat -> Rect) (H : Z)
    (D0 : Element) (w : Walk) :
  walk_inv getBoundingClientRect H D0 w ->
  heights (log w) = [] ->
  dom w = D0.
Proof.
  intros Hinv Hh.
  rewrite <- (inv_frame _ _ _ _ Hinv). symmetry. apply drop_above_all.
  rewrite maxId_list_max. apply list_max_le. apply Forall_forall.
  intros i Hi. rewrite outline_children in Hi. destruct Hi as [<- | Hi].
  - rewrite (inv_root _ _ _ _ Hinv).
    apply ids_le_maxId. rewrite outline_children. left. reflexivity.
  - apply in_map_iff in Hi. destruct Hi as [s [<- Hs]].
    destruct (Nat.le_gt_cases (shallow_id s) (maxId D0)) as [Hle | Hgt];
      [exact Hle |].
    destruct (inv_spacers _ _ _ _ Hinv s Hs Hgt) as [h [_ Hin]].
    rewrite Hh in Hin. contradiction.
Qed.

Section RuleFacts.
Variable getComputedStyle : Element -> nat -> Css.ComputedStyle.
Variable getBoundingClientRect : Element -> nat -> Rect.
Variable env : Env.
Variable D0 : Element.
Variable wants : nat -> bool.

Hypothesis rules_before_only :
  forall doc el, rules_of getComputedStyle env doc el = before_only (wants el).

(** When the rules only ever ask for breaks before, the loop queues nothing,
    runs no closure and pushes exactly the elements that ask. *)
Lemma forEach_before_only (els : list nat) :
  forall w,
    walk_inv getBoundingClientRect (pxPageHeight env) D0 w ->
    breakAfter w = [] ->
    incl els (querySelectorAll_star D0) ->
    exists w',
      forEach_el getComputedStyle getBoundingClientRect env els w = Some w' /\
      walk_inv getBoundingClientRect (pxPageHeight env) D0 w' /\
      breakAfter w' = [] /\
      fired (log w') = fired (log w) /\
      pushed (log w') = pushed (log w) ++ filter wants els.
Proof.
  induction els as [| el els IH]; intros w Hinv Hq Hincl; simpl.
  - exists w. rewrite app_nil_r. auto.
  - destruct (pagebreak_loop_inv getComputedStyle getBoundingClientRect env D0
                w el Hinv (Hincl el (or_introl eq_refl)))
      as [s [w1 [w' [Hs [Hrun [Hinv1 [Hf [Hv [Hp [Hloop [Hq' [Hinv' Hcases]]]]]]]]]]]].
    rewrite Hq in Hrun, Hf. simpl in Hrun, Hf. injection Hrun as <-.
    rewrite rules_before_only in Hq', Hcases. simpl in Hq'.
    rewrite Hq, app_nil_r in Hq'.
    assert (Hav : forall r, avoid_pass (pxPageHeight env) r (before_only (wants el))
                            = before_only (wants el)) by reflexivity.
    cbv zeta in Hcases. rewrite Hav in Hcases. simpl in Hcases.
    rewrite Hloop. simpl.
    destruct (IH w' Hinv' Hq') as [w'' [Hrun' [Hinv'' [Hq'' [Hf'' Hp'']]]]].
    { intros x Hx. apply Hincl. right. exact Hx. }
    exists w''. split; [exact Hrun' |]. split; [exact Hinv'' |].
    split; [exact Hq'' |].
    destruct Hcases as [Hyes Hno]. rewrite Hf'', Hp''.
    destruct (wants el).
    + destruct (Hyes eq_refl) as [Hlog _]. rewrite Hlog, fired_app, pushed_app.
      simpl. rewrite app_nil_r, <- app_assoc. auto.
    + destruct (Hno eq_refl) as [Hlog _]. rewrite Hlog, fired_app, pushed_app.
      simpl. rewrite !app_nil_r. auto.
Qed.
End RuleFacts.

Section RequestFacts.
Variable getComputedStyle : Element -> nat -> Css.ComputedStyle.
Variable getBoundingClientRect : Element -> nat -> Rect.
Variable querySelectorAll : Element -> string -> option (list nat).

(** When no element resolves to any rule, the pass tags the container and
    does nothing else: no spacer, nothing queued. *)
Theorem nothing_requested_only_tags (opt : PagebreakOpt) (root : Element)
    (H : Z) (env : Env) :
  setup querySelectorAll opt root H = Some env ->
  (forall doc el,
      resolve_rules (mode env) (legacyEls env) (select env)
        (getComputedStyle doc el) el = no_rules) ->
  exists w,
    toContainer_pagebreak getComputedStyle getBoundingClientRect
      querySelectorAll opt root H = Some w /\
    dom w = tag root /\
    breakAfter w = [] /\
    pads (log w) = [].
Proof.
  intros Hsetup Hrules.
  pose proof (setup_pxPageHeight _ _ _ _ _ Hsetup) as HH.
  unfold toContainer_pagebreak. rewrite Hsetup. simpl bind.
  destruct (forEach_before_only getComputedStyle getBoundingClientRect env
              (tag root) (fun _ => false) Hrules
              (querySelectorAll_star (tag root)) (walk_start root))
    as [w [Hrun [Hinv [Hq [Hf Hp]]]]].
  - apply initial_inv.
  - reflexivity.
  - apply incl_refl.
  - exists w. split; [exact Hrun |]. simpl in Hf, Hp.
    assert (Hp' : pushed (log w) = []).
    { rewrite Hp. apply filter_none. }
    destruct (no_pad_events _ Hf Hp') as [Hh Hpads].
    split; [exact (quiet_walk_dom _ _ _ _ Hinv Hh) | auto].
Qed.

(** With none of the three modes and only [before] selectors, the elements
    pushed to the next page are exactly the selected ones, in document order;
    no closure is queued or run. *)
Theorem explicit_before_only (opt : PagebreakOpt) (root : Element) (H : Z)
    (env : Env) :
  mode_of (opt_mode opt) = mode_of [] ->
  opt_after opt = [] ->
  opt_avoid opt = [] ->
  setup querySelectorAll opt root H = Some env ->
  exists w,
    toContainer_pagebreak getComputedStyle getBoundingClientRect
      querySelectorAll opt root H = Some w /\
    pushed (log w)
    = filter (includes_el (sel_before (select env))) (querySelectorAll_star root) /\
    fired (log w) = [] /\
    breakAfter w = [].
Proof.
  intros Hmode Ha Hv Hsetup.
  assert (Hrules : forall doc el,
             rules_of getComputedStyle env doc el
             = before_only (includes_el (sel_before (select env)) el)).
  { intros doc el. unfold setup, select_of in Hsetup.
    rewrite Hmode, Ha, Hv in Hsetup.
    destruct (select_key querySelectorAll root false (opt_before opt));
      simpl in Hsetup; [| discriminate].
    injection Hsetup as <-. reflexivity. }
  unfold toContainer_pagebreak. rewrite Hsetup. simpl bind.
  destruct (forEach_before_only getComputedStyle getBoundingClientRect env
              (tag root) _ Hrules
              (querySelectorAll_star (tag root)) (walk_start root))
    as [w [Hrun [Hinv [Hq [Hf Hp]]]]].
  - apply initial_inv.
  - reflexivity.
  - apply incl_refl.
  - exists w. simpl in Hf, Hp. rewrite tag_star in Hp. auto.
Qed.
End RequestFacts.

(** The default options on a document without markers or break styles. *)
Lemma nothing_requested_only_tags_witness :
  exists w,
    toContainer_pagebreak style_none (block_rect own_straddle 0) query_none
      default_opt doc_straddle 1000 = Some w /\
    dom w = tag doc_straddle.
Proof.
  destruct (nothing_requested_only_tags style_none (block_rect own_straddle 0)
              query_none default_opt doc_straddle 1000 _ eq_refl)
    as [w [Hrun [Hdom _]]].
  - intros doc el. reflexivity.
  - exists w. auto.
Defined.

(** Scenario 5: only the element matching "#target" is pushed. *)
Lemma explicit_before_only_witness :
  exists w,
    toContainer_pagebreak style_none (block_rect own_straddle 0)
      (query_target [2]) opt_before_target doc_straddle 1000 = Some w /\
    pushed (log w) = [2].
Proof.
  destruct (explicit_before_only style_none (block_rect own_straddle 0)
              (query_target [2]) opt_before_target doc_straddle 1000 _
              eq_refl eq_refl eq_refl eq_refl)
    as [w [Hrun [Hp _]]].
  exists w. split; [exact Hrun | exact Hp].
Defined.

(** ** The pass depends on the options through the rules only *)

Section RulesOnly.
Variable getComputedStyle getComputedStyle' : Element -> nat -> Css.ComputedStyle.
Variable getBoundingClientRect : Element -> nat -> Rect.
Variable env env' : Env.

Hypothesis same_height : pxPageHeight env' = pxPageHeight env.
Hypothesis same_rules :
  forall doc el,
    rules_of getComputedStyle' env' doc el = rules_of getComputedStyle env doc el.

Lemma run_pending_ext (batch : list (nat * Pending)) :
  forall w,
    run_pending getBoundingClientRect env' batch w
    = run_pending getBoundingClientRect env batch w.
Proof.
  induction batch as [| [i p] batch IH]; intros w; simpl; [reflexivity |].
  unfold run_after. rewrite same_height.
  destruct (insertAt _ _ _ _); simpl; [apply IH | reflexivity].
Qed.

Lemma pagebreak_loop_ext (w : Walk) (el : nat) :
  pagebreak_loop getComputedStyle' getBoundingClientRect env' w el
  = pagebreak_loop getComputedStyle getBoundingClientRect env w el.
Proof.
  unfold pagebreak_loop. rewrite same_rules.
  destruct (pendingBreakAfters _ _) as [batch |]; simpl; [| reflexivity].
  rewrite run_pending_ext.
  destruct (run_pending _ _ _ _) as [w1 |]; simpl; [| reflexivity].
  unfold pad_before. rewrite same_height. reflexivity.
Qed.

Lemma forEach_el_ext (els : list nat) :
  forall w,
    forEach_el getComputedStyle' getBoundingClientRect env' els w
    = forEach_el getComputedStyle getBoundingClientRect env els w.
Proof.
  induction els as [| el els IH]; intros w; simpl; [reflexivity |].
  rewrite pagebreak_loop_ext.
  destruct (pagebreak_loop _ _ _ _ _); simpl; [apply IH | reflexivity].
Qed.
End RulesOnly.

(** A legacy marker is a computed [page-break-after: always] by another
    name: the pass in legacy mode, whatever the computed styles, does to the
    container exactly what the pass in css mode does on a host that reports
    that style for the marked elements and no other break property. *)
Theorem legacy_like_css_after
    (getComputedStyle : Element -> nat -> Css.ComputedStyle)
    (getBoundingClientRect : Element -> nat -> Rect)
    (querySelectorAll : Element -> string -> option (list nat))
    (root : Element) (H : Z) :
  toContainer_pagebreak getComputedStyle getBoundingClientRect querySelectorAll
    opt_legacy root H
  = toContainer_pagebreak
      (style_after (querySelectorAll_class "html2pdf__page-break" root))
      getBoundingClientRect querySelectorAll opt_css root H.
Proof.
  unfold toContainer_pagebreak, setup. simpl bind.
  apply forEach_el_ext; [reflexivity |].
  intros doc el. unfold rules_of, resolve_rules, rules_select, rules_css,
                   rules_init, style_after. simpl.
  destruct (includes_el _ el); reflexivity.
Qed.

(** ** The scheduler on a narrow document *)

(** In a narrow tagged document with distinct identities, a uid that
    extends the uid of [o] belongs to [o] or to one of its descendants. *)
Lemma prefix_descendant (root : Element) (o el : nat) (uo ue : string) :
  narrow root ->
  NoDup (map ident (subtree (tag root))) ->
  In o (querySelectorAll_star (tag root)) ->
  In el (querySelectorAll_star (tag root)) ->
  getAttribute_uid (tag root) o = Some uo ->
  getAttribute_uid (tag root) el = Some ue ->
  String.prefix uo ue = true ->
  el = o \/ In el (descendants (tag root) o).
Proof.
  intros Hn Hnd Ho Hel Uo Ue Hp.
  destruct (tagged_well_pathed root "0" Hn) as [[_ [P _]] _].
  fold (tag root) in P.
  destruct (descendants_block _ _ Hnd Ho) as [x [a [b [Hfx [Hx _]]]]].
  destruct (descendants_block _ _ Hnd Hel) as [y [a' [b' [Hfy [Hy _]]]]].
  assert (Hx' : In x (subtree (tag root)))
    by (rewrite subtree_children; right; exact Hx).
  assert (Hy' : In y (subtree (tag root)))
    by (rewrite subtree_children; right; exact Hy).
  unfold getAttribute_uid in Uo, Ue. rewrite Hfx in Uo. rewrite Hfy in Ue.
  pose proof (P x y uo ue Hx' Hy' Uo Ue Hp) as Hin.
  destruct (findEl_In _ _ _ Hfx) as [_ Ex].
  destruct (findEl_In _ _ _ Hfy) as [_ Ey].
  apply (in_map ident) in Hin. rewrite star_subtree, Ex, Ey in Hin.
  destruct Hin as [E | Hin]; [left; auto | right].
  unfold descendants. rewrite Hfx. exact Hin.
Qed.

Lemma NoDup_app_tail {A : Type} (l l' : list A) (x : A) :
  NoDup (l ++ x :: l') -> ~ In x l.
Proof.
  intros Hnd Hin. apply NoDup_remove_2 in Hnd. apply Hnd.
  apply in_or_app. left. exact Hin.
Qed.

(** A list of descendants that follows the owner in the snapshot and is
    itself followed by an element that is no descendant is the whole block. *)
Lemma block_exact {A : Type} (S0 a a' d D b R : list A) (o el : A) :
  NoDup S0 ->
  S0 = a' ++ o :: D ++ b ->
  S0 = a ++ o :: d ++ el :: R ->
  incl d D ->
  ~ In el D ->
  d = D.
Proof.
  intros Hnd Eblock Evis Hd Hel.
  rewrite Eblock in Evis. rewrite Eblock in Hnd.
  destruct (NoDup_split_unique _ _ _ _ _ Hnd Evis) as [_ E].
  apply NoDup_remove_1, NoDup_app_remove_l in Hnd.
  symmetry in E. apply app_eq_app in E. destruct E as [l [[E1 E2] | [E1 E2]]].
  - destruct l as [| x l]; [rewrite app_nil_r in E1; exact E1 |].
    exfalso. simpl in E2. subst b.
    assert (Hx : In x D) by (apply Hd; rewrite E1; apply in_or_app; right;
                            left; reflexivity).
    apply in_split in Hx. destruct Hx as [D1 [D2 ->]].
    rewrite <- app_assoc in Hnd. simpl in Hnd.
    apply NoDup_remove_2 in Hnd. apply Hnd.
    apply in_or_app. right. apply in_or_app. right. left. reflexivity.
  - destruct l as [| x l]; [rewrite app_nil_r in E1; symmetry; exact E1 |].
    exfalso. simpl in E2. injection E2 as -> E2. apply Hel. rewrite E1.
    apply in_or_app. right. left. reflexivity.
Qed.

Section ExitFacts.
Variable getComputedStyle : Element -> nat -> Css.ComputedStyle.
Variable getBoundingClientRect : Element -> nat -> Rect.
Variable env : Env.
Variable root : Element.

Hypothesis distinct : NoDup (map ident (subtree (tag root))).
Hypothesis thin : narrow root.

(** One visit keeps [exit_inv]. *)
Lemma exit_step (w w' : Walk) (el : nat) (rest : list nat) :
  walk_inv getBoundingClientRect (pxPageHeight env) (tag root) w ->
  sched_inv (tag root) w ->
  exit_inv (tag root) w ->
  querySelectorAll_star (tag root) = visited (log w) ++ el :: rest ->
  pagebreak_loop getComputedStyle getBoundingClientRect env w el = Some w' ->
  exit_inv (tag root) w'.
Proof.
  intros Hinv Hsch [Ewait Efir] Hsnap Hloop'.
  assert (HndS : NoDup (querySelectorAll_star (tag root))).
  { rewrite star_subtree in distinct. inversion distinct. assumption. }
  assert (Hel : In el (querySelectorAll_star (tag root))).
  { rewrite Hsnap. apply in_or_app. right. left. reflexivity. }
  assert (HelV : ~ In el (visited (log w))).
  { rewrite Hsnap in HndS. exact (NoDup_app_tail _ _ _ HndS). }
  destruct (visit_summary getComputedStyle getBoundingClientRect env (tag root)
              w el Hinv Hel)
    as [s [w0 [evs [tail [Hs [Hloop [Hinv' [Hg [Hq [Hlog [Hve [Hpe [Hfe
         [Hse [rules Htail]]]]]]]]]]]]]]].
  rewrite Hloop' in Hloop. injection Hloop as <-.
  destruct Hsch as [Sg Sseen Suid Sown Sexec Sfin Sfired Spin Spushed Sfirings].
  set (q := breakAfter w) in *.
  set (V := visited (log w)) in *.
  set (dues := rev (map owner (filter (due s) q))) in *.
  assert (Htl : visited tail = [el] /\ forall seen, firings seen tail = []).
  { destruct Htail as [-> | [p [h ->]]]; simpl; auto. }
  destruct Htl as [Htv Hts].
  assert (Hvis' : visited (log w') = V ++ [el]).
  { rewrite Hlog, !visited_app, Hve, Htv. reflexivity. }
  assert (Hfirings' : firings [] (log w')
                      = firings [] (log w) ++ map (fun o => (o, V)) dues).
  { rewrite Hlog, !firings_app, Hse, Hts, app_nil_r. reflexivity. }
  assert (HsD0 : getAttribute_uid (tag root) el = Some s).
  { rewrite <- Hs. symmetry. apply (grows_uid _ _ Sg).
    apply star_le_maxId. exact Hel. }
  assert (Hstar : forall p, In p q -> In (owner p) (querySelectorAll_star (tag root))).
  { intros p Hp. rewrite Hsnap. apply in_or_app. left. exact (Sseen p Hp). }
  assert (Huid : forall p, In p q ->
                           exists uo, pending_uid p = Some uo /\
                                      getAttribute_uid (tag root) (owner p) = Some uo).
  { intros p Hp. pose proof (Hstar p Hp) as Ho. rewrite tag_star in Ho.
    destruct (tag_uid_set root _ Ho) as [uo Uo].
    exists uo. rewrite (Suid p Hp). auto. }
  constructor.
  - intros p Hp Hex. rewrite Hq in Hp. apply in_app_or in Hp.
    rewrite Hvis'. destruct Hp as [Hp | Hp].
    + apply in_map_iff in Hp. destruct Hp as [p0 [<- Hp0]].
      rewrite settle_executed in Hex. apply orb_false_iff in Hex.
      destruct Hex as [Hex Hdue]. rewrite settle_owner1.
      destruct (Ewait p0 Hp0 Hex) as [a [d [EV Hd]]].
      destruct (Huid p0 Hp0) as [uo [Eu Uo]].
      unfold due in Hdue. rewrite Hex, Eu in Hdue. simpl in Hdue.
      apply negb_false_iff in Hdue.
      destruct (prefix_descendant root (owner p0) el uo s thin distinct
                  (Hstar p0 Hp0) Hel Uo HsD0 Hdue) as [E | Hin].
      * exfalso. apply HelV. rewrite E. exact (Sseen p0 Hp0).
      * exists a, (d ++ [el]). fold V in EV. rewrite EV, <- app_assoc.
        split; [reflexivity |].
        apply incl_app; [exact Hd | intros x [<- | []]; exact Hin].
    + destruct (after _); [| contradiction].
      destruct Hp as [<- | []]. simpl.
      exists V, []. split; [reflexivity | intros x []].
  - intros o seen Hin. rewrite Hfirings' in Hin. apply in_app_or in Hin.
    destruct Hin as [Hin | Hin]; [exact (Efir o seen Hin) |].
    apply in_map_iff in Hin. destruct Hin as [o0 [E Ho0]].
    injection E as -> <-. subst dues.
    apply in_rev, in_map_iff in Ho0. destruct Ho0 as [p [Eo Hp]].
    apply filter_In in Hp. destruct Hp as [Hp Hdue].
    assert (Hex : executed p = false).
    { unfold due in Hdue. apply andb_true_iff in Hdue.
      destruct Hdue as [Hdue _]. apply negb_true_iff in Hdue. exact Hdue. }
    destruct (Ewait p Hp Hex) as [a [d [EV Hd]]]. rewrite Eo in EV, Hd.
    fold V in EV.
    assert (Hostar : In o (querySelectorAll_star (tag root)))
      by (rewrite <- Eo; exact (Hstar p Hp)).
    destruct (descendants_block _ _ distinct Hostar)
      as [x [a' [b [Hfind [Hx Hblock]]]]].
    assert (HelD : ~ In el (descendants (tag root) o)).
    { intros HelD.
      destruct (descendant_uid root o el distinct Hostar HelD)
        as [ux [v [Uo Uel]]].
      assert (Eu : pending_uid p = Some ux).
      { rewrite (Suid p Hp), Eo. exact Uo. }
      assert (Es : s = (ux ++ v)%string) by congruence.
      unfold due in Hdue. rewrite Eu, Es in Hdue. simpl in Hdue.
      rewrite prefix_append_r, andb_false_r in Hdue. discriminate. }
    exists a. rewrite EV. f_equal. f_equal.
    apply (block_exact (querySelectorAll_star (tag root)) a a' d _ b rest o el
             HndS Hblock); [| exact Hd | exact HelD].
    rewrite Hsnap, EV, <- app_assoc. reflexivity.
Qed.

(** The loop keeps both invariants. *)
Lemma exit_forEach (els : list nat) :
  forall w,
    walk_inv getBoundingClientRect (pxPageHeight env) (tag root) w ->
    sched_inv (tag root) w ->
    exit_inv (tag root) w ->
    querySelectorAll_star (tag root) = visited (log w) ++ els ->
    exists w',
      forEach_el getComputedStyle getBoundingClientRect env els w = Some w' /\
      sched_inv (tag root) w' /\
      exit_inv (tag root) w' /\
      visited (log w') = visited (log w) ++ els.
Proof.
  induction els as [| el els IH]; intros w Hinv Hsch Hexit Hsnap; simpl.
  - exists w. rewrite app_nil_r. auto.
  - destruct (sched_step getComputedStyle getBoundingClientRect env root
                distinct w el els Hinv Hsch Hsnap)
      as [w1 [Hloop [Hinv1 [Hsch1 Hv1]]]].
    pose proof (exit_step w w1 el els Hinv Hsch Hexit Hsnap Hloop) as Hexit1.
    rewrite Hloop. simpl.
    destruct (IH w1 Hinv1 Hsch1 Hexit1) as [w' [Hrun [Hsch' [Hexit' Hv']]]].
    { rewrite Hv1, <- app_assoc. exact Hsnap. }
    exists w'. rewrite Hv', Hv1, <- app_assoc. auto.
Qed.
End ExitFacts.

Lemma initial_exit (root : Element) : exit_inv (tag root) (walk_start root).
Proof.
  constructor; simpl.
  - intros p [].
  - intros o seen [].
Qed.

(** An owner whose subtree closes the document has not fired. *)
Lemma closing_not_fired (D0 : Element) (w : Walk) (o : nat) (a : list nat) :
  sched_inv D0 w ->
  NoDup (visited (log w)) ->
  visited (log w) = a ++ o :: descendants D0 o ->
  ~ In o (fired (log w)).
Proof.
  intros Hsch HndS Hclose Hin.
  rewrite <- (fired_firings (log w) []) in Hin.
  apply in_map_iff in Hin. destruct Hin as [[o' seen] [Eo Hin]].
  simpl in Eo. subst o'.
  destruct (sch_firings _ _ Hsch o seen Hin) as [Ho [Hdesc [el [rest Hvis]]]].
  assert (Hel : ~ In el seen).
  { rewrite Hvis in HndS. exact (NoDup_app_tail _ _ _ HndS). }
  apply in_split in Ho. destruct Ho as [s1 [s2 Es]].
  rewrite Es, <- app_assoc in Hvis. simpl in Hvis.
  rewrite Hclose in Hvis. rewrite Hclose in HndS.
  destruct (NoDup_split_unique _ _ _ _ _ HndS Hvis) as [_ Ed].
  apply Hel, Hdesc. rewrite Ed. apply in_or_app. right. left. reflexivity.
Qed.

Section FirstExit.
Variable getComputedStyle : Element -> nat -> Css.ComputedStyle.
Variable getBoundingClientRect : Element -> nat -> Rect.
Variable querySelectorAll : Element -> string -> option (list nat).

Lemma pass_exit (opt : PagebreakOpt) (root : Element) (H : Z) (env : Env) :
  NoDup (map ident (subtree root)) ->
  narrow root ->
  setup querySelectorAll opt root H = Some env ->
  exists w,
    toContainer_pagebreak getComputedStyle getBoundingClientRect
      querySelectorAll opt root H = Some w /\
    sched_inv (tag root) w /\
    exit_inv (tag root) w /\
    visited (log w) = querySelectorAll_star root.
Proof.
  intros Hnd Hn Hsetup. unfold toContainer_pagebreak. rewrite Hsetup. simpl bind.
  destruct (exit_forEach getComputedStyle getBoundingClientRect env root
              (tag_distinct root Hnd) Hn (querySelectorAll_star (tag root))
              (walk_start root))
    as [w [Hrun [Hsch [Hexit Hv]]]].
  - apply initial_inv.
  - apply initial_sched.
  - apply initial_exit.
  - reflexivity.
  - exists w. simpl in Hv. rewrite tag_star in Hv. auto.
Qed.

(** In a pass over a container with distinct identities in which no element
    has more than ten children, a queued closure runs at the first element
    visited after the subtree of its owner, and at no other moment: when it
    runs, what has been visited is everything up to the owner, the owner and
    all its descendants, and the visit under way is that of the next element
    of the snapshot. *)
Theorem after_spacer_fires_at_first_exit (opt : PagebreakOpt) (root : Element)
    (H : Z) (env : Env) :
  NoDup (map ident (subtree root)) ->
  narrow root ->
  setup querySelectorAll opt root H = Some env ->
  exists w,
    toContainer_pagebreak getComputedStyle getBoundingClientRect
      querySelectorAll opt root H = Some w /\
    forall o seen,
      In (o, seen) (firings [] (log w)) ->
      exists a el rest,
        seen = a ++ o :: descendants (tag root) o /\
        querySelectorAll_star root = seen ++ el :: rest.
Proof.
  intros Hnd Hn Hsetup.
  destruct (pass_exit opt root H env Hnd Hn Hsetup)
    as [w [Hrun [Hsch [Hexit Hv]]]].
  exists w. split; [exact Hrun |].
  intros o seen Hin.
  destruct (exit_firings _ _ Hexit o seen Hin) as [a Ea].
  destruct (sch_firings _ _ Hsch o seen Hin) as [_ [_ [el [rest Hvis]]]].
  exists a, el, rest. rewrite <- Hv. auto.
Qed.

(** Under the same conditions, the entries the pass leaves unexecuted are
    exactly those of the owners whose subtree closes the document: every other
    queued closure has run by the end of the walk. *)
Theorem queued_entry_fate (opt : PagebreakOpt) (root : Element) (H : Z)
    (env : Env) :
  NoDup (map ident (subtree root)) ->
  narrow root ->
  setup querySelectorAll opt root H = Some env ->
  exists w,
    toContainer_pagebreak getComputedStyle getBoundingClientRect
      querySelectorAll opt root H = Some w /\
    forall p,
      In p (breakAfter w) ->
      (executed p = false <->
       exists a, querySelectorAll_star root
                 = a ++ owner p :: descendants (tag root) (owner p)).
Proof.
  intros Hnd Hn Hsetup.
  destruct (pass_exit opt root H env Hnd Hn Hsetup)
    as [w [Hrun [Hsch [Hexit Hv]]]].
  exists w. split; [exact Hrun |].
  assert (HndS : NoDup (querySelectorAll_star root)).
  { rewrite star_subtree in Hnd. inversion Hnd. assumption. }
  intros p Hp. split.
  - intros Hex. destruct (exit_waiting _ _ Hexit p Hp Hex) as [a [d [EV Hd]]].
    rewrite Hv in EV. exists a.
    assert (Ho : In (owner p) (querySelectorAll_star (tag root))).
    { rewrite tag_star, EV. apply in_or_app. right. left. reflexivity. }
    destruct (descendants_block _ _ (tag_distinct root Hnd) Ho)
      as [x [a' [b [_ [_ Hblock]]]]].
    rewrite tag_star in Hblock.
    assert (E := Hblock). rewrite EV in E.
    pose proof HndS as Hnd2. rewrite EV in Hnd2.
    destruct (NoDup_split_unique _ _ _ _ _ Hnd2 E) as [_ Ed].
    destruct b as [| y b].
    + rewrite app_nil_r in Ed. rewrite EV, Ed. reflexivity.
    + exfalso. rewrite Hblock in HndS.
      apply NoDup_remove_1, NoDup_app_remove_l in HndS.
      assert (Hy : In y (descendants (tag root) (owner p))).
      { apply Hd. rewrite Ed. apply in_or_app. right. left. reflexivity. }
      apply in_split in Hy. destruct Hy as [D1 [D2 ED]].
      rewrite ED, <- app_assoc in HndS. simpl in HndS.
      apply NoDup_remove_2 in HndS. apply HndS.
      apply in_or_app. right. apply in_or_app. right. left. reflexivity.
  - intros [a Hclose]. destruct (executed p) eqn:Hex; [| reflexivity].
    exfalso. rewrite <- Hv in Hclose, HndS.
    apply (closing_not_fired _ _ _ _ Hsch HndS Hclose).
    apply (sch_executed _ _ Hsch p Hp). exact Hex.
Qed.
End FirstExit.

Lemma doc_nested_narrow : narrow doc_nested.
Proof. unfold narrow. simpl. repeat constructor. Qed.

Lemma doc_tail_narrow : narrow doc_tail.
Proof. unfold narrow. simpl. repeat constructor. Qed.

Lemma after_spacer_fires_at_first_exit_witness :
  exists w,
    toContainer_pagebreak style_none (block_rect own_100 0) (query_target [1; 2])
      opt_after_target doc_nested 1000 = Some w /\
    forall o seen,
      In (o, seen) (firings [] (log w)) ->
      exists a el rest,
        seen = a ++ o :: descendants (tag doc_nested) o /\
        querySelectorAll_star doc_nested = seen ++ el :: rest.
Proof.
  exact (after_spacer_fires_at_first_exit style_none (block_rect own_100 0)
           (query_target [1; 2]) opt_after_target doc_nested 1000 _
           doc_nested_distinct doc_nested_narrow eq_refl).
Defined.

Lemma queued_entry_fate_witness :
  exists w,
    toContainer_pagebreak style_none (block_rect own_100 0) query_none
      default_opt doc_tail 1000 = Some w /\
    forall p,
      In p (breakAfter w) ->
      (executed p = false <->
       exists a, querySelectorAll_star doc_tail
                 = a ++ owner p :: descendants (tag doc_tail) (owner p)).
Proof.
  exact (queued_entry_fate style_none (block_rect own_100 0) query_none
           default_opt doc_tail 1000 _
           doc_tail_distinct doc_tail_narrow eq_refl).
Defined.
